(** * Galois runtime worklists (include/Galois/Runtime/WorkList.h)

    A shallow embedding of the leaf worklists of the Galois runtime and the
    properties its specification states about them:

    - [STL]     : [STLAdaptor] over [std::stack], [std::queue] and
                  [std::priority_queue] ([LIFO], [FIFO], [PriQueue]);
    - [OBIM]    : [OrderedByIntegerMetric], an array of buckets with one
                  cursor per worker;
    - [Cache]   : [CacheByIntegerMetric], a per-worker cache in front of a
                  parent worklist;
    - [Chunked] : [ChunkedFIFO], per-worker chunks over a heap of [Chunk]
                  objects and a global FIFO of chunk pointers.

    Every member function is embedded as a function on an explicit state.
    A call is taken as one atomic step of the worker that makes it (the
    worker id is an explicit argument standing for [CPUSpaced::get]). *)

From stdpp Require Import base option numbers list gmap.

Local Open Scope N_scope.

(** ** Machine integers *)

(** [unsigned int] arithmetic wraps modulo [2^32]. *)
Definition UINT_MOD : N := 4294967296.
Definition u32 (n : N) : N := n mod UINT_MOD.

(** Largest [int]; [n++] on an [int] holding it is undefined. *)
Definition INT_MAX : Z := 2147483647.

Lemma u32_small n : n < UINT_MOD → u32 n = n.
Proof. intros H. unfold u32. by apply N.mod_small. Qed.

Lemma u32_lt n : u32 n < UINT_MOD.
Proof. unfold u32. by apply N.mod_lt. Qed.

(** ** Per-worker storage *)

(** Modelled from the spec: [CPUSpaced<A>] (its header is not part of the
    sources at hand).  One record per worker, [get()] returns the record of
    the calling worker, every record starts out as the default-constructed
    value, and no two workers see the same record. *)
Definition CPUSpaced (A : Type) : Type := nat → A.

Definition cpu_new {A} (a : A) : CPUSpaced A := λ _, a.
Definition cpu_get {A} (c : CPUSpaced A) (w : nat) : A := c w.
Definition cpu_set {A} (c : CPUSpaced A) (w : nat) (a : A) : CPUSpaced A :=
  λ w', if decide (w' = w) then a else c w'.

Lemma cpu_get_set_eq {A} (c : CPUSpaced A) w a : cpu_get (cpu_set c w a) w = a.
Proof. unfold cpu_get, cpu_set. by rewrite decide_True. Qed.

Lemma cpu_get_set_ne {A} (c : CPUSpaced A) w w' a :
  w' ≠ w → cpu_get (cpu_set c w a) w' = cpu_get c w'.
Proof. intros H. unfold cpu_get, cpu_set. by rewrite decide_False. Qed.

Lemma cpu_get_set {A} (c : CPUSpaced A) w w' a :
  cpu_get (cpu_set c w a) w' = if decide (w' = w) then a else cpu_get c w'.
Proof. done. Qed.

(** ** STL adaptors *)

Module STL.

(** The interface [STLAdaptor] asks of the container [MQ] it wraps:
    [push], [pop], [top], [empty], a default constructor, and the
    default-constructed [value_type()].  [elems] lists what the container
    holds, the element [top] would return first. *)
Class Container (T MQ : Type) := {
  value_init : T;
  mq_new : MQ;
  mq_push : T → MQ → MQ;
  mq_top : MQ → T;
  mq_pop : MQ → MQ;
  mq_empty : MQ → bool;
  elems : MQ → list T;
}.

(** What the C++ standard says of the three containers, over [elems]:
    [empty] tests for no element, [top] returns the first one and [pop]
    removes it; [push] adds exactly one element. *)
Class ContainerLaws (T MQ : Type) `{Container T MQ} := {
  elems_new : elems mq_new = [];
  elems_empty q : mq_empty q = bool_decide (elems q = []);
  elems_top q x l : elems q = x :: l → mq_top q = x;
  elems_pop q x l : elems q = x :: l → elems (mq_pop q) = l;
  elems_push q x : elems (mq_push x q) ≡ₚ x :: elems q;
}.

(** [std::stack<T>]: the last element pushed is on top. *)
Record stack (T : Type) := Stack { stack_elems : list T }.
Arguments Stack {T} _.
Arguments stack_elems {T} _.

(** [stdqueueFix<std::queue<T>>]: elements leave at the front, enter at the
    back, and [top] is [front]. *)
Record queue (T : Type) := Queue { queue_elems : list T }.
Arguments Queue {T} _.
Arguments queue_elems {T} _.

(** [std::priority_queue<T, std::vector<T>, Compare>]: [top] is a greatest
    element for [Compare].  The heap is kept as a list in which no element
    is [less] than a later one. *)
Record priority_queue (T : Type) := PriorityQueue { pq_elems : list T }.
Arguments PriorityQueue {T} _.
Arguments pq_elems {T} _.

Class Compare (T : Type) := less : T → T → bool.

Fixpoint pq_insert {T} `{Compare T} (x : T) (l : list T) : list T :=
  match l with
  | [] => [x]
  | y :: l' => if less y x then x :: l else y :: pq_insert x l'
  end.

Definition front {T} (d : T) (l : list T) : T :=
  match l with x :: _ => x | [] => d end.

Section containers.
Context {T : Type} (T_init : T).

#[export] Instance stack_container : Container T (stack T) := {|
  value_init := T_init;
  mq_new := Stack [];
  mq_push x q := Stack (x :: stack_elems q);
  mq_top q := front T_init (stack_elems q);
  mq_pop q := Stack (tail (stack_elems q));
  mq_empty q := bool_decide (stack_elems q = []);
  elems := stack_elems;
|}.

#[export] Instance queue_container : Container T (queue T) := {|
  value_init := T_init;
  mq_new := Queue [];
  mq_push x q := Queue (queue_elems q ++ [x]);
  mq_top q := front T_init (queue_elems q);
  mq_pop q := Queue (tail (queue_elems q));
  mq_empty q := bool_decide (queue_elems q = []);
  elems := queue_elems;
|}.

#[export] Instance priority_queue_container `{Compare T} :
  Container T (priority_queue T) := {|
  value_init := T_init;
  mq_new := PriorityQueue [];
  mq_push x q := PriorityQueue (pq_insert x (pq_elems q));
  mq_top q := front T_init (pq_elems q);
  mq_pop q := PriorityQueue (tail (pq_elems q));
  mq_empty q := bool_decide (pq_elems q = []);
  elems := pq_elems;
|}.
End containers.

(** [STLAdaptor<MQ, concurrent>]: the container and the word of the
    [SimpleLock] it inherits from. *)
Record STLAdaptor (MQ : Type) := Adaptor { wl : MQ; lockword : bool }.
Arguments Adaptor {MQ} _ _.
Arguments wl {MQ} _.
Arguments lockword {MQ} _.

Section STLAdaptor.
Context {T MQ : Type} `{Container T MQ}.
(** The template argument [concurrent]. *)
Variable concurrent : bool.

(** Modelled from the spec: [SimpleLock<int, concurrent>] (SimpleLock.h is
    not part of the sources at hand).  [lock] sets the word and [unlock]
    clears it; both are no-ops when [concurrent] is false.  A call is one
    atomic step, so [lock] never has to wait. *)
Definition lock (s : STLAdaptor MQ) : STLAdaptor MQ :=
  if concurrent then Adaptor (wl s) true else s.
Definition unlock (s : STLAdaptor MQ) : STLAdaptor MQ :=
  if concurrent then Adaptor (wl s) false else s.

Definition with_wl (q : MQ) (s : STLAdaptor MQ) : STLAdaptor MQ :=
  Adaptor q (lockword s).

Definition new : STLAdaptor MQ := Adaptor mq_new false.

Definition push (val : T) (s : STLAdaptor MQ) : STLAdaptor MQ :=
  let s := lock s in
  let s := with_wl (mq_push val (wl s)) s in
  unlock s.

Definition pop (s : STLAdaptor MQ) : (bool * T) * STLAdaptor MQ :=
  let s := lock s in
  if mq_empty (wl s) then
    let s := unlock s in
    ((false, value_init), s)
  else
    let retval := mq_top (wl s) in
    let s := with_wl (mq_pop (wl s)) s in
    let s := unlock s in
    ((true, retval), s).

Definition empty (s : STLAdaptor MQ) : bool * STLAdaptor MQ :=
  let s := lock s in
  let retval := mq_empty (wl s) in
  let s := unlock s in
  (retval, s).

Definition aborted (val : T) (s : STLAdaptor MQ) : STLAdaptor MQ :=
  push val s.

(** [fill_initial] pushes without taking the lock. *)
Fixpoint fill_initial (ii : list T) (s : STLAdaptor MQ) : STLAdaptor MQ :=
  match ii with
  | [] => s
  | x :: ii => fill_initial ii (with_wl (mq_push x (wl s)) s)
  end.

(** What the adaptor holds, in the order [pop] hands it out. *)
Definition contents (s : STLAdaptor MQ) : list T := elems (wl s).

Lemma wl_lock s : wl (lock s) = wl s.
Proof. unfold lock. by destruct concurrent. Qed.

Lemma wl_unlock s : wl (unlock s) = wl s.
Proof. unfold unlock. by destruct concurrent. Qed.

Lemma contents_new `{!ContainerLaws T MQ} : contents new = [].
Proof. apply elems_new. Qed.

Lemma contents_push `{!ContainerLaws T MQ} val s :
  contents (push val s) ≡ₚ val :: contents s.
Proof.
  unfold contents, push. rewrite wl_unlock. simpl. rewrite wl_lock.
  apply elems_push.
Qed.

Lemma pop_nil `{!ContainerLaws T MQ} s :
  contents s = [] →
  (pop s).1 = (false, value_init) ∧ wl (pop s).2 = wl s.
Proof.
  intros Hs. unfold pop. rewrite wl_lock, elems_empty.
  rewrite bool_decide_eq_true_2 by done. simpl.
  by rewrite wl_unlock, wl_lock.
Qed.

Lemma pop_cons `{!ContainerLaws T MQ} s x l :
  contents s = x :: l →
  (pop s).1 = (true, x) ∧ contents (pop s).2 = l.
Proof.
  intros Hs. unfold pop. rewrite wl_lock, elems_empty.
  rewrite bool_decide_eq_false_2 by (unfold contents in Hs; congruence).
  simpl. unfold contents. rewrite wl_unlock. simpl.
  split; [f_equal; by eapply elems_top | by eapply elems_pop].
Qed.

Lemma empty_spec `{!ContainerLaws T MQ} s :
  (empty s).1 = bool_decide (contents s = []) ∧ wl (empty s).2 = wl s.
Proof.
  unfold empty. simpl. rewrite wl_unlock, !wl_lock. split; [|done].
  apply elems_empty.
Qed.

(** The lock is free again when [pop] returns, on both of its paths. *)
Lemma pop_unlocks s : concurrent = true → lockword (pop s).2 = false.
Proof.
  intros Hc. unfold pop, lock, unlock. rewrite Hc. simpl.
  by destruct (mq_empty _).
Qed.

(** What [pop] does, for the sentinel [d]: on an adaptor that holds
    nothing it returns [false] with [d] and leaves the container as it
    was; otherwise it returns [true] with the first element, which is then
    gone from the container while the others stay. *)
Definition pop_spec (d : T) (s : STLAdaptor MQ) : Prop :=
  match contents s with
  | [] => (pop s).1 = (false, d) ∧ wl (pop s).2 = wl s
  | x :: l => (pop s).1 = (true, x) ∧ contents (pop s).2 = l
  end.

Lemma pop_spec_holds `{!ContainerLaws T MQ} s : pop_spec value_init s.
Proof.
  unfold pop_spec. destruct (contents s) as [|x l] eqn:E.
  - by apply pop_nil.
  - by apply pop_cons.
Qed.
End STLAdaptor.

Section laws.
Context {T : Type} (T_init : T).

Lemma pq_insert_perm `{Compare T} (x : T) l : pq_insert x l ≡ₚ x :: l.
Proof.
  induction l as [|y l IH]; simpl; [done|].
  destruct (less y x); [done|]. rewrite IH. apply Permutation_swap.
Qed.

#[export] Instance stack_laws : ContainerLaws T (stack T) (H := stack_container T_init).
Proof.
  split; simpl; try done.
  - intros q x l ->. done.
  - intros q x l ->. done.
Qed.

#[export] Instance queue_laws : ContainerLaws T (queue T) (H := queue_container T_init).
Proof.
  split; simpl; try done.
  - intros q x l ->. done.
  - intros q x l ->. done.
  - intros q x. by rewrite Permutation_app_comm.
Qed.

#[export] Instance priority_queue_laws `{Compare T} :
  ContainerLaws T (priority_queue T) (H := priority_queue_container T_init).
Proof.
  split; simpl; try done.
  - intros q x l ->. done.
  - intros q x l ->. done.
  - intros q x. apply pq_insert_perm.
Qed.
End laws.

(** The three instantiations of the header. *)
Abbreviation LIFO T := (STLAdaptor (stack T)) (only parsing).
Abbreviation FIFO T := (STLAdaptor (queue T)) (only parsing).
Abbreviation PriQueue T := (STLAdaptor (priority_queue T)) (only parsing).

(** *** The property of the specification *)

(** C7: for each of [LIFO], [FIFO] and [PriQueue], [pop] on an empty
    worklist returns [false] with the default-constructed [value_type()]
    and leaves the container as it was, and [pop] on a worklist that holds
    items returns [true] with one of them (the one [top] designates),
    which is then gone from the worklist. *)
Theorem stl_pop_empty_or_item {T : Type} (T_init : T) `{Compare T}
    (concurrent : bool) :
  (∀ s : LIFO T,
     pop_spec (H := stack_container T_init) concurrent T_init s)
  ∧ (∀ s : FIFO T,
       pop_spec (H := queue_container T_init) concurrent T_init s)
  ∧ (∀ s : PriQueue T,
       pop_spec (H := priority_queue_container T_init) concurrent T_init s).
Proof.
  split_and!; intros s.
  - apply (pop_spec_holds (H := stack_container T_init)), stack_laws.
  - apply (pop_spec_holds (H := queue_container T_init)), queue_laws.
  - apply (pop_spec_holds (H := priority_queue_container T_init)),
      priority_queue_laws.
Qed.

(** *** Runs of calls on one adaptor *)

Section order.
Context {T MQ : Type} `{Container T MQ}.
Variable concurrent : bool.

(** [push] called for each item of [vs] in turn. *)
Definition push_all (vs : list T) (s : STLAdaptor MQ) : STLAdaptor MQ :=
  foldl (λ s v, push concurrent v s) s vs.

(** [n] calls of [pop] in a row: what they returned, the first call first,
    and the adaptor they leave. *)
Fixpoint pop_n (n : nat) (s : STLAdaptor MQ) :
    list (bool * T) * STLAdaptor MQ :=
  match n with
  | O => ([], s)
  | S n =>
      let r := pop concurrent s in
      let rs := pop_n n r.2 in
      (r.1 :: rs.1, rs.2)
  end.

(** As many calls of [pop] as the adaptor holds items at its head hand
    these out in order. *)
Lemma pop_n_prefix `{!ContainerLaws T MQ} l1 : ∀ s l2,
  contents s = l1 ++ l2 →
  (pop_n (length l1) s).1 = (λ x, (true, x)) <$> l1
  ∧ contents (pop_n (length l1) s).2 = l2.
Proof.
  induction l1 as [|x l1 IH]; intros s l2 Hs; [done|].
  destruct (pop_cons concurrent s x (l1 ++ l2) Hs) as [H1 H2].
  destruct (IH _ _ H2) as [H3 H4]. simpl. by rewrite H1, H3, H4.
Qed.

Lemma push_all_cons v vs s :
  push_all (v :: vs) s = push_all vs (push concurrent v s).
Proof. done. Qed.

Lemma wl_push val s : wl (push concurrent val s) = mq_push val (wl s).
Proof. unfold push. rewrite wl_unlock. simpl. by rewrite wl_lock. Qed.

Lemma wl_fill_initial ii : ∀ s,
  wl (fill_initial ii s) = foldl (λ q v, mq_push v q) (wl s) ii
  ∧ lockword (fill_initial ii s) = lockword s.
Proof.
  induction ii as [|x ii IH]; intros s; [done|].
  simpl. by destruct (IH (with_wl (mq_push x (wl s)) s)) as [-> ->].
Qed.

Lemma wl_push_all vs : ∀ s,
  wl (push_all vs s) = foldl (λ q v, mq_push v q) (wl s) vs.
Proof.
  induction vs as [|x vs IH]; intros s; [done|].
  by rewrite push_all_cons, IH, wl_push.
Qed.
End order.

(** *** Order of service and seeding *)

(** In a [LIFO], after the items [vs] have been pushed, as many calls of
    [pop] return them with [true], the last one pushed first, and leave
    what the worklist held before. *)
Theorem stl_lifo_pops_reverse_pushes {T : Type} (T_init : T)
    (concurrent : bool) (vs : list T) (s : LIFO T) :
  let r := pop_n (H := stack_container T_init) concurrent (length vs)
             (push_all (H := stack_container T_init) concurrent vs s) in
  r.1 = (λ x, (true, x)) <$> rev vs
  ∧ contents (H := stack_container T_init) r.2
    = contents (H := stack_container T_init) s.
Proof.
  assert (Hc : ∀ vs (s : LIFO T),
    contents (H := stack_container T_init)
      (push_all (H := stack_container T_init) concurrent vs s)
    = rev vs ++ contents (H := stack_container T_init) s).
  { clear. intros vs. induction vs as [|v vs IH]; intros s; [done|].
    rewrite push_all_cons, IH. simpl. rewrite <- (assoc_L (++)). f_equal.
    unfold contents. by rewrite (wl_push (H := stack_container T_init)). }
  intros r. unfold r. rewrite <- (length_rev vs).
  apply (pop_n_prefix (H := stack_container T_init)); [apply stack_laws|].
  apply Hc.
Qed.

(** In a [FIFO], the items leave in the order they were pushed, behind
    those the worklist held already: after [vs] have been pushed, as many
    calls of [pop] as there are items return first the items held before
    and then [vs], each in order, and the next call returns [false] with
    [value_type()]. *)
Theorem stl_fifo_pops_in_push_order {T : Type} (T_init : T)
    (concurrent : bool) (vs : list T) (s : FIFO T) :
  let held := contents (H := queue_container T_init) s in
  let r := pop_n (H := queue_container T_init) concurrent
             (length held + length vs)
             (push_all (H := queue_container T_init) concurrent vs s) in
  r.1 = (λ x, (true, x)) <$> (held ++ vs)
  ∧ (pop (H := queue_container T_init) concurrent r.2).1 = (false, T_init).
Proof.
  assert (Hc : ∀ vs (s : FIFO T),
    contents (H := queue_container T_init)
      (push_all (H := queue_container T_init) concurrent vs s)
    = contents (H := queue_container T_init) s ++ vs).
  { clear. intros vs. induction vs as [|v vs IH]; intros s.
    - simpl. by rewrite app_nil_r.
    - rewrite push_all_cons, IH. unfold contents.
      rewrite (wl_push (H := queue_container T_init)). simpl.
      by rewrite <- (assoc_L (++)). }
  intros held r. unfold r. rewrite <- length_app.
  destruct (pop_n_prefix (H := queue_container T_init) concurrent
              (held ++ vs) (push_all (H := queue_container T_init)
                              concurrent vs s) []
              (ContainerLaws0 := queue_laws T_init)) as [H1 H2].
  { by rewrite app_nil_r, Hc. }
  split; [done|].
  by destruct (pop_nil (H := queue_container T_init) concurrent _ H2
                 (ContainerLaws0 := queue_laws T_init)).
Qed.

(** [fill_initial] leaves in the container what [push], called for every
    item of the range in turn, leaves there, and it does so without
    touching the lock. *)
Theorem stl_fill_initial_pushes {T MQ : Type} `{Container T MQ}
    (concurrent : bool) (ii : list T) (s : STLAdaptor MQ) :
  wl (fill_initial ii s) = wl (push_all concurrent ii s)
  ∧ lockword (fill_initial ii s) = lockword s.
Proof.
  destruct (wl_fill_initial ii s) as [-> ->]. by rewrite wl_push_all.
Qed.

End STL.

(** ** OrderedByIntegerMetric *)

Module OBIM.
Import STL.

(** How a member function that indexes the bucket array ends: it returns,
    or it evaluates [data[i]] with [i] outside the array, which is
    undefined, or the model ran out of fuel. *)
Inductive outcome (A : Type) : Type :=
| Returned (a : A)
| OutOfBounds (i : N)
| OutOfFuel.
Arguments Returned {A} _.
Arguments OutOfBounds {A} _.
Arguments OutOfFuel {A}.

Section OrderedByIntegerMetric.
Context {T : Type} (T_init : T).
(** The indexer, called as [I(val, size)]. *)
Variable I : T → N → N.

#[local] Instance bucket_container : Container T (queue T) :=
  queue_container T_init.

(** [ContainerTy* data; unsigned int size; CPUSpaced<unsigned int> cursor]
    with the default [ContainerTy = FIFO<T>]. *)
Record OrderedByIntegerMetric := Build {
  data : list (FIFO T);
  size : N;
  cursor : CPUSpaced N;
}.

(** A finished call: the indices at which [data] was subscripted, in
    order, how the call ended, and the state it left. *)
Record call (A : Type) := Call {
  accesses : list N;
  result : outcome A;
  after : OrderedByIntegerMetric;
}.
Arguments Call {A} _ _ _.
Arguments accesses {A} _.
Arguments result {A} _.
Arguments after {A} _.

(** The constructor: [size(range+1)], [data = new ContainerTy[size]], and
    every cursor 0 (each worker holds a cursor initialized to 0). *)
Definition create (range : N) : OrderedByIntegerMetric :=
  let size := u32 (range + 1) in
  {| data := replicate (N.to_nat size) (STL.new (MQ := queue T));
     size := size;
     cursor := cpu_new 0 |}.

Definition cur (w : nat) (s : OrderedByIntegerMetric) : N :=
  cpu_get (cursor s) w.

Definition set_cur (w : nat) (c : N) (s : OrderedByIntegerMetric) :
  OrderedByIntegerMetric :=
  {| data := data s; size := size s; cursor := cpu_set (cursor s) w c |}.

Definition set_data (d : list (FIFO T)) (s : OrderedByIntegerMetric) :
  OrderedByIntegerMetric :=
  {| data := d; size := size s; cursor := cursor s |}.

Definition push (w : nat) (val : T) (s : OrderedByIntegerMetric) : call () :=
  let index := u32 (I val (size s)) in
  match data s !! N.to_nat index with
  | None => Call [index] (OutOfBounds index) s
  | Some b =>
      let s := set_data (<[N.to_nat index := STL.push true val b]> (data s)) s in
      (* if (cur > index) cur = index; *)
      let s := if index <? cur w s then set_cur w index s else s in
      Call [index] (Returned ()) s
  end.

(** [ret = data[i].pop()]: [None] when [i] is outside the array. *)
Definition bucket_pop (i : N) (s : OrderedByIntegerMetric) :
  option ((bool * T) * OrderedByIntegerMetric) :=
  match data s !! N.to_nat i with
  | None => None
  | Some b =>
      let r := STL.pop true b in
      Some (r.1, set_data (<[N.to_nat i := r.2]> (data s)) s)
  end.

(** [while (cur < size && !ret.first) { ++cur; ret = data[cur].pop(); }] *)
Fixpoint pop_while (fuel : nat) (w : nat) (ret : bool * T) (log : list N)
    (s : OrderedByIntegerMetric) : call (bool * T) :=
  if (cur w s <? size s) && negb ret.1 then
    match fuel with
    | O => Call log OutOfFuel s
    | S fuel =>
        let s := set_cur w (u32 (cur w s + 1)) s in
        match bucket_pop (cur w s) s with
        | None => Call (log ++ [cur w s]) (OutOfBounds (cur w s)) s
        | Some (ret, s) => pop_while fuel w ret (log ++ [cur w s]) s
        end
    end
  else Call log (Returned ret) s.

Definition pop (w : nat) (s : OrderedByIntegerMetric) : call (bool * T) :=
  let s := if cur w s =? size s then set_cur w 0 s else s in
  match bucket_pop (cur w s) s with
  | None => Call [cur w s] (OutOfBounds (cur w s)) s
  | Some (ret, s') => pop_while (N.to_nat (size s)) w ret [cur w s] s'
  end.

Definition empty (s : OrderedByIntegerMetric) : bool :=
  forallb (λ b, (STL.empty true b).1) (data s).

Definition aborted (w : nat) (val : T) (s : OrderedByIntegerMetric) : call () :=
  push w val s.

(** The items of bucket [i], oldest first. *)
Definition bucket (i : N) (s : OrderedByIntegerMetric) : list T :=
  from_option (λ b, queue_elems (wl b)) [] (data s !! N.to_nat i).

(** The state the constructor builds and [push] and [pop] keep: the array
    has [size] buckets, [size] is an [unsigned int], and no cursor is past
    [size]. *)
Record wf (s : OrderedByIntegerMetric) : Prop := {
  wf_length : length (data s) = N.to_nat (size s);
  wf_size : size s < UINT_MOD;
  wf_cursor w : cur w s ≤ size s;
}.

(** One call of a worker, and a run of calls that all return. *)
Inductive op : Type :=
| Push (w : nat) (val : T)
| Pop (w : nat).

Definition step (o : op) (s : OrderedByIntegerMetric) :
  option OrderedByIntegerMetric :=
  match o with
  | Push w val =>
      let c := push w val s in
      match result c with Returned _ => Some (after c) | _ => None end
  | Pop w =>
      let c := pop w s in
      match result c with Returned _ => Some (after c) | _ => None end
  end.

(** [o] is not a call that may take the cursor of [w] back: it is not a
    [pop] of [w], and if it is a [push] of [w] its bucket is not below the
    cursor of [w]. *)
Definition keeps (w : nat) (o : op) (s : OrderedByIntegerMetric) : Prop :=
  match o with
  | Push w' val => w' = w → cur w s ≤ u32 (I val (size s))
  | Pop w' => w' ≠ w
  end.

(** [between w ops s s']: the calls [ops] lead from [s] to [s'], all of
    them return, and none is a [pop] of [w] or a [push] of [w] below its
    cursor. *)
Inductive between (w : nat) :
  list op → OrderedByIntegerMetric → OrderedByIntegerMetric → Prop :=
| between_nil s : between w [] s s
| between_cons o ops s s1 s' :
    keeps w o s → step o s = Some s1 → between w ops s1 s' →
    between w (o :: ops) s s'.

(** The indices [a], [a+1], ..., [b]. *)
Definition upto (a b : N) : list N :=
  N.of_nat <$> seq (N.to_nat a) (N.to_nat (b + 1 - a)).


(** *** Facts about the bucket array *)

#[local] Instance bucket_laws : ContainerLaws T (queue T) := queue_laws T_init.

Lemma upto_cons a b : a ≤ b → upto a b = a :: upto (a + 1) b.
Proof.
  intros H. unfold upto.
  replace (N.to_nat (b + 1 - a)) with (S (N.to_nat (b + 1 - (a + 1)))) by lia.
  simpl. rewrite N2Nat.id. f_equal. f_equal. f_equal. lia.
Qed.

Lemma upto_nil a b : b < a → upto a b = [].
Proof.
  intros H. unfold upto. by replace (N.to_nat (b + 1 - a)) with 0%nat by lia.
Qed.

Arguments cur : simpl never.
Arguments bucket : simpl never.
Arguments set_cur : simpl never.
Arguments u32 : simpl never.

Lemma cur_set_cur w w' c s :
  cur w' (set_cur w c s) = if decide (w' = w) then c else cur w' s.
Proof. done. Qed.

Lemma bucket_set_cur i w c s : bucket i (set_cur w c s) = bucket i s.
Proof. done. Qed.

Lemma bucket_set_data i k b s :
  (N.to_nat k < length (data s))%nat →
  bucket i (set_data (<[N.to_nat k := b]> (data s)) s)
  = if decide (i = k) then queue_elems (wl b) else bucket i s.
Proof.
  intros Hk. unfold bucket, set_data. simpl. case_decide as E.
  - subst. by rewrite list_lookup_insert_eq.
  - rewrite list_lookup_insert_ne; [done | lia].
Qed.

Lemma bucket_outside i s :
  length (data s) = N.to_nat (size s) → size s ≤ i → bucket i s = [].
Proof.
  intros Hl Hi. unfold bucket. rewrite lookup_ge_None_2; [done | lia].
Qed.

(** [data[i].pop()] inside the array: it takes the oldest item of bucket
    [i] if there is one and touches nothing else. *)
Lemma bucket_pop_inside i s :
  length (data s) = N.to_nat (size s) → i < size s →
  ∃ r s', bucket_pop i s = Some (r, s')
    ∧ size s' = size s ∧ length (data s') = length (data s)
    ∧ cursor s' = cursor s
    ∧ (∀ k, k ≠ i → bucket k s' = bucket k s)
    ∧ match bucket i s with
      | [] => r = (false, T_init) ∧ bucket i s' = []
      | x :: l => r = (true, x) ∧ bucket i s' = l
      end.
Proof.
  intros Hl Hi. unfold bucket_pop.
  destruct (data s !! N.to_nat i) as [b|] eqn:Hb; last first.
  { apply lookup_ge_None_1 in Hb. lia. }
  eexists _, _. split; [done|]. simpl. rewrite length_insert.
  assert (Hlt : (N.to_nat i < length (data s))%nat) by lia.
  split_and!; try done.
  - intros k Hk. rewrite bucket_set_data by done. by rewrite decide_False.
  - rewrite bucket_set_data by done. rewrite decide_True by done.
    unfold bucket at 1. rewrite Hb. cbn [from_option].
    change (queue_elems (wl b)) with (contents b).
    change (queue_elems (wl (STL.pop true b).2))
      with (contents (STL.pop true b).2).
    destruct (contents b) as [|x l] eqn:E.
    + destruct (pop_nil true b E) as [H1 H2].
      split; [done|]. unfold contents in *. by rewrite H2.
    + by destruct (pop_cons true b x l E) as [H1 H2].
Qed.

Lemma bucket_pop_outside i s :
  length (data s) = N.to_nat (size s) → size s ≤ i → bucket_pop i s = None.
Proof.
  intros Hl Hi. unfold bucket_pop. rewrite lookup_ge_None_2; [done | lia].
Qed.

(** What a call of the scanning loop leaves untouched. *)
Record frame {A} (w : nat) (s : OrderedByIntegerMetric) (c : call A) : Prop := {
  frame_size : size (after c) = size s;
  frame_length : length (data (after c)) = length (data s);
  frame_cursor w' : w' ≠ w → cur w' (after c) = cur w' s;
}.

Lemma pop_while_done fuel w ret log s :
  ret.1 = true → pop_while fuel w ret log s = Call log (Returned ret) s.
Proof.
  intros Hr. destruct fuel; simpl; by rewrite Hr, andb_false_r.
Qed.

Lemma pop_while_step fuel w ret log s :
  cur w s < size s → ret.1 = false →
  pop_while (S fuel) w ret log s =
    let s := set_cur w (u32 (cur w s + 1)) s in
    match bucket_pop (cur w s) s with
    | None => Call (log ++ [cur w s]) (OutOfBounds (cur w s)) s
    | Some (ret, s) => pop_while fuel w ret (log ++ [cur w s]) s
    end.
Proof.
  intros Hc Hr. simpl. rewrite Hr. apply N.ltb_lt in Hc. by rewrite Hc.
Qed.

(** The loop of [pop], entered after bucket [cur] was found empty: either
    it stops at the first bucket [j] above [cur] that holds an item and
    returns that item, or there is none and it subscripts [data[size]]. *)
Lemma pop_while_scan w fuel : ∀ s ret log,
  length (data s) = N.to_nat (size s) → size s < UINT_MOD →
  cur w s < size s → ret.1 = false → bucket (cur w s) s = [] →
  (N.to_nat (size s - cur w s) ≤ fuel)%nat →
  let c := pop_while fuel w ret log s in
  frame w s c
  ∧ accesses c = log ++ upto (cur w s + 1) (cur w (after c))
  ∧ ((∃ j x, cur w s < j ∧ j < size s
        ∧ (∀ i, cur w s ≤ i → i < j → bucket i s = [])
        ∧ bucket j s = x :: bucket j (after c)
        ∧ (∀ i, i ≠ j → bucket i (after c) = bucket i s)
        ∧ result c = Returned (true, x)
        ∧ cur w (after c) = j)
     ∨ ((∀ i, cur w s ≤ i → bucket i s = [])
        ∧ (∀ i, bucket i (after c) = bucket i s)
        ∧ result c = OutOfBounds (size s)
        ∧ cur w (after c) = size s)).
Proof.
  induction fuel as [|fuel IH]; intros s ret log Hl Hsz Hc Hret Hb Hf; [lia|].
  rewrite pop_while_step by done. cbv zeta.
  set (s1 := set_cur w (u32 (cur w s + 1)) s).
  assert (Hc1 : cur w s1 = cur w s + 1).
  { unfold s1. rewrite cur_set_cur, decide_True by done.
    apply u32_small. lia. }
  rewrite Hc1.
  destruct (decide (cur w s + 1 = size s)) as [Hend|Hin].
  - rewrite bucket_pop_outside by (simpl; lia). simpl.
    split_and!.
    + split; simpl; [done..|]. intros w' Hw. unfold s1.
      by rewrite cur_set_cur, decide_False.
    + rewrite Hc1, upto_cons, upto_nil by lia. done.
    + right. split_and!; [|done|by f_equal|lia].
      intros i Hi. destruct (decide (i = cur w s)) as [->|]; [done|].
      apply bucket_outside; [done | lia].
  - destruct (bucket_pop_inside (cur w s + 1) s1) as
      (r & s2 & -> & Hs2 & Hl2 & Hcu2 & Hoth & Hpop); [done | simpl; lia |].
    assert (Hc2 : cur w s2 = cur w s + 1) by (unfold cur; by rewrite Hcu2).
    assert (Hcw : ∀ w', w' ≠ w → cur w' s2 = cur w' s).
    { intros w' Hw. unfold cur at 1. rewrite Hcu2. fold (cur w' s1).
      unfold s1. by rewrite cur_set_cur, decide_False. }
    change (size s1) with (size s) in Hs2.
    change (data s1) with (data s) in Hl2.
    change (bucket (cur w s + 1) s1) with (bucket (cur w s + 1) s) in Hpop.
    assert (Hoth' : ∀ k, k ≠ cur w s + 1 → bucket k s2 = bucket k s)
      by (intros k Hk; by rewrite Hoth).
    clear Hoth Hcu2. clearbody s1. rewrite Hc2.
    destruct (bucket (cur w s + 1) s) as [|x l] eqn:Hbk.
    + destruct Hpop as [-> Hb2].
      destruct (IH s2 (false, T_init) (log ++ [cur w s + 1]))
        as (Hfr & Hacc & Hres).
      { by rewrite Hl2, Hs2. } { by rewrite Hs2. } { rewrite Hc2, Hs2. lia. }
      { done. } { by rewrite Hc2. } { rewrite Hc2, Hs2. lia. }
      assert (Hbs : ∀ i, bucket i s2 = bucket i s).
      { intros i. destruct (decide (i = cur w s + 1)) as [->|Hi].
        - by rewrite Hb2.
        - by rewrite Hoth'. }
      rewrite Hc2, Hs2 in Hres. rewrite Hc2 in Hacc.
      split_and!.
      * destruct Hfr as [F1 F2 F3]. split.
        -- by rewrite F1, Hs2.
        -- by rewrite F2, Hl2.
        -- intros w' Hw. rewrite F3 by done. by apply Hcw.
      * rewrite Hacc, <- (assoc_L (++)). f_equal.
        rewrite (upto_cons (cur w s + 1)); [done|].
        destruct Hres as [(j & x & ? & ? & ? & ? & ? & ? & ->)|(_ & _ & _ & ->)];
          lia.
      * destruct Hres as [(j & x & Hj1 & Hj2 & Hemp & Hbj & Hrest & Hr & Hcj)
                         |(Hemp & Hrest & Hr & Hcj)].
        -- left. exists j, x. split_and!; try done; try lia.
           ++ intros i Hi1 Hi2. destruct (decide (i = cur w s)) as [->|]; [done|].
              rewrite <- Hbs. apply Hemp; lia.
           ++ by rewrite <- Hbs.
           ++ intros i Hi. by rewrite Hrest, Hbs.
        -- right. split_and!; try done.
           ++ intros i Hi. destruct (decide (i = cur w s)) as [->|]; [done|].
              rewrite <- Hbs. apply Hemp; lia.
           ++ intros i. by rewrite Hrest, Hbs.
    + destruct Hpop as [-> Hb2].
      rewrite pop_while_done by done. simpl.
      split_and!.
      * split; simpl; [done|done|]. by apply Hcw.
      * rewrite Hc2, upto_cons, upto_nil by lia. done.
      * left. exists (cur w s + 1), x.
        split_and!; try done; try lia.
        -- intros i Hi1 Hi2. by replace i with (cur w s) by lia.
        -- by rewrite Hb2.
Qed.


(** Where [pop] starts to look: at the cursor, or at 0 when the cursor
    stands at [size] (the "handle out of range" test). *)
Definition start (w : nat) (s : OrderedByIntegerMetric) : N :=
  if cur w s =? size s then 0 else cur w s.

(** [pop] as a whole: it subscripts [start], [start+1], ... in turn; it
    returns the oldest item of the first bucket from [start] on that holds
    one and leaves the cursor there, or, when there is none, ends up
    subscripting [data[size]]. *)
Lemma pop_scan w s :
  wf s →
  let c := pop w s in
  frame w s c
  ∧ accesses c = upto (start w s) (cur w (after c))
  ∧ ((∃ j x, start w s ≤ j ∧ j < size s
        ∧ (∀ i, start w s ≤ i → i < j → bucket i s = [])
        ∧ bucket j s = x :: bucket j (after c)
        ∧ (∀ i, i ≠ j → bucket i (after c) = bucket i s)
        ∧ result c = Returned (true, x)
        ∧ cur w (after c) = j)
     ∨ ((∀ i, start w s ≤ i → bucket i s = [])
        ∧ (∀ i, bucket i (after c) = bucket i s)
        ∧ result c = OutOfBounds (size s)
        ∧ cur w (after c) = size s)).
Proof.
  intros [Hl Hsz Hcur]. specialize (Hcur w). unfold pop.
  set (s0 := if cur w s =? size s then set_cur w 0 s else s).
  assert (Hc0 : cur w s0 = start w s).
  { unfold s0, start. destruct (cur w s =? size s); [|done].
    by rewrite cur_set_cur, decide_True. }
  assert (Hcw : ∀ w', w' ≠ w → cur w' s0 = cur w' s).
  { intros w' Hw. unfold s0. destruct (cur w s =? size s); [|done].
    by rewrite cur_set_cur, decide_False. }
  assert (Hs0 : size s0 = size s) by (unfold s0; by destruct (_ =? _)).
  assert (Hd0 : data s0 = data s) by (unfold s0; by destruct (_ =? _)).
  assert (Hb0 : ∀ i, bucket i s0 = bucket i s)
    by (intros i; unfold bucket; by rewrite Hd0).
  assert (Hst : start w s ≤ size s).
  { unfold start. destruct (cur w s =? size s); lia. }
  clearbody s0. rewrite Hc0, Hs0.
  destruct (decide (start w s = size s)) as [Hend|Hin].
  - rewrite bucket_pop_outside by (rewrite ?Hd0, ?Hs0; first [done|lia]).
    simpl. rewrite Hc0. split_and!.
    + split; simpl; [done | by rewrite Hd0 | done].
    + rewrite upto_cons, upto_nil by lia. done.
    + right. split_and!; [|done|by rewrite Hend|done].
      intros i Hi. apply bucket_outside; [done | lia].
  - destruct (bucket_pop_inside (start w s) s0) as
      (r & s1 & -> & Hs1 & Hl1 & Hcu1 & Hoth & Hpop);
      [by rewrite Hd0, Hs0 | rewrite Hs0; lia |].
    assert (Hc1 : ∀ w', cur w' s1 = cur w' s0)
      by (intros w'; unfold cur; by rewrite Hcu1).
    rewrite Hs0 in Hs1. rewrite Hd0 in Hl1. rewrite Hb0 in Hpop.
    destruct (bucket (start w s) s) as [|x l] eqn:Hbk.
    + destruct Hpop as [-> Hb1].
      assert (Hbs : ∀ i, bucket i s1 = bucket i s).
      { intros i. destruct (decide (i = start w s)) as [->|Hi].
        - by rewrite Hb1.
        - by rewrite Hoth, Hb0. }
      destruct (pop_while_scan w (N.to_nat (size s)) s1 (false, T_init)
                  [start w s]) as (Hfr & Hacc & Hres).
      { by rewrite Hl1, Hs1. } { by rewrite Hs1. }
      { rewrite Hc1, Hc0, Hs1. lia. } { done. }
      { by rewrite Hc1, Hc0. } { rewrite Hs1. lia. }
      rewrite Hc1, Hc0, Hs1 in Hres. rewrite Hc1, Hc0 in Hacc.
      split_and!.
      * destruct Hfr as [F1 F2 F3]. split.
        -- by rewrite F1.
        -- by rewrite F2.
        -- intros w' Hw. by rewrite F3, Hc1, Hcw.
      * rewrite Hacc. rewrite (upto_cons (start w s)); [done|].
        destruct Hres as [(j & x & ? & ? & ? & ? & ? & ? & ->)|(_ & _ & _ & ->)];
          lia.
      * destruct Hres as [(j & x & Hj1 & Hj2 & Hemp & Hbj & Hrest & Hr & Hcj)
                         |(Hemp & Hrest & Hr & Hcj)].
        -- left. exists j, x. split_and!; try done; try lia.
           ++ intros i Hi1 Hi2. rewrite <- Hbs. by apply Hemp.
           ++ by rewrite <- Hbs.
           ++ intros i Hi. by rewrite Hrest, Hbs.
        -- right. split_and!; try done.
           ++ intros i Hi. rewrite <- Hbs. by apply Hemp.
           ++ intros i. by rewrite Hrest, Hbs.
    + destruct Hpop as [-> Hb1].
      rewrite pop_while_done by done. simpl. split_and!.
      * split; simpl; [done | done |]. intros w' Hw. by rewrite Hc1, Hcw.
      * rewrite Hc1, Hc0, upto_cons, upto_nil by lia. done.
      * left. exists (start w s), x. split_and!; try done; try lia.
        -- by rewrite Hb1.
        -- intros i Hi. by rewrite Hoth, Hb0.
        -- by rewrite Hc1, Hc0.
Qed.

(** A [pop] that returns has found an item, and its cursor is inside the
    array and not before [start]. *)
Lemma pop_returned w s r :
  wf s → result (pop w s) = Returned r →
  wf (after (pop w s)) ∧ r.1 = true
  ∧ start w s ≤ cur w (after (pop w s))
  ∧ cur w (after (pop w s)) < size s.
Proof.
  intros Hwf Hr. destruct (pop_scan w s Hwf) as (Hfr & _ & Hres).
  destruct Hwf as [Hl Hsz Hcur]. destruct Hfr as [F1 F2 F3].
  destruct Hres as [(j & x & Hj1 & Hj2 & _ & _ & _ & Hr' & Hcj)|(_ & _ & Hr' & _)];
    [|congruence].
  rewrite Hr' in Hr. injection Hr as <-. split_and!; [|done|lia..].
  split.
  - by rewrite F1, F2.
  - by rewrite F1.
  - intros w'. rewrite F1. destruct (decide (w' = w)) as [->|Hw]; [lia|].
    by rewrite F3.
Qed.

(** [push] inside the array: the item goes to the back of its bucket and
    the cursor of the caller comes down to that bucket if it was above. *)
Lemma push_inside w val s :
  length (data s) = N.to_nat (size s) →
  let index := u32 (I val (size s)) in
  index < size s →
  let c := push w val s in
  result c = Returned () ∧ accesses c = [index]
  ∧ size (after c) = size s
  ∧ length (data (after c)) = length (data s)
  ∧ (∀ w', cur w' (after c) =
       if decide (w' = w ∧ index < cur w s) then index else cur w' s)
  ∧ (∀ i, bucket i (after c) =
       if decide (i = index) then bucket i s ++ [val] else bucket i s).
Proof.
  intros Hl index Hi. unfold push. fold index.
  destruct (data s !! N.to_nat index) as [b|] eqn:Hb; last first.
  { apply lookup_ge_None_1 in Hb. lia. }
  assert (Hlt : (N.to_nat index < length (data s))%nat) by lia.
  cbv zeta. set (d := <[_ := _]> (data s)).
  change (cur w (set_data d s)) with (cur w s).
  assert (Hbk : ∀ i, bucket i (set_data d s) =
                  if decide (i = index) then bucket i s ++ [val] else bucket i s).
  { intros i. unfold d. rewrite bucket_set_data by done.
    case_decide; [|done]. subst i. unfold bucket at 1. by rewrite Hb. }
  assert (Hld : length d = length (data s)) by (unfold d; by rewrite length_insert).
  destruct (index <? cur w s) eqn:E; simpl.
  - apply N.ltb_lt in E. split_and!; try done.
    intros w'. rewrite cur_set_cur.
    destruct (decide (w' = w)) as [->|Hw].
    + by rewrite decide_True.
    + rewrite decide_False; [done | by intros [? _]].
  - apply N.ltb_ge in E. split_and!; try done.
    intros w'. rewrite decide_False; [done|]. intros [_ ?]. lia.
Qed.

Lemma push_outside w val s :
  length (data s) = N.to_nat (size s) →
  size s ≤ u32 (I val (size s)) →
  result (push w val s) = OutOfBounds (u32 (I val (size s))).
Proof.
  intros Hl Hi. unfold push. by rewrite lookup_ge_None_2 by lia.
Qed.

Lemma push_returned w val s :
  wf s → result (push w val s) = Returned () →
  wf (after (push w val s))
  ∧ (∀ w', cur w' (after (push w val s)) =
       if decide (w' = w ∧ u32 (I val (size s)) < cur w s)
       then u32 (I val (size s)) else cur w' s).
Proof.
  intros [Hl Hsz Hcur] Hr.
  destruct (decide (u32 (I val (size s)) < size s)) as [Hi|Hi].
  - destruct (push_inside w val s Hl Hi) as (_ & _ & Hs & Hd & Hc & _).
    split; [|done]. split.
    + by rewrite Hs, Hd.
    + by rewrite Hs.
    + intros w'. rewrite Hc, Hs. destruct (decide _); [lia | apply Hcur].
  - rewrite push_outside in Hr by (first [done|lia]). done.
Qed.

(** Calls that are not a [pop] of [w] nor a [push] of [w] below its cursor
    leave the cursor of [w] where it is. *)
Lemma between_cursor w ops s s' :
  between w ops s s' → wf s →
  wf s' ∧ cur w s' = cur w s ∧ size s' = size s.
Proof.
  induction 1 as [s|o ops s s1 s' Hk Hstep _ IH]; intros Hwf; [done|].
  assert (wf s1 ∧ cur w s1 = cur w s ∧ size s1 = size s) as (Hwf1 & Hc1 & Hs1).
  { destruct o as [w' val|w']; simpl in Hstep, Hk.
    - destruct (result (push w' val s)) as [[]| |] eqn:Hr; [|done..].
      injection Hstep as <-.
      destruct (push_returned w' val s Hwf Hr) as [Hwf' Hc].
      split_and!; [done | |].
      + rewrite Hc. destruct (decide _) as [Hd|]; [|done].
        destruct Hd as [-> Hlt]. specialize (Hk eq_refl). lia.
      + destruct (decide (u32 (I val (size s)) < size s)) as [Hi|Hi].
        * by destruct (push_inside w' val s (wf_length _ Hwf) Hi)
            as (_ & _ & Hs & _).
        * rewrite push_outside in Hr by (first [apply Hwf|lia]). done.
    - destruct (result (pop w' s)) as [r| |] eqn:Hr; [|done..].
      injection Hstep as <-.
      destruct (pop_returned w' s r Hwf Hr) as (Hwf' & _).
      destruct (pop_scan w' s Hwf) as ([F1 _ F3] & _).
      split_and!; [done | by apply F3 | done]. }
  destruct (IH Hwf1) as (Hwf' & Hc' & Hs'). split_and!; [done|..]; congruence.
Qed.

Lemma wf_create range : wf (create range).
Proof.
  split; simpl.
  - by rewrite length_replicate.
  - apply u32_lt.
  - intros w. unfold cur. simpl. unfold cpu_get, cpu_new. lia.
Qed.

(** When no bucket from [start] on holds an item, [pop] subscripts every
    index from [start] up to and including [size], one past the array,
    and the cursor is at [size] by then. *)
Lemma pop_all_empty w s :
  wf s → (∀ i, start w s ≤ i → bucket i s = []) →
  result (pop w s) = OutOfBounds (size s)
  ∧ accesses (pop w s) = upto (start w s) (size s)
  ∧ cur w (after (pop w s)) = size s.
Proof.
  intros Hwf Hemp. destruct (pop_scan w s Hwf) as (_ & Hacc & Hres).
  destruct Hres as [(j & x & Hj1 & Hj2 & _ & Hbj & _)|(_ & _ & Hr & Hc)].
  - rewrite Hemp in Hbj by done. done.
  - by rewrite Hacc, Hc.
Qed.

(** *** The worklist as one worker sees it *)

(** [sees w s bs c]: the buckets of [s] hold the items [bs], oldest first,
    and the cursor of worker [w] is [c]. *)
Definition sees (w : nat) (s : OrderedByIntegerMetric)
    (bs : list (list T)) (c : N) : Prop :=
  wf s ∧ length bs = N.to_nat (size s)
  ∧ (∀ i, bucket i s = default [] (bs !! N.to_nat i))
  ∧ cur w s = c.

(** The first bucket at or after [c] that holds an item, and that item;
    [j] is the index of the head of [bs]. *)
Fixpoint first_item (c j : N) (bs : list (list T)) : option (N * T) :=
  match bs with
  | [] => None
  | b :: bs' =>
      if j <? c then first_item c (j + 1) bs'
      else match b with
           | x :: _ => Some (j, x)
           | [] => first_item c (j + 1) bs'
           end
  end.

Lemma first_item_spec c bs : ∀ j k x,
  first_item c j bs = Some (k, x) →
  c ≤ k ∧ j ≤ k ∧ (∃ l, bs !! N.to_nat (k - j) = Some (x :: l))
  ∧ ∀ i, c ≤ i → j ≤ i → i < k → bs !! N.to_nat (i - j) = Some [].
Proof.
  induction bs as [|b bs IH]; intros j k x Hf; simpl in Hf; [done|].
  assert (Hrec : first_item c (j + 1) bs = Some (k, x) →
    c ≤ k ∧ j ≤ k ∧ (∃ l, (b :: bs) !! N.to_nat (k - j) = Some (x :: l))
    ∧ ∀ i, c ≤ i → j ≤ i → i < k → i ≠ j →
        (b :: bs) !! N.to_nat (i - j) = Some []).
  { intros Hf'. destruct (IH _ _ _ Hf') as (H1 & H2 & (l & H3) & H4).
    split_and!; [done | lia | |].
    - exists l. replace (N.to_nat (k - j)) with (S (N.to_nat (k - (j + 1)))) by lia.
      done.
    - intros i Hi1 Hi2 Hi3 Hi4.
      replace (N.to_nat (i - j)) with (S (N.to_nat (i - (j + 1)))) by lia.
      simpl. apply H4; lia. }
  destruct (j <? c) eqn:E.
  - apply N.ltb_lt in E. destruct (Hrec Hf) as (H1 & H2 & H3 & H4).
    split_and!; try done. intros i ? ? ?. apply H4; lia.
  - apply N.ltb_ge in E. destruct b as [|y l].
    + destruct (Hrec Hf) as (H1 & H2 & H3 & H4).
      split_and!; try done. intros i ? ? ?.
      destruct (decide (i = j)) as [->|]; [|by apply H4].
      by replace (N.to_nat (j - j)) with 0%nat by lia.
    + injection Hf as <- <-. split_and!; [done | lia | | intros; lia].
      exists l. by replace (N.to_nat (j - j)) with 0%nat by lia.
Qed.

Lemma sees_create w range :
  sees w (create range) (replicate (N.to_nat (u32 (range + 1))) []) 0.
Proof.
  split_and!; [apply wf_create | by rewrite length_replicate | | done].
  intros i. unfold bucket, create. simpl.
  destruct (decide (N.to_nat i < N.to_nat (u32 (range + 1)))%nat).
  - by rewrite !lookup_replicate_2.
  - by rewrite !lookup_ge_None_2 by (rewrite length_replicate; lia).
Qed.

Lemma sees_push w val s bs c :
  sees w s bs c →
  let index := u32 (I val (size s)) in
  index < size s →
  result (push w val s) = Returned ()
  ∧ sees w (after (push w val s))
      (alter (λ b, b ++ [val]) (N.to_nat index) bs)
      (if index <? c then index else c).
Proof.
  intros (Hwf & Hlen & Hbs & Hc) index Hi.
  destruct (push_inside w val s (wf_length _ Hwf) Hi)
    as (Hr & _ & Hs & Hd & Hcur & Hbk).
  split; [done|]. split_and!.
  - by apply push_returned.
  - by rewrite length_alter, Hs.
  - intros i. rewrite Hbk, Hbs. fold index.
    destruct (decide (i = index)) as [E|E].
    + rewrite E. rewrite list_lookup_alter_eq.
      destruct (bs !! N.to_nat index) eqn:Hb; [done|].
      apply lookup_ge_None_1 in Hb. lia.
    + rewrite list_lookup_alter_ne; [done | lia].
  - rewrite Hcur, Hc. fold index. destruct (N.ltb_spec index c).
    + by rewrite decide_True.
    + rewrite decide_False; [done | lia].
Qed.

Lemma wf_length_size w s bs c : sees w s bs c → size s = N.of_nat (length bs).
Proof. intros (_ & Hlen & _). lia. Qed.

(** [pop] when bucket [j] is the first from [start] on to hold an item. *)
Lemma pop_first w s j x l :
  wf s → start w s ≤ j → j < size s →
  (∀ i, start w s ≤ i → i < j → bucket i s = []) →
  bucket j s = x :: l →
  let c := pop w s in
  result c = Returned (true, x) ∧ cur w (after c) = j
  ∧ bucket j (after c) = l
  ∧ (∀ i, i ≠ j → bucket i (after c) = bucket i s)
  ∧ accesses c = upto (start w s) j
  ∧ wf (after c) ∧ size (after c) = size s.
Proof.
  intros Hwf Hj1 Hj2 Hemp Hbj c.
  destruct (pop_scan w s Hwf) as ([F1 _ _] & Hacc & Hres).
  fold c in Hacc, Hres, F1.
  destruct Hres as [(j' & x' & Hj1' & Hj2' & Hemp' & Hbj' & Hoth & Hr & Hc)
                   |(Hemp' & _)].
  - assert (j' = j) as ->.
    { destruct (N.lt_trichotomy j' j) as [Hlt|[->|Hlt]]; [|done|].
      - rewrite Hemp in Hbj' by done. done.
      - rewrite Hemp' in Hbj by done. done. }
    rewrite Hbj in Hbj'. injection Hbj' as <- <-.
    split_and!; try done.
    + by rewrite Hacc, Hc.
    + by eapply pop_returned.
  - rewrite Hemp' in Hbj by done. done.
Qed.

Lemma sees_pop w s bs c j x :
  sees w s bs c →
  first_item (if c =? N.of_nat (length bs) then 0 else c) 0 bs = Some (j, x) →
  result (pop w s) = Returned (true, x)
  ∧ sees w (after (pop w s)) (alter tail (N.to_nat j) bs) j.
Proof.
  intros (Hwf & Hlen & Hbs & Hc) Hf.
  assert (Hst : start w s = if c =? N.of_nat (length bs) then 0 else c).
  { unfold start. rewrite Hc, Hlen. by rewrite N2Nat.id. }
  rewrite <- Hst in Hf.
  destruct (first_item_spec _ _ _ _ _ Hf) as (H1 & _ & (l & H3) & H4).
  rewrite N.sub_0_r in H3.
  assert (Hjs : j < size s) by (apply lookup_lt_Some in H3; lia).
  destruct (pop_first w s j x l Hwf H1 Hjs) as (Hr & Hcj & Hbj & Hoth & _ & Hwf' & Hs').
  { intros i Hi1 Hi2. rewrite Hbs. rewrite <- (N.sub_0_r i).
    rewrite H4; [done | done | lia | done]. }
  { by rewrite Hbs, H3. }
  split; [done|]. split_and!; [done | by rewrite length_alter, Hs' | | done].
  intros i. destruct (decide (i = j)) as [->|Hi].
  - by rewrite Hbj, list_lookup_alter_eq, H3.
  - rewrite Hoth, Hbs by done. rewrite list_lookup_alter_ne; [done | lia].
Qed.

(** *** Seeding, emptiness and runs of calls *)

(** [fill_initial]: [push], by the calling worker, for every item of the
    range in turn; it ends where a [push] of it ends outside the array. *)
Fixpoint fill_initial (w : nat) (ii : list T) (s : OrderedByIntegerMetric) :
    call () :=
  match ii with
  | [] => Call [] (Returned ()) s
  | x :: ii =>
      let c := push w x s in
      match result c with
      | Returned _ =>
          let c' := fill_initial w ii (after c) in
          Call (accesses c ++ accesses c') (result c') (after c')
      | OutOfBounds i => Call (accesses c) (OutOfBounds i) (after c)
      | OutOfFuel => Call (accesses c) OutOfFuel (after c)
      end
  end.

(** A run of calls that all return. *)
Fixpoint run (ops : list op) (s : OrderedByIntegerMetric) :
    option OrderedByIntegerMetric :=
  match ops with
  | [] => Some s
  | o :: ops =>
      match step o s with
      | Some s' => run ops s'
      | None => None
      end
  end.

(** [o] is not a [push] of a worker other than [w]. *)
Definition pushes_by (w : nat) (o : op) : Prop :=
  match o with
  | Push w' _ => w' = w
  | Pop _ => True
  end.

(** [settled w s]: every item sits in the bucket the indexer names for it,
    and no bucket below the cursor of [w] holds an item. *)
Record settled (w : nat) (s : OrderedByIntegerMetric) : Prop := {
  settled_wf : wf s;
  settled_index i y : y ∈ bucket i s → u32 (I y (size s)) = i;
  settled_low i : i < cur w s → bucket i s = [];
}.

Lemma empty_true s : empty s = true ↔ ∀ i, bucket i s = [].
Proof.
  unfold empty, bucket. rewrite forallb_forall. split.
  - intros Hall i. destruct (data s !! N.to_nat i) as [b|] eqn:E; [|done].
    apply list_elem_of_lookup_2, list_elem_of_In in E.
    specialize (Hall _ E). simpl in *. by apply bool_decide_eq_true in Hall.
  - intros Hb b [k Hk]%list_elem_of_In%list_elem_of_lookup.
    specialize (Hb (N.of_nat k)). rewrite Nat2N.id, Hk in Hb. simpl in *.
    by apply bool_decide_eq_true.
Qed.

Lemma bucket_create range i : bucket i (create range) = [].
Proof.
  destruct (sees_create 0%nat range) as (_ & _ & Hb & _). rewrite Hb.
  destruct (replicate _ _ !! _) as [l|] eqn:E; [|done].
  by apply lookup_replicate in E as [-> _].
Qed.

Lemma settled_create w range : settled w (create range).
Proof.
  split; [apply wf_create | |].
  - intros i y. rewrite bucket_create. by intros ?%elem_of_nil.
  - intros i _. apply bucket_create.
Qed.

Lemma settled_push w val s :
  settled w s → result (push w val s) = Returned () →
  settled w (after (push w val s)).
Proof.
  intros [Hwf Hidx Hlow] Hr.
  destruct (decide (u32 (I val (size s)) < size s)) as [Hi|Hi]; last first.
  { rewrite push_outside in Hr by (first [apply Hwf | lia]). done. }
  destruct (push_inside w val s (wf_length _ Hwf) Hi)
    as (_ & _ & Hs & _ & Hc & Hb).
  split.
  - by apply push_returned.
  - intros i y. rewrite Hb, Hs.
    destruct (decide (i = u32 (I val (size s)))) as [->|E]; [|by apply Hidx].
    intros [Hy| ->%list_elem_of_singleton]%elem_of_app; [by apply Hidx | done].
  - intros i. rewrite Hc, Hb. intros Hlt.
    destruct (decide (w = w ∧ u32 (I val (size s)) < cur w s)) as [[_ Hd]|Hd].
    + rewrite decide_False by lia. apply Hlow. lia.
    + rewrite decide_False by (intros ->; apply Hd; split; [done|lia]).
      by apply Hlow.
Qed.

Lemma settled_pop w w' s r :
  settled w s → result (pop w' s) = Returned r →
  settled w (after (pop w' s)).
Proof.
  intros [Hwf Hidx Hlow] Hr.
  destruct (pop_returned w' s r Hwf Hr) as (Hwf' & _).
  destruct (pop_scan w' s Hwf) as ([F1 _ F3] & _ & Hres).
  destruct Hres as [(j & x & Hj1 & Hj2 & Hemp & Hbj & Hoth & _ & Hcj)
                   |(_ & _ & Hr' & _)]; [|congruence].
  assert (Hsub : ∀ i y, y ∈ bucket i (after (pop w' s)) → y ∈ bucket i s).
  { intros i y. destruct (decide (i = j)) as [->|Hij].
    - rewrite Hbj. by right.
    - by rewrite Hoth. }
  split; [done | |].
  - intros i y Hy. rewrite F1. by apply Hidx, Hsub.
  - intros i Hlt. destruct (decide (w' = w)) as [->|Hw].
    + rewrite Hcj in Hlt. rewrite Hoth by lia.
      destruct (decide (start w s ≤ i)) as [Hle|Hle]; [by apply Hemp|].
      apply Hlow. unfold start in Hle.
      destruct (cur w s =? size s); lia.
    + rewrite F3 in Hlt by done.
      destruct (bucket i (after (pop w' s))) as [|y l] eqn:E; [done|].
      assert (Hy : y ∈ bucket i s) by (apply Hsub; rewrite E; by left).
      rewrite Hlow in Hy by done. by apply elem_of_nil in Hy.
Qed.

Lemma run_settled w ops : ∀ s s',
  settled w s → Forall (pushes_by w) ops → run ops s = Some s' →
  settled w s'.
Proof.
  induction ops as [|o ops IH]; intros s s' Hs Hall Hr; simpl in Hr.
  { by injection Hr as <-. }
  apply Forall_cons in Hall as [Ho Hall].
  destruct (step o s) as [s1|] eqn:Hstep; [|done].
  apply (IH s1); [|done..].
  destruct o as [w' val|w']; simpl in Hstep, Ho.
  - subst w'. destruct (result (push w val s)) as [[]| |] eqn:E; [|done..].
    injection Hstep as <-. by apply settled_push.
  - destruct (result (pop w' s)) as [r| |] eqn:E; [|done..].
    injection Hstep as <-. by eapply settled_pop.
Qed.

(** With no item below its cursor, the worker gets from [pop] the oldest
    item of the first bucket of the whole array that holds one. *)
Lemma settled_pop_least w s r :
  settled w s → result (pop w s) = Returned r →
  r.1 = true
  ∧ (∃ l, bucket (u32 (I r.2 (size s))) s = r.2 :: l)
  ∧ ∀ i y, y ∈ bucket i s → u32 (I r.2 (size s)) ≤ u32 (I y (size s)).
Proof.
  intros [Hwf Hidx Hlow] Hr.
  destruct (pop_scan w s Hwf) as (_ & _ & Hres).
  destruct Hres as [(j & x & Hj1 & Hj2 & Hemp & Hbj & _ & Hr' & _)
                   |(_ & _ & Hr' & _)]; [|congruence].
  rewrite Hr' in Hr. injection Hr as <-. simpl.
  assert (Hx : u32 (I x (size s)) = j) by (apply Hidx; rewrite Hbj; by left).
  split; [done|]. split; [rewrite Hx; eauto|].
  intros i y Hy. rewrite Hx, (Hidx i y Hy).
  destruct (decide (j ≤ i)) as [|Hlt]; [done|]. exfalso.
  assert (Hnil : bucket i s = []).
  { destruct (decide (start w s ≤ i)) as [Hle|Hle]; [apply Hemp; lia|].
    apply Hlow. unfold start in Hle. destruct (cur w s =? size s); lia. }
  rewrite Hnil in Hy. by apply elem_of_nil in Hy.
Qed.

(** With no item below its cursor, [pop] returns an item exactly when
    [empty] answers [false]. *)
Lemma settled_pop_empty w s :
  settled w s →
  (empty s = false → ∃ x, result (pop w s) = Returned (true, x))
  ∧ (empty s = true → result (pop w s) = OutOfBounds (size s)).
Proof.
  intros [Hwf Hidx Hlow]. split.
  - intros He. destruct (pop_scan w s Hwf) as (_ & _ & Hres).
    destruct Hres as [(j & x & _ & _ & _ & _ & _ & Hr & _)
                     |(Hemp & _)]; [by eauto|].
    assert (empty s = true); [|congruence].
    apply empty_true. intros i.
    destruct (decide (start w s ≤ i)) as [Hle|Hle]; [by apply Hemp|].
    apply Hlow. unfold start in Hle. destruct (cur w s =? size s); lia.
  - intros He. apply pop_all_empty; [done|].
    intros i _. by apply empty_true.
Qed.

(** [fill_initial] over items that all index inside the array. *)
Lemma fill_initial_inside w ii : ∀ s,
  wf s → Forall (λ v, u32 (I v (size s)) < size s) ii →
  let c := fill_initial w ii s in
  result c = Returned ()
  ∧ accesses c = (λ v, u32 (I v (size s))) <$> ii
  ∧ wf (after c) ∧ size (after c) = size s
  ∧ (∀ i, bucket i (after c)
          = bucket i s ++ filter (λ v, u32 (I v (size s)) = i) ii)
  ∧ cur w (after c)
    = foldl N.min (cur w s) ((λ v, u32 (I v (size s))) <$> ii)
  ∧ (∀ w', w' ≠ w → cur w' (after c) = cur w' s).
Proof.
  induction ii as [|x ii IH]; intros s Hwf Hall; simpl.
  - split_and!; try done. intros i. by rewrite app_nil_r.
  - apply Forall_cons in Hall as [Hx Hall].
    destruct (push_inside w x s (wf_length _ Hwf) Hx)
      as (Hr & Hacc & Hs & _ & Hc & Hb).
    destruct (push_returned w x s Hwf Hr) as [Hwf1 _].
    rewrite Hr. cbn [accesses result after].
    destruct (IH (after (push w x s)) Hwf1) as (Hr' & Hacc' & Hwf' & Hs' & Hb' & Hc' & Ho').
    { by rewrite Hs. }
    rewrite Hs in *. split_and!; try done.
    + by rewrite Hacc, Hacc'.
    + intros i. rewrite Hb', Hb, filter_cons.
      destruct (decide (i = u32 (I x (size s)))) as [->|Hne].
      * rewrite decide_True by done. by rewrite <- (assoc_L (++)).
      * by rewrite decide_False by done.
    + rewrite Hc', Hc. f_equal.
      destruct (decide (w = w ∧ u32 (I x (size s)) < cur w s)) as [[_ ?]|Hd];
        [lia|].
      assert (cur w s ≤ u32 (I x (size s))) by (apply N.le_ngt; intros ?; apply Hd; by split).
      lia.
    + intros w' Hw. rewrite Ho', Hc by done.
      rewrite decide_False; [done | by intros [? _]].
Qed.

(** *** One worker: the items come back in index order *)

(** [n] calls of [pop] by [w] in a row that all return, and what they
    returned, the first call first. *)
Fixpoint pop_n (n : nat) (w : nat) (s : OrderedByIntegerMetric) :
    option (list (bool * T)) :=
  match n with
  | O => Some []
  | S n =>
      let c := pop w s in
      match result c with
      | Returned r => (r ::.) <$> pop_n n w (after c)
      | _ => None
      end
  end.

(** The items [vs] by ascending index, items of equal index in the order
    they have in [vs]. *)
Definition by_index (size : N) (vs : list T) : list T :=
  concat ((λ k, filter (λ v, u32 (I v size) = N.of_nat k) vs)
            <$> seq 0 (N.to_nat size)).

(** When the lists before position [c] are empty, the first item of the
    concatenation is the first item from [c] on. *)
Lemma first_item_concat x rest : ∀ bs j0 c,
  (∀ i l, j0 + N.of_nat i < c → bs !! i = Some l → l = []) →
  concat bs = x :: rest →
  ∃ k : nat,
    first_item c j0 bs = Some (j0 + N.of_nat k, x)
    ∧ concat (alter tail k bs) = rest
    ∧ (∀ i l, (i < k)%nat → bs !! i = Some l → l = []).
Proof.
  induction bs as [|b bs IH]; intros j0 c Hlow Hc; [done|].
  assert (Hrec : b = [] →
    ∃ k : nat,
      first_item c (j0 + 1) bs = Some (j0 + N.of_nat k, x)
      ∧ concat (alter tail k (b :: bs)) = rest
      ∧ (∀ i l, (i < k)%nat → (b :: bs) !! i = Some l → l = [])).
  { intros ->. simpl in Hc.
    destruct (IH (j0 + 1) c) as (k & Hf & Hcat & Hbefore); [|done|].
    { intros i l Hi Hl. apply (Hlow (S i)); [lia | done]. }
    exists (S k). split_and!.
    - rewrite Hf. do 2 f_equal. lia.
    - done.
    - intros [|i] l Hi Hl; simpl in Hl; [congruence|].
      apply (Hbefore i); [lia | done]. }
  simpl. destruct (j0 <? c) eqn:E.
  - apply N.ltb_lt in E. apply Hrec. apply (Hlow 0%nat); [lia | done].
  - destruct b as [|y b]; [by apply Hrec|].
    simpl in Hc. injection Hc as -> <-. exists 0%nat. split_and!.
    + by rewrite N.add_0_r.
    + done.
    + intros i l Hi. lia.
Qed.

(** A worker that sees no item before its cursor pops all the items,
    bucket by bucket and each bucket oldest item first. *)
Lemma sees_drain w n : ∀ s bs c,
  sees w s bs c →
  (∀ i l, N.of_nat i < c → bs !! i = Some l → l = []) →
  length (concat bs) = n →
  pop_n n w s = Some ((λ x, (true, x)) <$> concat bs).
Proof.
  induction n as [|n IH]; intros s bs c Hs Hlow Hlen.
  - by rewrite (nil_length_inv _ Hlen).
  - destruct (concat bs) as [|x rest] eqn:Hc; [done|].
    destruct (first_item_concat x rest bs 0
                (if c =? N.of_nat (length bs) then 0 else c))
      as (k & Hf & Hcat & Hbefore); [|done|].
    { intros i l Hi. destruct (c =? N.of_nat (length bs)); [lia|].
      apply Hlow. lia. }
    rewrite N.add_0_l in Hf.
    destruct (sees_pop w s bs c (N.of_nat k) x Hs Hf) as [Hr Hs'].
    rewrite Nat2N.id in Hs'. simpl. rewrite Hr.
    rewrite (IH _ (alter tail k bs) (N.of_nat k) Hs'); [by rewrite Hcat | |].
    + intros i l Hi. rewrite list_lookup_alter_ne by lia. apply Hbefore. lia.
    + rewrite Hcat. simpl in Hlen. lia.
Qed.

Lemma filter_index_split (size : N) (n : nat) (vs : list T) :
  length (filter (λ v, u32 (I v size) < N.of_nat (S n)) vs)
  = (length (filter (λ v, (u32 (I v size) < N.of_nat n)%N) vs)
     + length (filter (λ v, u32 (I v size) = N.of_nat n) vs))%nat.
Proof.
  induction vs as [|v vs IH]; [done|]. rewrite !filter_cons.
  destruct (decide (u32 (I v size) < N.of_nat (S n)));
    destruct (decide (u32 (I v size) < N.of_nat n));
    destruct (decide (u32 (I v size) = N.of_nat n)); simpl; lia.
Qed.

Lemma length_by_index (size : N) (vs : list T) :
  Forall (λ v, u32 (I v size) < size) vs →
  length (by_index size vs) = length vs.
Proof.
  intros Hall. unfold by_index.
  assert (Hn : ∀ n : nat,
    length (concat ((λ k, filter (λ v, u32 (I v size) = N.of_nat k) vs)
                      <$> seq 0 n))
    = length (filter (λ v, u32 (I v size) < N.of_nat n) vs)).
  { induction n as [|n IHn].
    - simpl. clear Hall. induction vs as [|v vs IHvs]; [done|].
      rewrite filter_cons. destruct (decide _); [lia | done].
    - rewrite seq_S, fmap_app, concat_app, length_app, IHn, filter_index_split.
      simpl. by rewrite app_nil_r. }
  rewrite Hn, N2Nat.id. clear Hn.
  induction Hall as [|v vs Hv _ IH]; [done|].
  rewrite filter_cons, decide_True by done. simpl. by rewrite IH.
Qed.

(** After [fill_initial] of items that all index inside the array, on a
    fresh worklist, the caller sees the items by bucket and its cursor is
    at 0. *)
Lemma sees_fill_initial w range vs :
  Forall (λ v, u32 (I v (u32 (range + 1))) < u32 (range + 1)) vs →
  let c := fill_initial w vs (create range) in
  result c = Returned ()
  ∧ sees w (after c)
      ((λ k, filter (λ v, u32 (I v (u32 (range + 1))) = N.of_nat k) vs)
         <$> seq 0 (N.to_nat (u32 (range + 1)))) 0.
Proof.
  intros Hall c.
  destruct (fill_initial_inside w vs (create range) (wf_create range) Hall)
    as (Hr & _ & Hwf & Hs & Hb & Hc & _).
  fold c in Hr, Hwf, Hs, Hb, Hc. change (size (create range)) with
    (u32 (range + 1)) in *.
  split; [done|]. split_and!.
  - done.
  - by rewrite length_fmap, length_seq, Hs.
  - intros i. rewrite Hb, bucket_create. simpl. rewrite list_lookup_fmap.
    destruct (decide (i < u32 (range + 1))) as [Hi|Hi].
    + rewrite lookup_seq_lt by lia. simpl. by rewrite N2Nat.id.
    + rewrite lookup_seq_ge by lia. simpl.
      clear -Hall Hi. induction Hall as [|v vs Hv _ IH]; [done|].
      rewrite filter_cons, decide_False by lia. done.
  - rewrite Hc. change (cur w (create range)) with 0.
    generalize ((λ v, u32 (I v (u32 (range + 1)))) <$> vs). clear.
    intros l. induction l as [|x l IH]; [done|]. simpl.
    by rewrite N.min_0_l.
Qed.

End OrderedByIntegerMetric.

Arguments OrderedByIntegerMetric T : clear implicits.
Arguments call T A : clear implicits.
Arguments Call {T A} _ _ _.
Arguments accesses {T A} _.
Arguments result {T A} _.
Arguments after {T A} _.

(** *** The properties of the specification *)

(** C3: with [range = 3] and the indexer [I(v) = v], a worker that pushes
    2, 0 and 1 in that order and then pops three times gets 0, then 1,
    then 2. *)
Theorem obim_priority_order (w : nat) :
  let I := λ (v : N) (_ : N), v in
  let s1 := after (push 0 I w 2 (create 0 3)) in
  let s2 := after (push 0 I w 0 s1) in
  let s3 := after (push 0 I w 1 s2) in
  let p1 := pop 0 w s3 in
  let p2 := pop 0 w (after p1) in
  let p3 := pop 0 w (after p2) in
  result p1 = Returned (true, 0)
  ∧ result p2 = Returned (true, 1)
  ∧ result p3 = Returned (true, 2).
Proof.
  intros I s1 s2 s3 p1 p2 p3.
  pose proof (sees_create 0 w 3) as H0.
  destruct (sees_push 0 I w 2 _ _ _ H0) as [_ H1]; [done|]. fold s1 in H1.
  destruct (sees_push 0 I w 0 _ _ _ H1) as [_ H2].
  { by rewrite (wf_length_size _ _ _ _ H1). }
  fold s2 in H2.
  destruct (sees_push 0 I w 1 _ _ _ H2) as [_ H3].
  { by rewrite (wf_length_size _ _ _ _ H2). }
  fold s3 in H3.
  destruct (sees_pop 0 w _ _ _ 0 0 H3) as [R1 H4]; [done|]. fold p1 in R1, H4.
  destruct (sees_pop 0 w _ _ _ 1 1 H4) as [R2 H5]; [done|]. fold p2 in R2, H5.
  destruct (sees_pop 0 w _ _ _ 2 2 H5) as [R3 _]; [done|].
  done.
Qed.

(** C4: a [pop] starts from the cursor, or from 0 when the cursor stands
    at [range+1]; if a bucket from there on holds an item, it returns the
    oldest item of the first such bucket and leaves the cursor on that
    bucket; if none does, the cursor ends at [range+1] (and the call has
    subscripted [data[range+1]]); and between two consecutive [pop]s of a
    worker that both return, with no [push] of that worker to a bucket
    below its cursor in between, its cursor does not decrease. *)
Theorem obim_cursor_monotone {T} (T_init : T) (I : T → N → N) (w : nat) :
  (∀ s : OrderedByIntegerMetric T,
     start w s = if cur w s =? size s then 0 else cur w s)
  ∧ (∀ s j x l,
       wf s → start w s ≤ j → j < size s →
       (∀ i, start w s ≤ i → i < j → bucket i s = []) →
       bucket j s = x :: l →
       let c := pop T_init w s in
       result c = Returned (true, x) ∧ cur w (after c) = j
       ∧ bucket j (after c) = l ∧ accesses c = upto (start w s) j)
  ∧ (∀ s,
       wf s → (∀ i, start w s ≤ i → bucket i s = []) →
       let c := pop T_init w s in
       result c = OutOfBounds (size s) ∧ cur w (after c) = size s)
  ∧ (∀ s0 r0 ops s1 r1,
       wf s0 →
       result (pop T_init w s0) = Returned r0 →
       between T_init I w ops (after (pop T_init w s0)) s1 →
       result (pop T_init w s1) = Returned r1 →
       cur w s1 = cur w (after (pop T_init w s0))
       ∧ cur w s1 ≤ cur w (after (pop T_init w s1))).
Proof.
  split_and!.
  - done.
  - intros s j x l Hwf Hj1 Hj2 Hemp Hbj c.
    by destruct (pop_first T_init w s j x l Hwf Hj1 Hj2 Hemp Hbj)
      as (? & ? & ? & _ & ? & _).
  - intros s Hwf Hemp c.
    by destruct (pop_all_empty T_init w s Hwf Hemp) as (? & _ & ?).
  - intros s0 r0 ops s1 r1 Hwf Hr0 Hbt Hr1.
    destruct (pop_returned T_init w s0 r0 Hwf Hr0) as (Hwf0 & _ & _ & Hlt).
    destruct (between_cursor T_init I w ops _ _ Hbt Hwf0) as (Hwf1 & Hc1 & Hs1).
    destruct (pop_returned T_init w s1 r1 Hwf1 Hr1) as (_ & _ & Hst & _).
    split; [done|].
    destruct (pop_scan T_init w s0 Hwf) as ([F1 _ _] & _).
    unfold start in Hst. rewrite Hc1, Hs1, F1 in *.
    destruct (N.eqb_spec (cur w (after (pop T_init w s0))) (size s0)); [lia|done].
Qed.

(** The run behind [obim_cursor_monotone_witness]: buckets 0..3, worker 0
    has pushed 2 and 1; it pops, pushes 3, worker 1 pushes 0, and worker 0
    pops again. *)
Definition sample_state : OrderedByIntegerMetric N :=
  after (push 0 (λ v _, v) 0%nat 1
    (after (push 0 (λ v _, v) 0%nat 2 (create 0 3)))).

Definition sample_calls : list (op (T := N)) := [Push 0%nat 3; Push 1%nat 0].

Lemma sample_state_wf : wf sample_state.
Proof.
  unfold sample_state.
  eapply push_returned; [|done]. eapply push_returned; [|done].
  apply wf_create.
Qed.

Definition sample_later : OrderedByIntegerMetric N :=
  after (push 0 (λ v _, v) 1%nat 0
    (after (push 0 (λ v _, v) 0%nat 3 (after (pop 0 0%nat sample_state))))).

Lemma obim_cursor_monotone_witness :
  let I := λ (v : N) (_ : N), v in
  let p0 := pop 0 0%nat sample_state in
  let s1 := sample_later in
  wf sample_state
  ∧ result p0 = Returned (true, 1)
  ∧ between 0 I 0%nat sample_calls (after p0) s1
  ∧ result (pop 0 0%nat s1) = Returned (true, 2)
  ∧ cur 0%nat s1 = cur 0%nat (after p0)
  ∧ cur 0%nat s1 ≤ cur 0%nat (after (pop 0 0%nat s1)).
Proof.
  intros I p0 s1.
  assert (Hb : between 0 I 0%nat sample_calls (after p0) s1).
  { unfold sample_calls.
    eapply between_cons; [by vm_compute | by vm_compute |].
    eapply between_cons; [by vm_compute | by vm_compute |].
    apply between_nil. }
  assert (Hr0 : result p0 = Returned (true, 1)) by (by vm_compute).
  assert (Hr1 : result (pop 0 0%nat s1) = Returned (true, 2)) by (by vm_compute).
  split_and!; [apply sample_state_wf | exact Hr0 | exact Hb | exact Hr1 | |].
  - eapply (obim_cursor_monotone 0 I 0%nat);
      [apply sample_state_wf | exact Hr0 | exact Hb | exact Hr1].
  - eapply (obim_cursor_monotone 0 I 0%nat);
      [apply sample_state_wf | exact Hr0 | exact Hb | exact Hr1].
Defined.

(** C8 fails on the code: on a freshly constructed worklist with
    [range = 0] (one bucket, nothing in it) [pop] subscripts [data[0]] and
    then [data[1]], and 1 is [range+1], the length of the array. *)
Theorem obim_pop_subscripts_past_end (w : nat) :
  let s := create (T := N) 0 0 in
  let c := pop 0 w s in
  size s = 1 ∧ length (data s) = 1%nat
  ∧ accesses c = [0; 1] ∧ result c = OutOfBounds 1.
Proof.
  intros s c. split_and!; [done | done | |].
  - apply (pop_all_empty 0 w s).
    + apply wf_create.
    + intros i _. destruct (sees_create 0 w 0) as (_ & _ & Hb & _).
      rewrite Hb. by destruct (N.to_nat i) as [|[|?]].
  - apply (pop_all_empty 0 w s).
    + apply wf_create.
    + intros i _. destruct (sees_create 0 w 0) as (_ & _ & Hb & _).
      rewrite Hb. by destruct (N.to_nat i) as [|[|?]].
Qed.

(** *** Bounds, seeding and order of service *)

(** [push] subscripts [data[I(val, size)]] unchecked.  When the indexer
    names a bucket of the array, the item goes to the back of that bucket,
    no other bucket changes, the cursor of the caller becomes the smaller
    of itself and that index, and no other cursor moves.  When it does not,
    the call ends on that subscript, outside the array, with nothing
    changed. *)
Theorem obim_push_bounds {T} (T_init : T) (I : T → N → N) (w : nat)
    (val : T) (s : OrderedByIntegerMetric T) :
  wf s →
  let index := u32 (I val (size s)) in
  let c := push T_init I w val s in
  accesses c = [index]
  ∧ (index < size s →
     result c = Returned ()
     ∧ bucket index (after c) = bucket index s ++ [val]
     ∧ (∀ i, i ≠ index → bucket i (after c) = bucket i s)
     ∧ cur w (after c) = N.min (cur w s) index
     ∧ ∀ w', w' ≠ w → cur w' (after c) = cur w' s)
  ∧ (size s ≤ index → result c = OutOfBounds index ∧ after c = s).
Proof.
  intros Hwf index c. split_and!.
  - unfold c, push. fold index. by destruct (data s !! N.to_nat index).
  - intros Hi.
    destruct (push_inside T_init I w val s (wf_length _ Hwf) Hi)
      as (Hr & _ & _ & _ & Hc & Hb).
    fold index in Hc, Hb. fold c in Hr, Hc, Hb. split_and!; [done | | | |].
    + by rewrite Hb, decide_True.
    + intros i Hne. by rewrite Hb, decide_False.
    + rewrite Hc. destruct (decide (w = w ∧ index < cur w s)) as [[_ ?]|Hd];
        [lia|].
      assert (cur w s ≤ index) by (apply N.le_ngt; intros ?; by apply Hd).
      lia.
    + intros w' Hw. rewrite Hc, decide_False; [done | by intros [? _]].
  - intros Hi. unfold c, push. fold index.
    rewrite lookup_ge_None_2; [done|]. rewrite (wf_length _ Hwf). lia.
Qed.

Lemma obim_push_bounds_witness :
  let I := λ (v : N) (_ : N), v in
  let s := create 0 3 in
  wf s
  ∧ accesses (push 0 I 0%nat 2 s) = [2]
  ∧ (2 < size s →
     result (push 0 I 0%nat 2 s) = Returned ()
     ∧ bucket 2 (after (push 0 I 0%nat 2 s)) = bucket 2 s ++ [2]
     ∧ (∀ i, i ≠ 2 → bucket i (after (push 0 I 0%nat 2 s)) = bucket i s)
     ∧ cur 0%nat (after (push 0 I 0%nat 2 s)) = N.min (cur 0%nat s) 2
     ∧ ∀ w', w' ≠ 0%nat → cur w' (after (push 0 I 0%nat 2 s)) = cur w' s)
  ∧ (size s ≤ 2 →
     result (push 0 I 0%nat 2 s) = OutOfBounds 2
     ∧ after (push 0 I 0%nat 2 s) = s).
Proof.
  intros I s. split; [apply wf_create|].
  exact (obim_push_bounds 0 I 0%nat 2 s (wf_create 0 3)).
Defined.

(** [fill_initial] over items that the indexer all sends inside the array
    returns, having subscripted their buckets in turn; every bucket then
    holds what it held followed by the items of the range that belong to
    it, in the order of the range; the cursor of the caller is the
    smallest of itself and the indices of the items, and no other cursor
    has moved. *)
Theorem obim_fill_initial_buckets {T} (T_init : T) (I : T → N → N)
    (w : nat) (ii : list T) (s : OrderedByIntegerMetric T) :
  wf s → Forall (λ v, u32 (I v (size s)) < size s) ii →
  let c := fill_initial T_init I w ii s in
  result c = Returned ()
  ∧ accesses c = (λ v, u32 (I v (size s))) <$> ii
  ∧ (∀ i, bucket i (after c)
          = bucket i s ++ filter (λ v, u32 (I v (size s)) = i) ii)
  ∧ cur w (after c)
    = foldl N.min (cur w s) ((λ v, u32 (I v (size s))) <$> ii)
  ∧ (∀ w', w' ≠ w → cur w' (after c) = cur w' s).
Proof.
  intros Hwf Hall c.
  by destruct (fill_initial_inside T_init I w ii s Hwf Hall)
    as (? & ? & _ & _ & ? & ? & ?).
Qed.

Lemma obim_fill_initial_buckets_witness :
  let I := λ (v : N) (_ : N), v in
  let s := create 0 3 in
  let c := fill_initial 0 I 1%nat [2; 0; 2; 1] s in
  wf s ∧ Forall (λ v, u32 (I v (size s)) < size s) [2; 0; 2; 1]
  ∧ result c = Returned ()
  ∧ accesses c = (λ v, u32 (I v (size s))) <$> [2; 0; 2; 1]
  ∧ (∀ i, bucket i (after c)
          = bucket i s ++ filter (λ v, u32 (I v (size s)) = i) [2; 0; 2; 1])
  ∧ cur 1%nat (after c)
    = foldl N.min (cur 1%nat s) ((λ v, u32 (I v (size s))) <$> [2; 0; 2; 1])
  ∧ (∀ w', w' ≠ 1%nat → cur w' (after c) = cur w' s).
Proof.
  intros I s c.
  assert (Hall : Forall (λ v, u32 (I v (size s)) < size s) [2; 0; 2; 1])
    by (repeat constructor).
  split; [apply wf_create|]. split; [exact Hall|].
  exact (obim_fill_initial_buckets 0 I 1%nat [2; 0; 2; 1] s (wf_create 0 3) Hall).
Defined.

(** When only one worker pushes (others may pop), every [pop] of that
    worker that returns hands out an item of least index among all the
    items the worklist holds, the oldest one of its bucket: in a run of
    returning calls from the constructor in which every [push] is made by
    [w], a [pop] of [w] returns [true] with the item at the head of its
    bucket, and no item in any bucket has a smaller index. *)
Theorem obim_single_pusher_pop_least {T} (T_init : T) (I : T → N → N)
    (range : N) (w : nat) (ops : list op) (s : OrderedByIntegerMetric T)
    (r : bool * T) :
  Forall (pushes_by w) ops →
  run T_init I ops (create T_init range) = Some s →
  result (pop T_init w s) = Returned r →
  r.1 = true
  ∧ (∃ l, bucket (u32 (I r.2 (size s))) s = r.2 :: l)
  ∧ ∀ i y, y ∈ bucket i s → u32 (I r.2 (size s)) ≤ u32 (I y (size s)).
Proof.
  intros Hall Hrun Hr.
  apply (settled_pop_least T_init I w s r); [|done].
  apply (run_settled T_init I w ops (create T_init range)); [|done..].
  apply settled_create.
Qed.

Lemma obim_single_pusher_pop_least_witness :
  let I := λ (v : N) (_ : N), v in
  let ops := [Push 0%nat 3; Push 0%nat 1; Pop 1%nat; Push 0%nat 2;
              Push 0%nat 2] in
  Forall (pushes_by 0%nat) ops
  ∧ ∃ s r,
      run 0 I ops (create 0 3) = Some s
      ∧ result (pop 0 0%nat s) = Returned r
      ∧ r.1 = true
      ∧ (∃ l, bucket (u32 (I r.2 (size s))) s = r.2 :: l)
      ∧ ∀ i y, y ∈ bucket i s → u32 (I r.2 (size s)) ≤ u32 (I y (size s)).
Proof.
  intros I ops.
  assert (Hall : Forall (pushes_by 0%nat) ops) by (repeat constructor).
  split; [exact Hall|].
  destruct (run 0 I ops (create 0 3)) as [s|] eqn:Hrun;
    [|by vm_compute in Hrun].
  destruct (result (pop 0 0%nat s)) as [r| |] eqn:Hr;
    [|vm_compute in Hrun; injection Hrun as <-; by vm_compute in Hr..].
  exists s, r. split; [reflexivity|]. split; [exact Hr|].
  exact (obim_single_pusher_pop_least 0 I 3 0%nat ops s r Hall Hrun Hr).
Defined.

(** When only one worker pushes, its [pop] and [empty] agree: in a run of
    returning calls from the constructor in which every [push] is made by
    [w], a [pop] of [w] returns an item if [empty] answers [false], and
    runs off the end of the array, to [data[size]], if [empty] answers
    [true]; it never returns [false]. *)
Theorem obim_single_pusher_pop_iff_nonempty {T} (T_init : T)
    (I : T → N → N) (range : N) (w : nat) (ops : list op)
    (s : OrderedByIntegerMetric T) :
  Forall (pushes_by w) ops →
  run T_init I ops (create T_init range) = Some s →
  (empty T_init s = false → ∃ x, result (pop T_init w s) = Returned (true, x))
  ∧ (empty T_init s = true → result (pop T_init w s) = OutOfBounds (size s)).
Proof.
  intros Hall Hrun. apply (settled_pop_empty T_init I).
  apply (run_settled T_init I w ops (create T_init range)); [|done..].
  apply settled_create.
Qed.

Lemma obim_single_pusher_pop_iff_nonempty_witness :
  let I := λ (v : N) (_ : N), v in
  let ops := [Push 0%nat 3; Pop 1%nat; Push 0%nat 1; Pop 0%nat] in
  Forall (pushes_by 0%nat) ops
  ∧ ∃ s,
      run 0 I ops (create 0 3) = Some s
      ∧ (empty 0 s = false → ∃ x, result (pop 0 0%nat s) = Returned (true, x))
      ∧ (empty 0 s = true → result (pop 0 0%nat s) = OutOfBounds (size s)).
Proof.
  intros I ops.
  assert (Hall : Forall (pushes_by 0%nat) ops) by (repeat constructor).
  split; [exact Hall|].
  destruct (run 0 I ops (create 0 3)) as [s|] eqn:Hrun;
    [|by vm_compute in Hrun].
  exists s. split; [reflexivity|].
  exact (obim_single_pusher_pop_iff_nonempty 0 I 3 0%nat ops s Hall Hrun).
Defined.

(** A [push] of another worker below the cursor of [w] is not seen by the
    next [pop] of [w]: with the cursor of [w] inside the array and [val]
    pushed by [w'] to a bucket below it, the [pop] of [w] returns the
    oldest item of the first bucket from its cursor on that holds one, an
    item of larger index than [val], which stays behind; and when no
    bucket from its cursor on holds an item, the [pop] of [w] runs off the
    end of the array although [empty] answers [false]. *)
Theorem obim_pop_misses_lower_push {T} (T_init : T) (I : T → N → N)
    (w w' : nat) (val : T) (s : OrderedByIntegerMetric T) :
  wf s → w' ≠ w →
  let index := u32 (I val (size s)) in
  let s1 := after (push T_init I w' val s) in
  index < cur w s → cur w s < size s →
  val ∈ bucket index s1
  ∧ (∀ j x l,
       cur w s ≤ j → j < size s →
       (∀ i, cur w s ≤ i → i < j → bucket i s = []) →
       bucket j s = x :: l →
       result (pop T_init w s1) = Returned (true, x)
       ∧ index < j
       ∧ val ∈ bucket index (after (pop T_init w s1)))
  ∧ ((∀ i, cur w s ≤ i → bucket i s = []) →
     empty T_init s1 = false
     ∧ result (pop T_init w s1) = OutOfBounds (size s)).
Proof.
  intros Hwf Hw index s1 Hlt Hin.
  assert (Hi : index < size s) by lia.
  destruct (push_inside T_init I w' val s (wf_length _ Hwf) Hi)
    as (Hr & _ & Hs & _ & Hc & Hb).
  fold index in Hc, Hb. fold s1 in Hs, Hc, Hb.
  destruct (push_returned T_init I w' val s Hwf Hr) as [Hwf1 _]. fold s1 in Hwf1.
  assert (Hcw : cur w s1 = cur w s).
  { rewrite Hc, decide_False; [done|]. intros [? _]. by apply Hw. }
  assert (Hst : start w s1 = cur w s).
  { unfold start. rewrite Hcw, Hs.
    destruct (N.eqb_spec (cur w s) (size s)); [lia | done]. }
  assert (Hval : val ∈ bucket index s1).
  { rewrite Hb, decide_True by done. apply elem_of_app. right. by left. }
  assert (Hup : ∀ i, cur w s ≤ i → bucket i s1 = bucket i s).
  { intros i Hle. rewrite Hb, decide_False; [done | lia]. }
  split_and!; [done | |].
  - intros j x l Hj1 Hj2 Hemp Hbj.
    destruct (pop_first T_init w s1 j x l Hwf1) as (Hr1 & _ & _ & Hoth & _).
    { by rewrite Hst. } { by rewrite Hs. }
    { intros i Hi1 Hi2. rewrite Hst in Hi1. rewrite Hup by done.
      by apply Hemp. }
    { by rewrite Hup. }
    split_and!; [done | lia |]. rewrite Hoth by lia. done.
  - intros Hemp. split.
    + destruct (empty T_init s1) eqn:He; [|done].
      rewrite (proj1 (empty_true T_init s1) He index) in Hval.
      by apply elem_of_nil in Hval.
    + rewrite <- Hs. apply pop_all_empty; [done|].
      intros i Hle. rewrite Hst in Hle. rewrite Hup by done. by apply Hemp.
Qed.

Lemma obim_pop_misses_lower_push_witness :
  let I := λ (v : N) (_ : N), v in
  let s := after (pop 0 0%nat (after (push 0 I 0%nat 2
                    (after (push 0 I 0%nat 2 (create 0 3)))))) in
  let s1 := after (push 0 I 1%nat 1 s) in
  wf s ∧ 1%nat ≠ 0%nat ∧ 1 < cur 0%nat s ∧ cur 0%nat s < size s
  ∧ 1 ∈ bucket 1 s1
  ∧ (∀ j x l,
       cur 0%nat s ≤ j → j < size s →
       (∀ i, cur 0%nat s ≤ i → i < j → bucket i s = []) →
       bucket j s = x :: l →
       result (pop 0 0%nat s1) = Returned (true, x)
       ∧ 1 < j
       ∧ 1 ∈ bucket 1 (after (pop 0 0%nat s1)))
  ∧ ((∀ i, cur 0%nat s ≤ i → bucket i s = []) →
     empty 0 s1 = false
     ∧ result (pop 0 0%nat s1) = OutOfBounds (size s)).
Proof.
  intros I s s1.
  assert (Hwf : wf s).
  { unfold s. eapply pop_returned; [|by vm_compute].
    eapply push_returned; [|done]. eapply push_returned; [|done].
    apply wf_create. }
  assert (Hw : 1%nat ≠ 0%nat) by done.
  assert (H1 : 1 < cur 0%nat s) by (by vm_compute).
  assert (H2 : cur 0%nat s < size s) by (by vm_compute).
  split; [exact Hwf|]. split; [exact Hw|]. split; [exact H1|].
  split; [exact H2|].
  exact (obim_pop_misses_lower_push 0 I 0%nat 1%nat 1 s Hwf Hw H1 H2).
Defined.

(** The constructor computes [size] as [range + 1] in [unsigned int]: for
    [range] the largest [unsigned int] it wraps to 0, the array has no
    bucket, [empty] answers [true], and every [push] and every [pop]
    subscripts outside the array. *)
Theorem obim_create_wraps {T} (T_init : T) (I : T → N → N) (w : nat)
    (val : T) :
  let s := create T_init 4294967295 in
  size s = 0 ∧ data s = [] ∧ empty T_init s = true
  ∧ result (push T_init I w val s) = OutOfBounds (u32 (I val 0))
  ∧ result (pop T_init w s) = OutOfBounds 0.
Proof.
  intros s. split_and!; [done..|].
  apply (pop_all_empty T_init w s); [apply wf_create|].
  intros i _. apply bucket_create.
Qed.

(** For a single worker the worklist sorts by index, stably: after a
    worker has seeded a fresh worklist with items that all index inside
    the array, as many calls of [pop] as there are items all return, and
    return the items by ascending index, items of equal index in the
    order of the range. *)
Theorem obim_single_worker_sorts {T} (T_init : T) (I : T → N → N)
    (range : N) (w : nat) (vs : list T) :
  let size := u32 (range + 1) in
  Forall (λ v, u32 (I v size) < size) vs →
  let c := fill_initial T_init I w vs (create T_init range) in
  result c = Returned ()
  ∧ pop_n T_init (length vs) w (after c)
    = Some ((λ x, (true, x)) <$> by_index I size vs).
Proof.
  intros size Hall c.
  destruct (sees_fill_initial T_init I w range vs Hall) as [Hr Hs].
  split; [done|].
  apply (sees_drain T_init w (length vs) (after c) _ 0 Hs).
  - intros i l Hi. lia.
  - by apply (length_by_index I size vs).
Qed.

Lemma obim_single_worker_sorts_witness :
  let I := λ (v : N) (_ : N), v mod 4 in
  let vs := [6; 1; 4; 2; 5; 0] in
  let c := fill_initial 0 I 0%nat vs (create 0 3) in
  Forall (λ v, u32 (I v (u32 (3 + 1))) < u32 (3 + 1)) vs
  ∧ result c = Returned ()
  ∧ pop_n 0 (length vs) 0%nat (after c)
    = Some ((λ x, (true, x)) <$> by_index I (u32 (3 + 1)) vs).
Proof.
  intros I vs c.
  assert (Hall : Forall (λ v, u32 (I v (u32 (3 + 1))) < u32 (3 + 1)) vs)
    by (repeat constructor).
  split; [exact Hall|].
  exact (obim_single_worker_sorts 0 I 3 0%nat vs Hall).
Defined.

End OBIM.

(** ** CacheByIntegerMetric *)

Module Cache.
Import STL.

(** What [CacheByIntegerMetric] asks of its parent worklist [ParentTy]:
    the worklist interface, each call made by a worker. *)
Class Worklist (T W : Type) := {
  wl_push : nat → T → W → W;
  wl_pop : nat → W → (bool * T) * W;
  wl_empty : nat → W → bool;
  wl_fill_initial : list T → W → W;
}.

#[export] Instance STLAdaptor_worklist {T MQ} `{Container T MQ}
    (concurrent : bool) : Worklist T (STLAdaptor MQ) := {|
  wl_push _ val s := STL.push concurrent val s;
  wl_pop _ s := STL.pop concurrent s;
  wl_empty _ s := (STL.empty concurrent s).1;
  wl_fill_initial ii s := STL.fill_initial ii s;
|}.

Section CacheByIntegerMetric.
Context {T ParentTy : Type} `{Worklist T ParentTy}.
(** The template argument [size] and the indexer, called as [I(val, size)]. *)
Variable size : nat.
Variable I : T → nat → N.
(** The default-constructed [T] a fresh slot holds. *)
Variable T_init : T.

Record __cacheTy := Slot { valid : bool; data : T }.

(** [ParentTy& data] and [CPUSpaced<cacheTy> cache], the latter an array of
    [size] slots for each worker. *)
Record CacheByIntegerMetric := Build {
  parent : ParentTy;
  cache : CPUSpaced (list __cacheTy);
}.

Definition create (P : ParentTy) : CacheByIntegerMetric :=
  {| parent := P; cache := cpu_new (replicate size (Slot false T_init)) |}.

(** The loop of [push] over the slots [c[i]], [c[i+1]], ...: the slots it
    leaves, and the [val] it falls out of the loop with ([None] when it
    returned from a free slot).  [valIndex] is an [unsigned int]: it holds
    the result of the indexer narrowed to 32 bits, and is compared with
    the result of the indexer for the cached item as the indexer returns
    it. *)
Fixpoint push_slots (c : list __cacheTy) (val : T) (valIndex : N) :
    list __cacheTy * option T :=
  match c with
  | [] => ([], Some val)
  | ci :: c' =>
      if valid ci then
        if valIndex <? I (data ci) size then
          (* swap *)
          let tmp := data ci in
          let ci := Slot (valid ci) val in
          let val := tmp in
          let valIndex := u32 (I val size) in
          let r := push_slots c' val valIndex in
          (ci :: r.1, r.2)
        else
          let r := push_slots c' val valIndex in
          (ci :: r.1, r.2)
      else
        (* slot open *)
        (Slot true val :: c', None)
  end.

Definition push (w : nat) (val : T) (s : CacheByIntegerMetric) :
    CacheByIntegerMetric :=
  let c := cpu_get (cache s) w in
  let valIndex := u32 (I val size) in
  let r := push_slots c val valIndex in
  let s := {| parent := parent s; cache := cpu_set (cache s) w r.1 |} in
  match r.2 with
  | None => s
  | Some val =>
      (* val is either an old cached entry or the pushed one *)
      {| parent := wl_push w val (parent s); cache := cache s |}
  end.

(** The loop of [pop]: the first valid slot is handed out and marked
    free. *)
Fixpoint pop_slots (c : list __cacheTy) : option (T * list __cacheTy) :=
  match c with
  | [] => None
  | ci :: c' =>
      if valid ci then Some (data ci, Slot false (data ci) :: c')
      else match pop_slots c' with
           | Some (v, c'') => Some (v, ci :: c'')
           | None => None
           end
  end.

Definition pop (w : nat) (s : CacheByIntegerMetric) :
    (bool * T) * CacheByIntegerMetric :=
  match pop_slots (cpu_get (cache s) w) with
  | Some (v, c) =>
      ((true, v), {| parent := parent s; cache := cpu_set (cache s) w c |})
  | None =>
      (* cache was empty *)
      let r := wl_pop w (parent s) in
      (r.1, {| parent := r.2; cache := cache s |})
  end.

Definition empty (w : nat) (s : CacheByIntegerMetric) : bool :=
  if existsb valid (cpu_get (cache s) w) then false
  else wl_empty w (parent s).

Definition aborted (w : nat) (val : T) (s : CacheByIntegerMetric) :
    CacheByIntegerMetric :=
  push w val s.

Definition fill_initial (ii : list T) (s : CacheByIntegerMetric) :
    CacheByIntegerMetric :=
  {| parent := wl_fill_initial ii (parent s); cache := cache s |}.

(** The metric of an item, and the items whose metric is an [unsigned
    int]: for them [valIndex] is the metric. *)
Definition metric (v : T) : N := I v size.

Definition fits (v : T) : Prop := metric v < UINT_MOD.

(** The walk over a cache without free slot, when the metrics of [val]
    and of the items found are [unsigned int]s: it leaves every slot valid
    and falls out of the loop with an item whose metric is at least that
    of [val] and of every item left in the slots; that item and the items
    left are [val] and the items found, in some order. *)
Lemma push_slots_full c : ∀ val valIndex,
  valIndex = metric val → fits val →
  Forall (λ ci, fits (data ci)) c →
  Forall (λ ci, valid ci = true) c →
  ∃ out,
    (push_slots c val valIndex).2 = Some out
    ∧ metric val ≤ metric out
    ∧ Forall (λ ci, valid ci = true ∧ metric (data ci) ≤ metric out)
        (push_slots c val valIndex).1
    ∧ length (push_slots c val valIndex).1 = length c
    ∧ out :: (data <$> (push_slots c val valIndex).1)
        ≡ₚ val :: (data <$> c).
Proof.
  induction c as [|ci c IH]; intros val valIndex -> Hval Hfit Hv;
    cbn [push_slots].
  - exists val. split_and!; try done.
  - apply Forall_cons in Hv as [Hci Hc].
    apply Forall_cons in Hfit as [Hfi Hfc]. rewrite Hci.
    fold (metric (data ci)).
    destruct (metric val <? metric (data ci)) eqn:E.
    + apply N.ltb_lt in E. cbv zeta.
      destruct (IH (data ci) (u32 (metric (data ci)))
                  (u32_small _ Hfi) Hfi Hfc Hc)
        as (out & Ho & Hle & Hall & Hlen & Hperm).
      exists out. simpl. split_and!; try done.
      * lia.
      * apply Forall_cons. split; [|done]. simpl. split; [done | lia].
      * by rewrite Hlen.
      * rewrite <- Hperm. apply Permutation_swap.
    + apply N.ltb_ge in E.
      destruct (IH val (metric val) eq_refl Hval Hfc Hc)
        as (out & Ho & Hle & Hall & Hlen & Hperm).
      exists out. simpl. split_and!; try done.
      * apply Forall_cons. split; [|done]. split; [done | lia].
      * by rewrite Hlen.
      * etrans; [apply Permutation_swap|]. rewrite Hperm.
        apply Permutation_swap.
Qed.

(** *** What the cache of a worker holds *)

(** The items in the valid slots of a cache, in slot order, and those of
    the cache of worker [w]. *)
Definition slot_items (c : list __cacheTy) : list T :=
  data <$> filter (λ ci, valid ci = true) c.

Definition cached (w : nat) (s : CacheByIntegerMetric) : list T :=
  slot_items (cpu_get (cache s) w).

(** [push] called by [w] for each item of [vals] in turn. *)
Definition push_all (w : nat) (vals : list T) (s : CacheByIntegerMetric) :
    CacheByIntegerMetric :=
  foldl (λ s v, push w v s) s vals.

(** No item has a smaller metric than an item before it. *)
Fixpoint ascending (vs : list T) : Prop :=
  match vs with
  | [] => True
  | v :: vs => Forall (λ u, metric v ≤ metric u) vs ∧ ascending vs
  end.

Lemma slot_items_cons ci c :
  slot_items (ci :: c)
  = if valid ci then data ci :: slot_items c else slot_items c.
Proof.
  unfold slot_items. rewrite filter_cons.
  destruct (valid ci); [by rewrite decide_True | by rewrite decide_False].
Qed.

(** The walk of [push] over the slots loses no item and makes none up: the
    items in the slots it leaves, with the item it falls out of the loop
    with if there is one, are [val] and the items found; and it falls out
    of the loop exactly when no slot was free. *)
Lemma push_slots_conserves c : ∀ val valIndex,
  let r := push_slots c val valIndex in
  length r.1 = length c
  ∧ slot_items r.1 ++ option_list r.2 ≡ₚ val :: slot_items c
  ∧ (r.2 = None ↔ Exists (λ ci, valid ci = false) c).
Proof.
  induction c as [|ci c IH]; intros val valIndex; cbn [push_slots]; cbv zeta.
  - split_and!; [done..|]. split; [done|]. by intros ?%Exists_nil.
  - destruct (valid ci) eqn:Hci.
    + assert (Hex : ∀ P : Prop,
        (P ↔ Exists (λ ci, valid ci = false) c) →
        (P ↔ Exists (λ ci, valid ci = false) (ci :: c))).
      { intros P HP. rewrite Exists_cons, HP, Hci.
        split; [by right | by intros [?|?]]. }
      destruct (valIndex <? I (data ci) size).
      * destruct (IH (data ci) (u32 (I (data ci) size))) as (Hl & Hp & Hn).
        simpl.
        split_and!; [by rewrite Hl | | by apply Hex].
        rewrite !slot_items_cons, Hci. cbn [valid data app]. by rewrite Hp.
      * destruct (IH val valIndex) as (Hl & Hp & Hn). simpl.
        split_and!; [by rewrite Hl | | by apply Hex].
        rewrite !slot_items_cons, Hci. cbn [app]. rewrite Hp.
        apply Permutation_swap.
    + simpl. split_and!; [done | |].
      * rewrite !slot_items_cons, Hci. cbn [valid data option_list].
        by rewrite app_nil_r.
      * split; [|done]. intros _. by left.
Qed.

(** The walk of [pop] over the slots hands out the item of the first
    valid slot and frees that slot; it finds nothing exactly when no slot
    is valid. *)
Lemma pop_slots_spec c :
  match slot_items c with
  | [] => pop_slots c = None
  | v :: rest =>
      ∃ c', pop_slots c = Some (v, c') ∧ slot_items c' = rest
            ∧ length c' = length c
  end.
Proof.
  induction c as [|ci c IH]; [done|].
  rewrite slot_items_cons. simpl. destruct (valid ci) eqn:Hci.
  - eexists. split; [done|]. by rewrite slot_items_cons.
  - destruct (slot_items c) as [|v rest].
    + by rewrite IH.
    + destruct IH as (c' & -> & Hc' & Hl). eexists. split; [done|].
      rewrite slot_items_cons, Hci. split; [done|]. simpl. by rewrite Hl.
Qed.

(** The walk of [push] over slots of which the valid ones come first and
    are in ascending order of metric, all metrics being [unsigned int]s:
    the item goes to its place in that order, and what is pushed off the
    end goes to the first free slot if there is one, and is otherwise left
    over, with no smaller a metric than anything kept. *)
Lemma push_slots_ascending vs : ∀ val valIndex free,
  valIndex = metric val → fits val → Forall fits vs →
  ascending vs → Forall (λ ci, valid ci = false) free →
  let r := push_slots ((Slot true <$> vs) ++ free) val valIndex in
  ∃ vs',
    ascending vs'
    ∧ match free with
      | [] =>
          ∃ out, r = (Slot true <$> vs', Some out)
                 ∧ out :: vs' ≡ₚ val :: vs
                 ∧ metric val ≤ metric out
                 ∧ Forall (λ u, metric u ≤ metric out) vs'
      | _ :: free' =>
          r = ((Slot true <$> vs') ++ free', None) ∧ vs' ≡ₚ val :: vs
      end.
Proof.
  induction vs as [|v vs IH]; intros val valIndex free -> Hval Hfit Hasc Hfree.
  - destruct free as [|f free']; simpl.
    + exists []. split; [done|]. exists val. split_and!; try done.
    + apply Forall_cons in Hfree as [-> _].
      exists [val]. split; [|done]. split; [by constructor | done].
  - destruct Hasc as [Hv Hasc]. rewrite Forall_forall in Hv.
    apply Forall_cons in Hfit as [Hfv Hfit].
    rewrite fmap_cons.
    cbn [app push_slots valid data]. fold (metric v).
    destruct (metric val <? metric v) eqn:E.
    + apply N.ltb_lt in E.
      destruct (IH v (u32 (metric v)) free (u32_small _ Hfv) Hfv Hfit
                  Hasc Hfree) as (vs' & Hasc' & Hres).
      exists (val :: vs'). destruct free as [|f free'].
      * destruct Hres as (out & Hr & Hp & Hle & Hall). rewrite Hr. simpl.
        assert (Hin : ∀ u, u ∈ vs' → metric v ≤ metric u).
        { intros u Hu.
          assert (Hu' : u ∈ v :: vs) by (rewrite <- Hp; by right).
          apply elem_of_cons in Hu' as [->|Hu']; [done|].
          by apply Hv. }
        split.
        { split; [|done]. apply Forall_forall. intros u Hu.
          specialize (Hin u Hu). lia. }
        exists out. split_and!; [done | | lia |].
        -- by rewrite (Permutation_swap val out vs'), Hp.
        -- apply Forall_cons. split; [lia | done].
      * destruct Hres as [Hr Hp]. rewrite Hr. simpl.
        split; [|split; [done | by rewrite Hp]].
        split; [|done]. apply Forall_forall. intros u Hu.
        assert (Hu' : u ∈ v :: vs) by (by rewrite <- Hp).
        apply elem_of_cons in Hu' as [->|Hu']; [lia|].
        specialize (Hv u Hu'). lia.
    + apply N.ltb_ge in E.
      destruct (IH val (metric val) free eq_refl Hval Hfit Hasc Hfree)
        as (vs' & Hasc' & Hres).
      exists (v :: vs'). destruct free as [|f free'].
      * destruct Hres as (out & Hr & Hp & Hle & Hall). rewrite Hr. simpl.
        split.
        { split; [|done]. apply Forall_forall. intros u Hu.
          assert (Hu' : u ∈ val :: vs) by (rewrite <- Hp; by right).
          apply elem_of_cons in Hu' as [->|Hu']; [done|].
          by apply Hv. }
        exists out. split_and!; [done | | done |].
        -- rewrite (Permutation_swap v out vs'), Hp. apply Permutation_swap.
        -- apply Forall_cons. split; [lia | done].
      * destruct Hres as [Hr Hp]. rewrite Hr. simpl.
        split; [|split; [done | rewrite Hp; apply Permutation_swap]].
        split; [|done]. apply Forall_forall. intros u Hu.
        assert (Hu' : u ∈ val :: vs) by (by rewrite <- Hp).
        apply elem_of_cons in Hu' as [->|Hu']; [done|].
        by apply Hv.
Qed.

(** What the cache of [w] looks like after [w] has pushed [vals] and no
    one has popped: the valid slots come first, in ascending order of
    metric, they hold items of [vals], and an item of [vals] that is not
    there was handed to the parent from a cache without free slot, having
    no smaller a metric than anything in it. *)
Definition pushed_only (w : nat) (vals : list T) (s : CacheByIntegerMetric) :
    Prop :=
  ∃ vs free,
    cpu_get (cache s) w = (Slot true <$> vs) ++ free
    ∧ Forall (λ ci, valid ci = false) free
    ∧ ascending vs
    ∧ (∀ u, u ∈ vs → u ∈ vals)
    ∧ (∀ u, u ∈ vals →
         u ∈ vs ∨ (free = [] ∧ Forall (λ x, metric x ≤ metric u) vs))
    ∧ (vs = [] → vals = [] ∨ free = []).

Lemma pushed_only_create w P : pushed_only w [] (create P).
Proof.
  exists [], (replicate size (Slot false T_init)). split_and!; try done.
  - by apply Forall_replicate.
  - by intros u ?%elem_of_nil.
  - by left.
Qed.

Lemma pushed_only_push w vals val s :
  Forall fits vals → fits val →
  pushed_only w vals s → pushed_only w (vals ++ [val]) (push w val s).
Proof.
  intros Hfits Hval (vs & free & Hc & Hfree & Hasc & Hsub & Hall & Hne).
  assert (Hvs : Forall fits vs).
  { rewrite Forall_forall in Hfits. apply Forall_forall. intros u Hu.
    by apply Hfits, Hsub. }
  destruct (push_slots_ascending vs val (u32 (I val size)) free
              (u32_small _ Hval) Hval Hvs Hasc Hfree) as (vs' & Hasc' & Hres).
  assert (Hcache : ∀ r2 c',
    push_slots (cpu_get (cache s) w) val (u32 (I val size)) = (c', r2) →
    cpu_get (cache (push w val s)) w = c').
  { intros r2 c' Hr. unfold push. cbv zeta. rewrite Hr. simpl.
    destruct r2; simpl; by rewrite cpu_get_set_eq. }
  rewrite <- Hc in Hres.
  destruct free as [|f free'].
  - destruct Hres as (out & Hr & Hp & Hle & Hout).
    rewrite Forall_forall in Hout.
    exists vs', []. rewrite (Hcache _ _ Hr).
    split; [by rewrite app_nil_r|]. split; [done|]. split; [done|].
    split; [|split; [|intros _; by right]].
    + intros u Hu. assert (Hu' : u ∈ val :: vs) by (rewrite <- Hp; by right).
      apply elem_of_app. apply elem_of_cons in Hu' as [->|Hu'].
      * right. by left.
      * left. by apply Hsub.
    + assert (Hkept : ∀ u, u ∈ val :: vs →
                u ∈ vs' ∨ (@nil __cacheTy = [] ∧
                            Forall (λ x, metric x ≤ metric u) vs')).
      { intros u Hu. rewrite <- Hp in Hu.
        apply elem_of_cons in Hu as [->|Hu]; [right | by left].
        split; [done|]. by apply Forall_forall. }
      intros u [Hu| ->%list_elem_of_singleton]%elem_of_app;
        [|apply Hkept; by left].
      destruct (Hall u Hu) as [Hin|[_ Hge]]; [apply Hkept; by right|].
      rewrite Forall_forall in Hge.
      right. split; [done|]. apply Forall_forall. intros x Hx.
      assert (Hx' : x ∈ val :: vs) by (rewrite <- Hp; by right).
      apply elem_of_cons in Hx' as [->|Hx']; [|by apply Hge].
      assert (Ho : out ∈ val :: vs) by (rewrite <- Hp; by left).
      apply elem_of_cons in Ho as [->|Ho].
      * apply Permutation_cons_inv in Hp. apply Hge. by rewrite <- Hp.
      * specialize (Hge out Ho). lia.
  - destruct Hres as [Hr Hp].
    exists vs', free'. rewrite (Hcache _ _ Hr).
    apply Forall_cons in Hfree as [_ Hfree'].
    split; [done|]. split; [done|]. split; [done|].
    split; [|split].
    + intros u Hu. rewrite Hp in Hu. apply elem_of_app.
      apply elem_of_cons in Hu as [->|Hu]; [right; by left | left; by apply Hsub].
    + intros u [Hu| ->%list_elem_of_singleton]%elem_of_app.
      * destruct (Hall u Hu) as [Hin|[? _]]; [|done].
        left. rewrite Hp. by right.
      * left. rewrite Hp. by left.
    + intros ->. by apply Permutation_nil_cons in Hp.
Qed.

Lemma pushed_only_push_all w vals : ∀ vals0 s,
  Forall fits vals0 → Forall fits vals →
  pushed_only w vals0 s → pushed_only w (vals0 ++ vals) (push_all w vals s).
Proof.
  induction vals as [|v vals IH]; intros vals0 s Hf0 Hf Hs; simpl.
  - by rewrite app_nil_r.
  - apply Forall_cons in Hf as [Hv Hf].
    rewrite cons_middle, (assoc_L (++) vals0 [v] vals). apply IH; [|done|].
    + apply Forall_app. split; [done|]. by constructor.
    + by apply pushed_only_push.
Qed.

(** What [push] and [pop] do to the caches. *)
Lemma push_cache w val s :
  cpu_get (cache (push w val s)) w
  = (push_slots (cpu_get (cache s) w) val (u32 (metric val))).1
  ∧ (∀ w', w' ≠ w → cpu_get (cache (push w val s)) w' = cpu_get (cache s) w')
  ∧ parent (push w val s)
    = match (push_slots (cpu_get (cache s) w) val (u32 (metric val))).2 with
      | Some out => wl_push w out (parent s)
      | None => parent s
      end.
Proof.
  unfold push, metric. cbv zeta.
  destruct (push_slots _ _ _).2; simpl;
    (split_and!; [by rewrite cpu_get_set_eq | | done]);
    intros w' Hw'; by rewrite cpu_get_set_ne.
Qed.

Lemma push_all_length w vals : ∀ s,
  length (cpu_get (cache (push_all w vals s)) w)
  = length (cpu_get (cache s) w).
Proof.
  induction vals as [|v vals IH]; intros s; [done|].
  simpl. fold (push_all w vals (push w v s)). rewrite IH.
  destruct (push_cache w v s) as (-> & _).
  by destruct (push_slots_conserves (cpu_get (cache s) w) v
                 (u32 (metric v))) as (-> & _).
Qed.

Lemma slot_items_prefix vs free :
  Forall (λ ci, valid ci = false) free →
  slot_items ((Slot true <$> vs) ++ free) = vs.
Proof.
  intros Hfree. induction vs as [|v vs IH].
  - simpl. induction Hfree as [|ci free Hci _ IH]; [done|].
    by rewrite slot_items_cons, Hci.
  - rewrite fmap_cons. cbn [app]. rewrite slot_items_cons. cbn [valid data].
    by rewrite IH.
Qed.

End CacheByIntegerMetric.

Arguments Slot {T} _ _.
Arguments valid {T} _.
Arguments data {T} _.
Arguments CacheByIntegerMetric T ParentTy : clear implicits.
Arguments parent {T ParentTy} _.
Arguments cache {T ParentTy} _.

(** *** The property of the specification *)

(** The eviction property of [push] over the items that [dom] admits:
    when [push(v)] finds every slot of the caller's cache valid, it hands
    exactly one item to the parent worklist, and the metric of that item
    is at least the metric of [v] and of every item the cache holds after
    the call. *)
Definition evicts_worst {T ParentTy : Type} `{Worklist T ParentTy}
    (size : nat) (I : T → nat → N) (dom : T → Prop) : Prop :=
  ∀ (w : nat) (v : T) (s : CacheByIntegerMetric T ParentTy),
    dom v → Forall (λ ci, dom (data ci)) (cpu_get (cache s) w) →
    Forall (λ ci, valid ci = true) (cpu_get (cache s) w) →
    ∃ out,
      parent (push size I w v s) = wl_push w out (parent s)
      ∧ I v size ≤ I out size
      ∧ Forall (λ ci, valid ci = true ∧ I (data ci) size ≤ I out size)
          (cpu_get (cache (push size I w v s)) w)
      ∧ out :: (data <$> cpu_get (cache (push size I w v s)) w)
          ≡ₚ v :: (data <$> cpu_get (cache s) w).

#[local] Instance N_less : Compare N := N.ltb.

#[local] Instance N_priority_queue : Container N (priority_queue N) :=
  priority_queue_container 0.

#[local] Instance N_PriQueue : Worklist N (PriQueue N) :=
  STLAdaptor_worklist true.

(** C5 as stated, for every item and indexer, fails: [push] holds the
    metric of the item it carries in an [unsigned int].  With one slot
    and [I(v) = v] over 64-bit items, after [push(5)] the call
    [push(4294967297)] carries [valIndex = 1], finds [1 < 5], keeps
    4294967297 in the slot and hands 5 to the parent. *)
Lemma cache_push_wide_metric_fails :
  ¬ evicts_worst (ParentTy := PriQueue N) 1 (λ v _, v) (λ _, True).
Proof.
  intros Hc.
  pose (s := push 1 (λ v _, v) 0%nat 5 (create 1 0 (STL.new : PriQueue N))).
  assert (Hs : cpu_get (cache s) 0%nat = [Slot true 5]) by reflexivity.
  assert (Hs' : cpu_get (cache (push 1 (λ v _, v) 0%nat 4294967297 s)) 0%nat
                = [Slot true 4294967297]) by (vm_compute; reflexivity).
  destruct (Hc 0%nat 4294967297 s) as (out & _ & Hle & Hall & Hperm).
  - done.
  - rewrite Hs. by repeat constructor.
  - rewrite Hs. by repeat constructor.
  - rewrite Hs', Hs in Hperm. simpl in Hperm, Hle.
    assert (Hout : out ∈ [4294967297; 5]) by (rewrite <- Hperm; by left).
    apply elem_of_cons in Hout as [->| ->%list_elem_of_singleton]; [|lia].
    apply Permutation_cons_inv, Permutation_singleton_r in Hperm.
    discriminate Hperm.
Qed.

(** C5, as amended: when the metrics of [v] and of the cached items are
    [unsigned int]s (below [2^32]) and [push(v)] finds every slot of the
    caller's cache valid, it hands exactly one item to the parent
    worklist, and the metric of that item is at least the metric of [v]
    and of every item the cache holds after the call: [evicts_worst] over
    the items whose metric fits. *)
Theorem cache_push_evicts_worst {T ParentTy : Type} `{Worklist T ParentTy}
    (size : nat) (I : T → nat → N) (w : nat) (v : T)
    (s : CacheByIntegerMetric T ParentTy) :
  I v size < UINT_MOD →
  Forall (λ ci, I (data ci) size < UINT_MOD) (cpu_get (cache s) w) →
  Forall (λ ci, valid ci = true) (cpu_get (cache s) w) →
  ∃ out,
    parent (push size I w v s) = wl_push w out (parent s)
    ∧ I v size ≤ I out size
    ∧ Forall (λ ci, valid ci = true ∧ I (data ci) size ≤ I out size)
        (cpu_get (cache (push size I w v s)) w)
    ∧ out :: (data <$> cpu_get (cache (push size I w v s)) w)
        ≡ₚ v :: (data <$> cpu_get (cache s) w).
Proof.
  intros Hv Hfit Hfull.
  destruct (push_slots_full size I (cpu_get (cache s) w) v (u32 (I v size))
              (u32_small _ Hv) Hv Hfit Hfull)
    as (out & Ho & Hle & Hall & _ & Hperm).
  exists out. unfold push. cbv zeta. unfold metric in *. rewrite Ho. simpl.
  rewrite cpu_get_set_eq. done.
Qed.

(** A cache of two slots over a [PriQueue], indexer [I(v) = v]: after 5
    and 2 both slots are valid, and pushing 7 hands 7 to the parent. *)
Definition sample_cache : CacheByIntegerMetric N (PriQueue N) :=
  push 2 (λ v _, v) 0%nat 2
    (push 2 (λ v _, v) 0%nat 5 (create 2 0 (STL.new))).

Lemma cache_push_evicts_worst_witness :
  7 < UINT_MOD
  ∧ Forall (λ ci, data ci < UINT_MOD) (cpu_get (cache sample_cache) 0%nat)
  ∧ Forall (λ ci, valid ci = true) (cpu_get (cache sample_cache) 0%nat)
  ∧ ∃ out,
      parent (push 2 (λ v _, v) 0%nat 7 sample_cache)
      = wl_push 0%nat out (parent sample_cache)
      ∧ 7 ≤ out
      ∧ Forall (λ ci, valid ci = true ∧ data ci ≤ out)
          (cpu_get (cache (push 2 (λ v _, v) 0%nat 7 sample_cache)) 0%nat)
      ∧ out :: (data <$> cpu_get (cache (push 2 (λ v _, v) 0%nat 7
                                           sample_cache)) 0%nat)
          ≡ₚ 7 :: (data <$> cpu_get (cache sample_cache) 0%nat).
Proof.
  assert (Hv : 7 < UINT_MOD) by reflexivity.
  assert (Hfit : Forall (λ ci, data ci < UINT_MOD)
                   (cpu_get (cache sample_cache) 0%nat)).
  { change (cpu_get (cache sample_cache) 0%nat)
      with [Slot true 2; Slot true 5].
    by repeat constructor. }
  assert (Hfull : Forall (λ ci, valid ci = true)
                    (cpu_get (cache sample_cache) 0%nat)).
  { vm_compute. by repeat constructor. }
  split; [exact Hv|]. split; [exact Hfit|]. split; [exact Hfull|].
  exact (cache_push_evicts_worst (ParentTy := PriQueue N) 2 (λ v _, v)
           0%nat 7 sample_cache Hv Hfit Hfull).
Defined.

(** *** Conservation and order of service *)

(** [push] loses no item and makes none up.  The items in the valid slots
    of the caller after the call, with the item handed to the parent if
    one was, are [v] and the items that were in the valid slots, in some
    order; the parent is touched only to hand it that one item, which
    happens exactly when the caller's cache had no free slot; and no other
    worker's cache changes. *)
Theorem cache_push_conserves {T ParentTy : Type} `{Worklist T ParentTy}
    (size : nat) (I : T → nat → N) (w : nat) (v : T)
    (s : CacheByIntegerMetric T ParentTy) :
  let s' := push size I w v s in
  ∃ ev : option T,
    parent s' = (if ev is Some out then wl_push w out (parent s)
                 else parent s)
    ∧ cached w s' ++ option_list ev ≡ₚ v :: cached w s
    ∧ (ev = None ↔ Exists (λ ci, valid ci = false) (cpu_get (cache s) w))
    ∧ length (cpu_get (cache s') w) = length (cpu_get (cache s) w)
    ∧ ∀ w', w' ≠ w → cpu_get (cache s') w' = cpu_get (cache s) w'.
Proof.
  intros s'. destruct (push_cache size I w v s) as (Hc & Ho & Hp).
  destruct (push_slots_conserves size I (cpu_get (cache s) w) v
              (u32 (metric size I v))) as (Hl & Hperm & Hn).
  exists (push_slots size I (cpu_get (cache s) w) v
            (u32 (metric size I v))).2.
  unfold s', cached. rewrite Hc. by split_and!.
Qed.

(** [pop] serves the caller's cache before the parent: when a slot of the
    caller is valid it returns [true] with the item of the first valid
    slot, which is then free, and leaves the parent alone; when none is,
    it is the [pop] of the parent, and the cache stays as it is.  No other
    worker's cache changes. *)
Theorem cache_pop_serves_cache_first {T ParentTy : Type}
    `{Worklist T ParentTy} (w : nat) (s : CacheByIntegerMetric T ParentTy) :
  let r := pop w s in
  match cached w s with
  | v :: rest =>
      r.1 = (true, v) ∧ parent r.2 = parent s ∧ cached w r.2 = rest
  | [] =>
      r.1 = (wl_pop w (parent s)).1 ∧ parent r.2 = (wl_pop w (parent s)).2
      ∧ cache r.2 = cache s
  end
  ∧ ∀ w', w' ≠ w → cpu_get (cache r.2) w' = cpu_get (cache s) w'.
Proof.
  intros r. unfold r, pop, cached.
  pose proof (pop_slots_spec (cpu_get (cache s) w)) as Hpop.
  destruct (slot_items (cpu_get (cache s) w)) as [|v rest].
  - rewrite Hpop. simpl. done.
  - destruct Hpop as (c' & -> & Hc' & _). simpl. rewrite cpu_get_set_eq.
    split; [done|]. intros w' Hw'. by rewrite cpu_get_set_ne.
Qed.

(** After a worker has pushed the items [vals], whose metrics are
    [unsigned int]s (below [2^32]), to a fresh cache with at least one
    slot, its [pop] returns one of them that has the least metric of them
    all. *)
Theorem cache_pop_least_of_pushed {T ParentTy : Type} `{Worklist T ParentTy}
    (size : nat) (I : T → nat → N) (T_init : T) (w : nat) (P : ParentTy)
    (vals : list T) :
  (0 < size)%nat → vals ≠ [] →
  Forall (λ v, I v size < UINT_MOD) vals →
  let s := push_all size I w vals (create size T_init P) in
  ∃ v, (pop w s).1 = (true, v) ∧ v ∈ vals
       ∧ ∀ u, u ∈ vals → I v size ≤ I u size.
Proof.
  intros Hsize Hvals Hfits s.
  destruct (pushed_only_push_all size I w vals [] (create size T_init P)
              (Forall_nil_2 _) Hfits (pushed_only_create size I T_init w P))
    as (vs & free & Hc & Hfree & Hasc & Hsub & Hall & Hne).
  fold s in Hc. simpl in Hsub, Hall, Hne.
  assert (Hlen : length (cpu_get (cache s) w) = size).
  { unfold s. rewrite push_all_length. simpl.
    unfold cpu_get, cpu_new. by rewrite length_replicate. }
  destruct vs as [|v vs].
  { destruct (Hne eq_refl) as [?| ->]; [done|].
    rewrite Hc in Hlen. simpl in Hlen. lia. }
  pose proof (pop_slots_spec (cpu_get (cache s) w)) as Hpop.
  rewrite Hc, slot_items_prefix in Hpop by done. rewrite <- Hc in Hpop.
  destruct Hpop as (c' & Hpop & _).
  exists v. split_and!.
  - unfold pop. by rewrite Hpop.
  - apply Hsub. by left.
  - intros u Hu. destruct Hasc as [Hv _]. rewrite Forall_forall in Hv.
    fold (metric size I v). fold (metric size I u).
    destruct (Hall u Hu) as [Hin|[_ Hge]].
    + apply elem_of_cons in Hin as [->|Hin]; [done | by apply Hv].
    + rewrite Forall_forall in Hge. apply Hge. by left.
Qed.

Lemma cache_pop_least_of_pushed_witness :
  let I := λ (v : N) (_ : nat), v in
  let vals := [5; 2; 7; 1; 9] in
  let s := push_all 2 I 0%nat vals (create 2 0 (STL.new : PriQueue N)) in
  (0 < 2)%nat ∧ vals ≠ []
  ∧ Forall (λ v, I v 2%nat < UINT_MOD) vals
  ∧ ∃ v, (pop 0%nat s).1 = (true, v) ∧ v ∈ vals
         ∧ ∀ u, u ∈ vals → I v 2%nat ≤ I u 2%nat.
Proof.
  intros I vals s.
  assert (H1 : (0 < 2)%nat) by lia.
  assert (H2 : vals ≠ []) by done.
  assert (H3 : Forall (λ v, I v 2%nat < UINT_MOD) vals)
    by (by repeat constructor).
  split; [exact H1|]. split; [exact H2|]. split; [exact H3|].
  exact (cache_pop_least_of_pushed (ParentTy := PriQueue N) 2 I 0 0%nat
           STL.new vals H1 H2 H3).
Defined.

(** Over an [STLAdaptor] as parent, [pop] and [empty] agree: [pop] returns
    an item exactly when [empty], called by the same worker on the same
    state, answers [false]. *)
Theorem cache_pop_iff_not_empty {T MQ : Type} `{Container T MQ}
    `{!ContainerLaws T MQ} (concurrent : bool) (w : nat)
    (s : CacheByIntegerMetric T (STLAdaptor MQ)) :
  (pop (H := STLAdaptor_worklist concurrent) w s).1.1
  = negb (empty (H := STLAdaptor_worklist concurrent) w s).
Proof.
  unfold pop, empty.
  pose proof (pop_slots_spec (cpu_get (cache s) w)) as Hpop.
  assert (Hex : existsb valid (cpu_get (cache s) w)
                = bool_decide (slot_items (cpu_get (cache s) w) ≠ [])).
  { clear. induction (cpu_get (cache s) w) as [|ci c IH]; [done|].
    rewrite slot_items_cons. simpl. destruct (valid ci); [done|]. apply IH. }
  rewrite Hex. destruct (slot_items (cpu_get (cache s) w)) as [|v rest].
  - rewrite Hpop. simpl.
    change ((STL.pop concurrent (parent s)).1.1
            = negb (STL.empty concurrent (parent s)).1).
    destruct (empty_spec concurrent (parent s)) as [-> _].
    destruct (contents (parent s)) as [|x l] eqn:E.
    + by destruct (pop_nil concurrent (parent s) E) as [-> _].
    + by destruct (pop_cons concurrent (parent s) x l E) as [-> _].
  - by destruct Hpop as (c' & -> & _).
Qed.

Lemma cache_pop_iff_not_empty_witness :
  (pop (H := STLAdaptor_worklist true) 0%nat sample_cache).1.1
  = negb (empty (H := STLAdaptor_worklist true) 0%nat sample_cache).
Proof.
  exact (cache_pop_iff_not_empty (H := N_priority_queue)
           (ContainerLaws0 := priority_queue_laws 0) true 0%nat sample_cache).
Defined.

End Cache.

(** ** ChunkedFIFO *)

Module Chunked.
Import STL.

Local Open Scope Z_scope.

(** How a call ends: it returns [a] and leaves the state [s]; or it does
    something the language leaves undefined (it uses a null or deleted
    [Chunk*], or overflows an [int]); or the model ran out of fuel. *)
Inductive res (S A : Type) : Type :=
| Ok (a : A) (s : S)
| Undefined
| OutOfFuel.
Arguments Ok {S A} _ _.
Arguments Undefined {S A}.
Arguments OutOfFuel {S A}.

Section ChunkedFIFO.
Context {T : Type} (T_init : T).
(** The template arguments [ChunkSize] and [pushToLocal]; [BackingTy] is
    the default [LIFO<T>]. *)
Variable ChunkSize : Z.
Variable pushToLocal : bool.

(** [Chunk] is [LIFO<T>::SingleThreadTy]. *)
#[local] Instance chunk_container : Container T (stack T) :=
  stack_container T_init.

(** A [Chunk*] is [None] (the null pointer) or the address of a chunk;
    [value_type()] of a queue of pointers is the null pointer. *)
#[local] Instance items_container : Container (option nat) (queue (option nat)) :=
  queue_container None.

Record ProcRec := {
  next : option nat;
  nextSize : Z;
  curr : option nat;
}.

(** [ProcRec() : next(0), nextSize(0), curr(0)] *)
Definition ProcRec_init : ProcRec :=
  {| next := None; nextSize := 0; curr := None |}.

(** [FIFO<Chunk*>::ConcurrentTy Items] and [CPUSpaced<ProcRec> data], and
    the chunks that [new Chunk] has made and [delete] has not yet
    destroyed, by address. *)
Record ChunkedFIFO := {
  Items : STLAdaptor (queue (option nat));
  data : CPUSpaced ProcRec;
  heap : gmap nat (STLAdaptor (stack T));
}.

Definition create : ChunkedFIFO :=
  {| Items := STL.new; data := cpu_new ProcRec_init; heap := ∅ |}.

(** *** Calls as state transformers *)

Definition M (A : Type) : Type := ChunkedFIFO → res ChunkedFIFO A.

Definition ret {A} (a : A) : M A := λ s, Ok a s.

Definition bind {A B} (m : M A) (k : A → M B) : M B :=
  λ s, match m s with
       | Ok a s' => k a s'
       | Undefined => Undefined
       | OutOfFuel => OutOfFuel
       end.

Notation "'let!' x ':=' m 'in' k" := (bind m (λ x, k))
  (at level 10, x pattern, m at level 100, k at level 200).
Notation "m ';;' k" := (bind m (λ _, k))
  (at level 100, k at level 200, right associativity).

(** [ProcRec& n = data.get()]: reading and writing the record of the
    calling worker. *)
Definition get_n (w : nat) : M ProcRec := λ s, Ok (cpu_get (data s) w) s.

Definition set_n (w : nat) (n : ProcRec) : M () :=
  λ s, Ok () {| Items := Items s; data := cpu_set (data s) w n;
                heap := heap s |}.

Definition set_next (w : nat) (p : option nat) : M () :=
  let! n := get_n w in
  set_n w {| next := p; nextSize := nextSize n; curr := curr n |}.

Definition set_nextSize (w : nat) (z : Z) : M () :=
  let! n := get_n w in
  set_n w {| next := next n; nextSize := z; curr := curr n |}.

Definition set_curr (w : nat) (p : option nat) : M () :=
  let! n := get_n w in
  set_n w {| next := next n; nextSize := nextSize n; curr := p |}.

(** [new Chunk]: an address not in use, holding an empty chunk. *)
Definition new_Chunk : M (option nat) :=
  λ s, let a := fresh (dom (heap s)) in
       Ok (Some a) {| Items := Items s; data := data s;
                      heap := <[a := STL.new]> (heap s) |}.

(** [p->f(...)] for a member function [f] of [Chunk]: undefined when [p]
    is null or does not point to a live chunk. *)
Definition on_chunk {A} (p : option nat)
    (f : STLAdaptor (stack T) → A * STLAdaptor (stack T)) : M A :=
  λ s, match p with
       | None => Undefined
       | Some a =>
           match heap s !! a with
           | None => Undefined
           | Some c =>
               Ok (f c).1 {| Items := Items s; data := data s;
                             heap := <[a := (f c).2]> (heap s) |}
           end
       end.

(** [delete p]: a no-op on the null pointer, undefined on a pointer to no
    live chunk. *)
Definition delete_Chunk (p : option nat) : M () :=
  λ s, match p with
       | None => Ok () s
       | Some a =>
           match heap s !! a with
           | None => Undefined
           | Some _ =>
               Ok () {| Items := Items s; data := data s;
                        heap := delete a (heap s) |}
           end
       end.

(** [Items.f(...)] *)
Definition on_Items {A} (f : STLAdaptor (queue (option nat)) →
                             A * STLAdaptor (queue (option nat))) : M A :=
  λ s, Ok (f (Items s)).1 {| Items := (f (Items s)).2; data := data s;
                             heap := heap s |}.

(** [n.nextSize++] on an [int]. *)
Definition incr_nextSize (w : nat) : M () :=
  let! n := get_n w in
  if decide (nextSize n = INT_MAX) then λ _, Undefined
  else set_nextSize w (nextSize n + 1).

(** *** The member functions *)

Definition push_next (w : nat) (val : T) : M () :=
  let! n := get_n w in
  (if next n is None then
     (let! p := new_Chunk in set_next w p);;
     set_nextSize w 0
   else ret ());;
  let! n := get_n w in
  (if decide (nextSize n = ChunkSize) then
     on_Items (λ q, ((), STL.push true (next n) q));;
     (let! p := new_Chunk in set_next w p);;
     set_nextSize w 0
   else ret ());;
  let! n := get_n w in
  on_chunk (next n) (λ c, ((), STL.push false val c));;
  incr_nextSize w.

Definition fill_curr (w : nat) : M () :=
  let! r := on_Items (STL.pop true) in
  if r.1 then (* Got one *)
    set_curr w r.2
  else (* try taking over next *)
    let! n := get_n w in
    set_curr w (next n);;
    set_next w None.

Definition push_local (w : nat) (val : T) : M () :=
  let! n := get_n w in
  (if curr n is None then fill_curr w else ret ());;
  let! n := get_n w in
  if curr n is Some _ then
    on_chunk (curr n) (λ c, ((), STL.push false val c))
  else
    push_next w val.

Definition push (w : nat) (val : T) : M () :=
  if pushToLocal then push_local w val else push_next w val.

(** [pop] calls itself after it has deleted an empty current chunk;
    [fuel] bounds the number of calls. *)
Fixpoint pop_rec (fuel : nat) (w : nat) : M (bool * T) :=
  match fuel with
  | O => λ _, OutOfFuel
  | S fuel =>
      let! n := get_n w in
      (if curr n is None then (* Curr is empty, graph a new chunk *)
         fill_curr w
       else ret ());;
      (* n.curr may still be null *)
      let! n := get_n w in
      if curr n is Some _ then
        let! e := on_chunk (curr n) (STL.empty false) in
        if e then
          delete_Chunk (curr n);;
          set_curr w None;;
          pop_rec fuel w
        else
          on_chunk (curr n) (STL.pop false)
      else
        ret (false, T_init)
  end.

(** The chunk pointers the worker [w] can draw on: those in the global
    FIFO, its [next] and its [curr]. *)
Definition chunks (w : nat) (s : ChunkedFIFO) : nat :=
  (length (contents (Items s))
   + (if next (cpu_get (data s) w) is Some _ then 1 else 0)
   + (if curr (cpu_get (data s) w) is Some _ then 1 else 0))%nat.

Definition pop (w : nat) : M (bool * T) :=
  λ s, pop_rec (S (chunks w s)) w s.

Definition empty (w : nat) : M bool :=
  let! n := get_n w in
  let! c := (if curr n is Some _ then
               let! e := on_chunk (curr n) (STL.empty false) in ret (negb e)
             else ret false) in
  if (c : bool) then ret false else
  let! c := (if next n is Some _ then
               let! e := on_chunk (next n) (STL.empty false) in ret (negb e)
             else ret false) in
  if (c : bool) then ret false else
  on_Items (STL.empty true).

Definition aborted (w : nat) (val : T) : M () :=
  push_next w val.

Fixpoint fill_initial_loop (w : nat) (ii : list T) : M () :=
  match ii with
  | [] => ret ()
  | x :: ii => push_next w x;; fill_initial_loop w ii
  end.

Definition fill_initial (w : nat) (ii : list T) : M () :=
  fill_initial_loop w ii;;
  let! n := get_n w in
  on_Items (λ q, ((), STL.push true (next n) q));;
  set_next w None.

(** *** Runs *)

Inductive op : Type :=
| Push (w : nat) (val : T)
| Aborted (w : nat) (val : T)
| Pop (w : nat)
| FillInitial (w : nat) (ii : list T).

Definition step (o : op) : M () :=
  match o with
  | Push w val => push w val
  | Aborted w val => aborted w val
  | Pop w => pop w;; ret ()
  | FillInitial w ii => fill_initial w ii
  end.

Fixpoint run (ops : list op) : M () :=
  match ops with
  | [] => ret ()
  | o :: ops => step o;; run ops
  end.

(** *** What a state holds *)

(** The pointers in the global FIFO, the one to leave first at the head. *)
Definition items (s : ChunkedFIFO) : list (option nat) :=
  queue_elems (wl (Items s)).

Definition rec (w : nat) (s : ChunkedFIFO) : ProcRec := cpu_get (data s) w.

(** The items of the chunk [p] points to, the last one pushed first. *)
Definition chunk_items (s : ChunkedFIFO) (p : option nat) : option (list T) :=
  a ← p; c ← heap s !! a; Some (stack_elems (wl c)).

(** The number of items of a chunk. *)
Definition len (c : STLAdaptor (stack T)) : Z :=
  Z.of_nat (length (stack_elems (wl c))).

(** [is_state s' q w n s h]: [s'] is [s] with the global FIFO holding [q],
    the record of [w] being [n], and the heap being [h]. *)
Definition is_state (s' : ChunkedFIFO) (q : list (option nat)) (w : nat)
    (n : ProcRec) (s : ChunkedFIFO) (h : gmap nat (STLAdaptor (stack T))) :
    Prop :=
  items s' = q ∧ rec w s' = n ∧ (∀ w', w' ≠ w → rec w' s' = rec w' s)
  ∧ heap s' = h.

(** The places a chunk pointer is kept in: the global FIFO, the [next] of
    a worker and the [curr] of a worker. *)
Inductive slot : Type :=
| InItems (i : nat)
| InNext (w : nat)
| InCurr (w : nat).

#[local] Instance slot_eq_dec : EqDecision slot.
Proof. solve_decision. Defined.

Definition at_slot (s : ChunkedFIFO) (sl : slot) : option nat :=
  match sl with
  | InItems i => items s !! i ≫= id
  | InNext w => next (rec w s)
  | InCurr w => curr (rec w s)
  end.

Arguments rec : simpl never.
Arguments items : simpl never.

Lemma at_slot_is_state s' q w n s h sl :
  is_state s' q w n s h →
  at_slot s' sl =
    match sl with
    | InItems i => q !! i ≫= id
    | InNext w' => if decide (w' = w) then next n else next (rec w' s)
    | InCurr w' => if decide (w' = w) then curr n else curr (rec w' s)
    end.
Proof.
  intros (Hq & Hn & Ho & _). destruct sl as [i|w'|w']; simpl.
  - by rewrite Hq.
  - case_decide as E; [subst w'; by rewrite Hn | by rewrite Ho].
  - case_decide as E; [subst w'; by rewrite Hn | by rewrite Ho].
Qed.

(** *** What each member function does *)

#[local] Instance items_laws :
  ContainerLaws (option nat) (queue (option nat)) := queue_laws None.
#[local] Instance chunk_laws : ContainerLaws T (stack T) := stack_laws T_init.

Lemma items_push p (q : STLAdaptor (queue (option nat))) :
  queue_elems (wl (STL.push true p q)) = queue_elems (wl q) ++ [p].
Proof. done. Qed.

Lemma items_pop_nil (q : STLAdaptor (queue (option nat))) :
  queue_elems (wl q) = [] →
  (STL.pop true q).1 = (false, None) ∧ queue_elems (wl (STL.pop true q).2) = [].
Proof.
  intros Hq. destruct (pop_nil (H := items_container) true q Hq) as [H1 H2]. split; [done|].
  by rewrite H2.
Qed.

Lemma items_pop_cons (q : STLAdaptor (queue (option nat))) p l :
  queue_elems (wl q) = p :: l →
  (STL.pop true q).1 = (true, p) ∧ queue_elems (wl (STL.pop true q).2) = l.
Proof. intros Hq. by destruct (pop_cons (H := items_container) true q p l Hq). Qed.

(** Running the calls of a member function one after the other. *)
Ltac exec :=
  repeat first
    [ progress unfold bind, ret, get_n, set_n, set_next, set_nextSize,
        set_curr, new_Chunk, on_chunk, on_Items, delete_Chunk, incr_nextSize
    | progress cbn [Items data heap next nextSize curr fst snd]
    | rewrite cpu_get_set_eq ].

Ltac state :=
  split_and!;
  [ done
  | unfold rec; cbn [data]; by rewrite ?cpu_get_set_eq
  | let w' := fresh "w'" in let Hw' := fresh "Hw'" in
    intros w' Hw'; unfold rec; cbn [data];
    by rewrite ?cpu_get_set_ne by done
  | cbn [heap]; by rewrite ?insert_insert_eq ].

Lemma push_next_alloc w val s :
  next (rec w s) = None → ChunkSize ≠ 0 →
  ∃ s', push_next w val s = Ok () s'
    ∧ is_state s' (items s) w
        {| next := Some (fresh (dom (heap s))); nextSize := 1;
           curr := curr (rec w s) |} s
        (<[fresh (dom (heap s)) := STL.push false val STL.new]> (heap s)).
Proof.
  unfold rec. intros Hn Hc. unfold push_next. exec. rewrite Hn. exec.
  rewrite decide_False by done. exec. rewrite lookup_insert_eq. exec.
  rewrite decide_False by done. exec.
  eexists. split; [done|]. state.
Qed.

Lemma push_next_append w val s a c :
  next (rec w s) = Some a → heap s !! a = Some c →
  nextSize (rec w s) ≠ ChunkSize → nextSize (rec w s) ≠ INT_MAX →
  ∃ s', push_next w val s = Ok () s'
    ∧ is_state s' (items s) w
        {| next := Some a; nextSize := nextSize (rec w s) + 1;
           curr := curr (rec w s) |} s
        (<[a := STL.push false val c]> (heap s)).
Proof.
  unfold rec. intros Hn Ha Hc Hm. unfold push_next. exec. rewrite Hn. exec.
  rewrite decide_False by done. exec. rewrite Hn. exec. rewrite Ha. exec.
  rewrite decide_False by done. exec. rewrite Hn.
  eexists. split; [done|]. state.
Qed.

Lemma push_next_publish w val s a :
  next (rec w s) = Some a → nextSize (rec w s) = ChunkSize →
  ∃ s', push_next w val s = Ok () s'
    ∧ is_state s' (items s ++ [Some a]) w
        {| next := Some (fresh (dom (heap s))); nextSize := 1;
           curr := curr (rec w s) |} s
        (<[fresh (dom (heap s)) := STL.push false val STL.new]> (heap s)).
Proof.
  unfold rec. intros Hn Hc. unfold push_next. exec. rewrite Hn. exec.
  rewrite decide_True by done. exec. rewrite Hn. exec.
  rewrite lookup_insert_eq. exec.
  rewrite decide_False by done. exec.
  eexists. split; [done|]. state.
Qed.

Lemma fill_curr_take w s p l :
  items s = p :: l →
  ∃ s', fill_curr w s = Ok () s'
    ∧ is_state s' l w
        {| next := next (rec w s); nextSize := nextSize (rec w s);
           curr := p |} s (heap s).
Proof.
  intros Hq. destruct (items_pop_cons _ _ _ Hq) as [H1 H2].
  unfold fill_curr, rec. exec. rewrite H1. exec.
  eexists. split; [done|]. state.
Qed.

Lemma fill_curr_adopt w s :
  items s = [] →
  ∃ s', fill_curr w s = Ok () s'
    ∧ is_state s' [] w
        {| next := None; nextSize := nextSize (rec w s);
           curr := next (rec w s) |} s (heap s).
Proof.
  intros Hq. destruct (items_pop_nil _ Hq) as [H1 H2].
  unfold fill_curr, rec. exec. rewrite H1. exec.
  eexists. split; [done|]. state.
Qed.

(** *** The invariant *)

Section invariant.
(** A meaningful [ChunkSize] is a positive [int]. *)
Hypothesis ChunkSize_pos : 1 ≤ ChunkSize.
Hypothesis ChunkSize_int : ChunkSize ≤ INT_MAX.
(** [strict]: no call of [fill_initial] has been made. *)
Variable strict : bool.

(** - no chunk is referenced from two places at once;
    - every chunk referenced is live;
    - [nextSize] is the number of items of the [next] chunk, which is at
      least 1 and at most [ChunkSize];
    - a chunk in the global FIFO holds at least 1 and at most [ChunkSize]
      items, and exactly [ChunkSize], with no null pointer queued, as long
      as [fill_initial] has not been called. *)
Record inv (s : ChunkedFIFO) : Prop := {
  inv_own sl sl' a :
    at_slot s sl = Some a → at_slot s sl' = Some a → sl = sl';
  inv_live sl a : at_slot s sl = Some a → is_Some (heap s !! a);
  inv_next w a :
    next (rec w s) = Some a →
    ∃ c, heap s !! a = Some c ∧ nextSize (rec w s) = len c
         ∧ 1 ≤ len c ≤ ChunkSize;
  inv_items i p :
    items s !! i = Some p →
    match p with
    | None => strict = false
    | Some a => ∃ c, heap s !! a = Some c ∧ 1 ≤ len c ≤ ChunkSize
                     ∧ (strict = true → len c = ChunkSize)
    end;
}.

Lemma inv_create : inv create.
Proof. split; [by intros [] [] | by intros [] | done | done]. Qed.

(** Pointers move between places, no chunk changes: [φ] tells, for a place
    of [s'], the place of [s] its pointer comes from. *)
Lemma inv_move s s' (φ : slot → option slot) :
  inv s →
  (∀ sl sl' x, φ sl = Some x → φ sl' = Some x → sl = sl') →
  (∀ sl a, at_slot s' sl = Some a →
           ∃ sl0, φ sl = Some sl0 ∧ at_slot s sl0 = Some a) →
  (∀ sl a, at_slot s' sl = Some a → heap s' !! a = heap s !! a) →
  (∀ w a, next (rec w s') = Some a →
          next (rec w s) = Some a ∧ nextSize (rec w s') = nextSize (rec w s)) →
  (∀ i p, items s' !! i = Some p →
          (∃ j, items s !! j = Some p)
          ∨ (strict = false ∧ (p = None ∨ ∃ w, next (rec w s) = p))
          ∨ (∃ w, next (rec w s) = p ∧ is_Some p
                  ∧ nextSize (rec w s) = ChunkSize)) →
  inv s'.
Proof.
  intros [Hown Hlive Hnext Hitems] Hinj Hφ Hheap Hn Hq. split.
  - intros sl sl' a H1 H2.
    destruct (Hφ _ _ H1) as (x & Hx & Hax).
    destruct (Hφ _ _ H2) as (x' & Hx' & Hax').
    assert (x = x') as <- by eauto. eauto.
  - intros sl a H1. rewrite (Hheap _ _ H1).
    destruct (Hφ _ _ H1) as (x & Hx & Hax). eauto.
  - intros w a H1. rewrite (Hheap (InNext w) a H1).
    destruct (Hn _ _ H1) as [H2 ->]. eauto.
  - intros i p Hi. destruct p as [a|].
    + rewrite (Hheap (InItems i) a) by (simpl; by rewrite Hi).
      destruct (Hq _ _ Hi) as [(j & Hj)|[(Hs & [?|(w & Hw)])|(w & Hw & _ & Hsz)]];
        [by apply (Hitems j (Some a)) | done | |].
      * destruct (Hnext _ _ Hw) as (c & Hc & _ & Hlen).
        exists c. split_and!; [done | lia | lia | congruence].
      * destruct (Hnext _ _ Hw) as (c & Hc & Hsz' & Hlen).
        exists c. split_and!; [done | lia | lia | congruence].
    + destruct (Hq _ _ Hi) as [(j & Hj)|[(Hs & _)|(w & _ & [? ?] & _)]];
        [by apply (Hitems j None) | done | done].
Qed.

(** The chunk at [a0], referenced from a [next] or a [curr], changes. *)
Lemma inv_store s s' sl0 a0 c' w n :
  inv s → at_slot s sl0 = Some a0 → (∀ i, sl0 ≠ InItems i) →
  is_state s' (items s) w n s (<[a0 := c']> (heap s)) →
  next n = next (rec w s) → curr n = curr (rec w s) →
  (sl0 = InNext w → nextSize n = len c' ∧ 1 ≤ len c' ≤ ChunkSize) →
  (sl0 ≠ InNext w → nextSize n = nextSize (rec w s)) →
  (∀ w', sl0 = InNext w' → w' = w) →
  inv s'.
Proof.
  intros [Hown Hlive Hnext Hitems] H0 Hni Hst Hnn Hnc Hw Hnw Hww.
  assert (Hat : ∀ sl, at_slot s' sl = at_slot s sl).
  { intros sl. rewrite (at_slot_is_state _ _ _ _ _ _ sl Hst).
    destruct sl as [i|w'|w']; simpl; [done|..];
      case_decide; by subst. }
  destruct Hst as (Hq & Hn & Ho & Hh). split.
  - intros sl sl' a. rewrite !Hat. apply Hown.
  - intros sl a. rewrite Hat, Hh. intros H1.
    destruct (decide (a = a0)) as [->|]; [by rewrite lookup_insert_eq|].
    rewrite lookup_insert_ne by done. eauto.
  - intros w' a H1. rewrite Hh.
    assert (H1' := H1). change (at_slot s' (InNext w') = Some a) in H1'.
    rewrite Hat in H1'. simpl in H1'.
    destruct (decide (a = a0)) as [->|Hne].
    + rewrite lookup_insert_eq.
      assert (sl0 = InNext w') as Hsl by eauto.
      specialize (Hww _ Hsl). subst w'. destruct (Hw Hsl) as [? ?].
      exists c'. rewrite Hn. done.
    + rewrite lookup_insert_ne by done.
      destruct (Hnext _ _ H1') as (c & Hc & Hsz & Hlen).
      exists c. split; [done|]. split; [|done].
      destruct (decide (w' = w)) as [->|]; [|by rewrite Ho].
      rewrite Hn, Hnw; [done|]. intros ->. simpl in H0. congruence.
  - intros i p. rewrite Hq, Hh. intros Hi. specialize (Hitems _ _ Hi).
    destruct p as [a|]; [|done].
    rewrite lookup_insert_ne; [done|]. intros <-.
    apply (Hni i). apply (Hown _ _ a0); [done|]. simpl. by rewrite Hi.
Qed.

(** A fresh chunk becomes the [next] of a worker that had none. *)
Lemma inv_alloc s s' w a c :
  inv s → heap s !! a = None → next (rec w s) = None →
  is_state s' (items s) w
    {| next := Some a; nextSize := len c; curr := curr (rec w s) |} s
    (<[a := c]> (heap s)) →
  1 ≤ len c ≤ ChunkSize →
  inv s'.
Proof.
  intros [Hown Hlive Hnext Hitems] Ha Hnone Hst Hlen.
  assert (Hat : ∀ sl, at_slot s' sl =
                      if decide (sl = InNext w) then Some a else at_slot s sl).
  { intros sl. rewrite (at_slot_is_state _ _ _ _ _ _ sl Hst).
    destruct sl as [i|w'|w']; simpl.
    - done.
    - repeat case_decide; congruence.
    - case_decide; by subst. }
  assert (Hfresh : ∀ sl, at_slot s sl ≠ Some a).
  { intros sl Hsl. destruct (Hlive _ _ Hsl) as [? ?]. congruence. }
  destruct Hst as (Hq & Hn & Ho & Hh). split.
  - intros sl sl' b. rewrite !Hat. repeat case_decide; subst; try done.
    + intros [= <-] Hb. by destruct (Hfresh sl').
    + intros Hb [= <-]. by destruct (Hfresh sl).
    + apply Hown.
  - intros sl b. rewrite Hat, Hh. case_decide.
    + intros [= <-]. by rewrite lookup_insert_eq.
    + intros Hb. rewrite lookup_insert_ne; [eauto|].
      intros <-. by destruct (Hfresh sl).
  - intros w' b H1. rewrite Hh.
    assert (H1' := H1). change (at_slot s' (InNext w') = Some b) in H1'.
    rewrite Hat in H1'. case_decide as E.
    + injection E as ->. injection H1' as <-. rewrite lookup_insert_eq.
      exists c. by rewrite Hn.
    + rewrite lookup_insert_ne by (intros <-; by destruct (Hfresh (InNext w'))).
      rewrite Ho by congruence. by apply Hnext.
  - intros i p. rewrite Hq, Hh. intros Hi. specialize (Hitems _ _ Hi).
    destruct p as [b|]; [|done].
    rewrite lookup_insert_ne; [done|]. intros <-.
    apply (Hfresh (InItems i)). simpl. by rewrite Hi.
Qed.

(** [s] with the global FIFO set to [q], the record of [w] to [n] and the
    heap to [h]. *)
Definition upd (s : ChunkedFIFO) (q : list (option nat)) (w : nat)
    (n : ProcRec) (h : gmap nat (STLAdaptor (stack T))) : ChunkedFIFO :=
  {| Items := with_wl (Queue q) (Items s); data := cpu_set (data s) w n;
     heap := h |}.

Lemma is_state_upd s q w n h : is_state (upd s q w n h) q w n s h.
Proof. unfold upd. state. Qed.

(** The [next] of [w] (or the null pointer it holds) goes to the back of
    the global FIFO. *)
Lemma inv_publish s s' w z :
  inv s →
  (next (rec w s) = None → strict = false) →
  (strict = true → nextSize (rec w s) = ChunkSize) →
  is_state s' (items s ++ [next (rec w s)]) w
    {| next := None; nextSize := z; curr := curr (rec w s) |} s (heap s) →
  inv s'.
Proof.
  intros Hinv Hnull Hfull Hst.
  apply (inv_move s s' (λ sl,
    match sl with
    | InItems i =>
        if decide (i < length (items s))%nat then Some (InItems i)
        else if decide (i = length (items s)) then Some (InNext w) else None
    | InNext w' => if decide (w' = w) then None else Some (InNext w')
    | InCurr w' => Some (InCurr w')
    end)); [done|..].
  - intros [i|w1|w1] [j|w2|w2] x; repeat case_decide; naive_solver lia.
  - intros sl a. rewrite (at_slot_is_state _ _ _ _ _ _ sl Hst).
    destruct sl as [i|w'|w']; simpl.
    + destruct (decide (i < length (items s))%nat).
      * rewrite lookup_app_l by done. eauto.
      * rewrite lookup_app_r by lia.
        destruct (decide (i = length (items s))) as [->|].
        -- rewrite Nat.sub_diag. simpl. eauto.
        -- rewrite lookup_ge_None_2 by (simpl; lia). done.
    + case_decide; [done | eauto].
    + case_decide; [subst|]; eauto.
  - intros sl a _. by destruct Hst as (_ & _ & _ & ->).
  - intros w' a. destruct Hst as (_ & Hn & Ho & _).
    destruct (decide (w' = w)) as [->|]; [by rewrite Hn | by rewrite Ho].
  - intros i p. destruct Hst as (-> & _). intros Hi.
    destruct (decide (i < length (items s))%nat).
    + rewrite lookup_app_l in Hi by done. eauto.
    + rewrite lookup_app_r in Hi by lia.
      apply list_lookup_singleton_Some in Hi as [_ <-].
      destruct strict eqn:Hs; [|eauto 10].
      right. right. exists w. split_and!; [done | | by apply Hfull].
      destruct (next (rec w s)); [done|]. by discriminate Hnull.
Qed.

(** The pointer at the head of the global FIFO becomes the [curr] of a
    worker that had none. *)
Lemma inv_take s s' w p l :
  inv s → items s = p :: l → curr (rec w s) = None →
  is_state s' l w
    {| next := next (rec w s); nextSize := nextSize (rec w s); curr := p |}
    s (heap s) →
  inv s'.
Proof.
  intros Hinv Hq Hc Hst.
  apply (inv_move s s' (λ sl,
    match sl with
    | InItems i => Some (InItems (S i))
    | InNext w' => Some (InNext w')
    | InCurr w' => if decide (w' = w) then Some (InItems 0) else Some (InCurr w')
    end)); [done|..].
  - intros [i|w1|w1] [j|w2|w2] x; repeat case_decide; naive_solver.
  - intros sl a. rewrite (at_slot_is_state _ _ _ _ _ _ sl Hst).
    destruct sl as [i|w'|w']; simpl.
    + intros Hi. exists (InItems (S i)). split; [done|]. simpl. by rewrite Hq.
    + case_decide; [subst|]; eauto.
    + case_decide; [subst|]; [|eauto]. intros ->.
      exists (InItems 0). split; [done|]. simpl. by rewrite Hq.
  - intros sl a _. by destruct Hst as (_ & _ & _ & ->).
  - intros w' a. destruct Hst as (_ & Hn & Ho & _).
    destruct (decide (w' = w)) as [->|]; [by rewrite Hn | by rewrite Ho].
  - intros i p'. destruct Hst as (-> & _). intros Hi.
    left. exists (S i). by rewrite Hq.
Qed.

(** The [next] of a worker that had no [curr] becomes its [curr]. *)
Lemma inv_adopt s s' w z :
  inv s → curr (rec w s) = None →
  is_state s' (items s) w
    {| next := None; nextSize := z; curr := next (rec w s) |} s (heap s) →
  inv s'.
Proof.
  intros Hinv Hc Hst.
  apply (inv_move s s' (λ sl,
    match sl with
    | InItems i => Some (InItems i)
    | InNext w' => if decide (w' = w) then None else Some (InNext w')
    | InCurr w' => if decide (w' = w) then Some (InNext w) else Some (InCurr w')
    end)); [done|..].
  - intros [i|w1|w1] [j|w2|w2] x; repeat case_decide; naive_solver.
  - intros sl a. rewrite (at_slot_is_state _ _ _ _ _ _ sl Hst).
    destruct sl as [i|w'|w']; simpl.
    + eauto.
    + case_decide; [done | eauto].
    + case_decide; [subst|]; eauto.
  - intros sl a _. by destruct Hst as (_ & _ & _ & ->).
  - intros w' a. destruct Hst as (_ & Hn & Ho & _).
    destruct (decide (w' = w)) as [->|]; [by rewrite Hn | by rewrite Ho].
  - intros i p'. destruct Hst as (-> & _). eauto.
Qed.

(** The [curr] chunk of a worker is deleted. *)
Lemma inv_drop s s' w a :
  inv s → curr (rec w s) = Some a →
  is_state s' (items s) w
    {| next := next (rec w s); nextSize := nextSize (rec w s); curr := None |}
    s (delete a (heap s)) →
  inv s'.
Proof.
  intros Hinv Hc Hst.
  assert (Hat : ∀ sl b, at_slot s' sl = Some b →
                        sl ≠ InCurr w ∧ at_slot s sl = Some b).
  { intros sl b. rewrite (at_slot_is_state _ _ _ _ _ _ sl Hst).
    destruct sl as [i|w'|w']; simpl.
    - done.
    - case_decide; [subst|]; done.
    - case_decide; [done|]. intros ?. split; [congruence | done]. }
  apply (inv_move s s' (λ sl,
    if decide (sl = InCurr w) then None else Some sl)); [done|..].
  - intros sl sl' x; repeat case_decide; congruence.
  - intros sl b Hb. destruct (Hat _ _ Hb) as [Hne Hb'].
    exists sl. by rewrite decide_False.
  - intros sl b Hb. destruct (Hat _ _ Hb) as [Hne Hb'].
    destruct Hst as (_ & _ & _ & ->). rewrite lookup_delete_ne; [done|].
    intros <-. apply Hne. by apply (inv_own _ Hinv _ _ a).
  - intros w' b. destruct Hst as (_ & Hn & Ho & _).
    destruct (decide (w' = w)) as [->|]; [by rewrite Hn | by rewrite Ho].
  - intros i p'. destruct Hst as (-> & _). eauto.
Qed.

Lemma chunks_eq w s :
  chunks w s = (length (items s)
                + (if next (rec w s) is Some _ then 1 else 0)
                + (if curr (rec w s) is Some _ then 1 else 0))%nat.
Proof. done. Qed.

(** [push_next] keeps the invariant, and never ends undefined. *)
Lemma push_next_inv w val s :
  inv s →
  ∃ s', push_next w val s = Ok () s' ∧ inv s'
    ∧ curr (rec w s') = curr (rec w s)
    ∧ is_Some (next (rec w s')).
Proof.
  intros Hinv. destruct (next (rec w s)) as [a|] eqn:Hn.
  - destruct (inv_next _ Hinv _ _ Hn) as (c & Hc & Hsz & Hlen).
    destruct (decide (nextSize (rec w s) = ChunkSize)) as [Hfull|Hpart].
    + destruct (push_next_publish w val s a Hn Hfull) as (s' & Hr & Hst).
      exists s'. split; [done|].
      assert (Hst' := Hst). destruct Hst' as (_ & Hn' & _).
      split; [|by rewrite Hn'].
      set (n1 := {| next := None; nextSize := nextSize (rec w s);
                    curr := curr (rec w s) |}).
      set (s1 := upd s (items s ++ [Some a]) w n1 (heap s)).
      assert (Hst1 : is_state s1 (items s ++ [Some a]) w n1 s (heap s))
        by apply is_state_upd.
      assert (Hinv1 : inv s1).
      { apply (inv_publish s s1 w (nextSize (rec w s))); try done.
        - by rewrite Hn.
        - by rewrite Hn. }
      destruct Hst1 as (Hq1 & Hn1 & Ho1 & Hh1).
      apply (inv_alloc s1 s' w (fresh (dom (heap s)))
               (STL.push false val STL.new)); try done.
      * rewrite Hh1. apply not_elem_of_dom, is_fresh.
      * by rewrite Hn1.
      * rewrite Hq1, Hn1, Hh1. simpl.
        destruct Hst as (Hq & Hn2 & Ho & Hh). split_and!; try done.
        intros w' Hw'. by rewrite Ho, Ho1.
    + assert (Hmax : nextSize (rec w s) ≠ INT_MAX) by lia.
      destruct (push_next_append w val s a c Hn Hc Hpart Hmax) as (s' & Hr & Hst).
      exists s'. split; [done|].
      assert (Hst' := Hst). destruct Hst' as (_ & Hn' & _).
      split; [|by rewrite Hn'].
      apply (inv_store s s' (InNext w) a (STL.push false val c) w
               {| next := Some a; nextSize := nextSize (rec w s) + 1;
                  curr := curr (rec w s) |}); try done.
      * intros _. unfold len in *. cbn. lia.
      * by intros w' [= ->].
  - destruct (push_next_alloc w val s Hn) as (s' & Hr & Hst); [lia|].
    exists s'. split; [done|].
    assert (Hst' := Hst). destruct Hst' as (_ & Hn' & _).
    split; [|by rewrite Hn'].
    apply (inv_alloc s s' w (fresh (dom (heap s)))
             (STL.push false val STL.new)); try done.
    apply not_elem_of_dom, is_fresh.
Qed.

(** [fill_curr], called by a worker without [curr], keeps the invariant,
    touches no chunk and does not add to the chunk pointers the worker can
    draw on. *)
Lemma fill_curr_inv w s :
  inv s → curr (rec w s) = None →
  ∃ s', fill_curr w s = Ok () s' ∧ inv s'
    ∧ (chunks w s' ≤ chunks w s)%nat ∧ heap s' = heap s.
Proof.
  intros Hinv Hc. destruct (items s) as [|p l] eqn:Hq.
  - destruct (fill_curr_adopt w s Hq) as (s' & Hr & Hst).
    exists s'. split; [done|]. split_and!.
    + apply (inv_adopt s s' w (nextSize (rec w s))); [done..|].
      by rewrite Hq.
    + destruct Hst as (Hq' & Hn' & _). rewrite !chunks_eq, Hq', Hn', Hq, Hc.
      simpl. lia.
    + by destruct Hst as (_ & _ & _ & ?).
  - destruct (fill_curr_take w s p l Hq) as (s' & Hr & Hst).
    exists s'. split; [done|]. split_and!.
    + by apply (inv_take s s' w p l).
    + destruct Hst as (Hq' & Hn' & _). rewrite !chunks_eq, Hq', Hn', Hq, Hc.
      simpl. destruct p; lia.
    + by destruct Hst as (_ & _ & _ & ?).
Qed.

(** A member function of the [curr] chunk of [w] is called. *)
Lemma on_curr_inv {A} w s a c (f : STLAdaptor (stack T) → A * STLAdaptor (stack T)) :
  inv s → curr (rec w s) = Some a → heap s !! a = Some c →
  ∃ s', on_chunk (Some a) f s = Ok (f c).1 s' ∧ inv s'
    ∧ is_state s' (items s) w (rec w s) s (<[a := (f c).2]> (heap s)).
Proof.
  intros Hinv Hc Ha. unfold on_chunk. rewrite Ha.
  eexists. split; [done|].
  assert (Hst : is_state
            {| Items := Items s; data := data s; heap := <[a:=(f c).2]> (heap s) |}
            (items s) w (rec w s) s (<[a := (f c).2]> (heap s))) by done.
  split; [|done].
  apply (inv_store s _ (InCurr w) a (f c).2 w (rec w s)); try done.
Qed.

(** [push_local] after its first statement. *)
Definition push_local_tail (w : nat) (val : T) : M () :=
  let! n := get_n w in
  if curr n is Some _ then
    on_chunk (curr n) (λ c, ((), STL.push false val c))
  else
    push_next w val.

Lemma push_local_unfold w val s :
  push_local w val s =
    if curr (rec w s) is Some _ then push_local_tail w val s
    else (fill_curr w;; push_local_tail w val) s.
Proof.
  unfold push_local, push_local_tail, bind at 1, get_n at 1, rec.
  by destruct (curr _).
Qed.

Lemma push_local_tail_inv w val s :
  inv s → ∃ s', push_local_tail w val s = Ok () s' ∧ inv s'.
Proof.
  intros Hinv. unfold push_local_tail, bind, get_n. fold (rec w s).
  destruct (curr (rec w s)) as [b|] eqn:Hb.
  - destruct (inv_live _ Hinv (InCurr w) b Hb) as [c Hc].
    destruct (on_curr_inv w s b c (λ c, ((), STL.push false val c))
                Hinv Hb Hc) as (s' & Hr & Hinv' & _).
    eauto.
  - destruct (push_next_inv w val s Hinv) as (s' & Hr & Hinv' & _). eauto.
Qed.

(** [push_local] keeps the invariant. *)
Lemma push_local_inv w val s :
  inv s → ∃ s', push_local w val s = Ok () s' ∧ inv s'.
Proof.
  intros Hinv. rewrite push_local_unfold.
  destruct (curr (rec w s)) as [b|] eqn:Hb.
  - by apply push_local_tail_inv.
  - destruct (fill_curr_inv w s Hinv Hb) as (s0 & Hr & Hinv0 & _).
    unfold bind. rewrite Hr. by apply push_local_tail_inv.
Qed.

Lemma push_inv w val s :
  inv s → ∃ s', push w val s = Ok () s' ∧ inv s'.
Proof.
  intros Hinv. unfold push. destruct pushToLocal.
  - by apply push_local_inv.
  - destruct (push_next_inv w val s Hinv) as (s' & Hr & Hinv' & _). eauto.
Qed.

(** One call of [pop], with [self] standing for the call it makes of
    itself, and the same call after its first statement. *)
Definition pop_tail (self : M (bool * T)) (w : nat) : M (bool * T) :=
  let! n := get_n w in
  if curr n is Some _ then
    let! e := on_chunk (curr n) (STL.empty false) in
    if e then
      delete_Chunk (curr n);;
      set_curr w None;;
      self
    else
      on_chunk (curr n) (STL.pop false)
  else
    ret (false, T_init).

Lemma pop_rec_unfold fuel w s :
  pop_rec (S fuel) w s =
    if curr (rec w s) is Some _ then pop_tail (pop_rec fuel w) w s
    else (fill_curr w;; pop_tail (pop_rec fuel w) w) s.
Proof.
  cbn [pop_rec]. unfold pop_tail, bind at 1, get_n at 1, rec.
  by destruct (curr _).
Qed.

Lemma chunk_empty (c : STLAdaptor (stack T)) :
  STL.empty false c = (bool_decide (stack_elems (wl c) = []), c).
Proof. done. Qed.

Lemma chunk_pop_cons (c : STLAdaptor (stack T)) x l :
  stack_elems (wl c) = x :: l →
  STL.pop false c = ((true, x), Adaptor (Stack l) (lockword c)).
Proof.
  intros Hl. unfold STL.pop. cbn. rewrite Hl. done.
Qed.

(** [pop_tail] with no [curr], with an empty [curr] chunk and with a
    [curr] chunk that holds items. *)
Lemma pop_tail_none self w s :
  curr (rec w s) = None → pop_tail self w s = Ok (false, T_init) s.
Proof. unfold rec. intros Hb. unfold pop_tail. exec. by rewrite Hb. Qed.

(** [s] after the [curr] chunk [b] of [w] has been deleted and [curr]
    set to null. *)
Definition drop_curr (w b : nat) (s : ChunkedFIFO) : ChunkedFIFO :=
  {| Items := Items s;
     data := cpu_set (data s) w
               {| next := next (rec w s); nextSize := nextSize (rec w s);
                  curr := None |};
     heap := delete b (heap s) |}.

Lemma is_state_drop_curr w b s :
  is_state (drop_curr w b s) (items s) w
    {| next := next (rec w s); nextSize := nextSize (rec w s); curr := None |}
    s (delete b (heap s)).
Proof. unfold drop_curr. state. Qed.

Lemma pop_tail_drop self w s b c :
  curr (rec w s) = Some b → heap s !! b = Some c → stack_elems (wl c) = [] →
  pop_tail self w s = self (drop_curr w b s).
Proof.
  unfold rec. intros Hb Hc Hl. unfold pop_tail. exec. rewrite Hb, Hc.
  rewrite chunk_empty, Hl. rewrite bool_decide_eq_true_2 by done. exec.
  rewrite lookup_insert_eq. exec. by rewrite delete_insert_eq.
Qed.

(** [s] after the chunk at [b] has become [c]. *)
Definition store (b : nat) (c : STLAdaptor (stack T)) (s : ChunkedFIFO) :
    ChunkedFIFO :=
  {| Items := Items s; data := data s; heap := <[b := c]> (heap s) |}.

Lemma is_state_store w b c s :
  is_state (store b c s) (items s) w (rec w s) s (<[b := c]> (heap s)).
Proof. done. Qed.

Lemma pop_tail_item self w s b c x l :
  curr (rec w s) = Some b → heap s !! b = Some c →
  stack_elems (wl c) = x :: l →
  pop_tail self w s = Ok (true, x) (store b (Adaptor (Stack l) (lockword c)) s).
Proof.
  unfold rec. intros Hb Hc Hl. unfold pop_tail. exec. rewrite Hb, Hc.
  rewrite chunk_empty, Hl. rewrite bool_decide_eq_false_2 by done. exec.
  rewrite lookup_insert_eq. exec.
  rewrite (chunk_pop_cons c x l Hl). exec. by rewrite insert_insert_eq.
Qed.

(** What one call of [pop] does once [curr] has been looked after: it
    returns without calling itself, the same whatever [self] is, or it
    deletes an empty [curr] chunk and calls itself, with one chunk less. *)
Lemma pop_tail_inv w s :
  inv s →
  (∃ r s', (∀ self, pop_tail self w s = Ok r s') ∧ inv s'
           ∧ (curr (rec w s) = None → r = (false, T_init)))
  ∨ (∃ s1, (∀ self, pop_tail self w s = self s1) ∧ inv s1
           ∧ (chunks w s1 < chunks w s)%nat
           ∧ (size (heap s1) < size (heap s))%nat).
Proof.
  intros Hinv.
  destruct (curr (rec w s)) as [b|] eqn:Hb; last first.
  { left. exists (false, T_init), s. split_and!; [|done..].
    intros self. by apply pop_tail_none. }
  destruct (inv_live _ Hinv (InCurr w) b Hb) as [c Hc].
  destruct (stack_elems (wl c)) as [|x l] eqn:Hl.
  - right. exists (drop_curr w b s).
    pose proof (is_state_drop_curr w b s) as Hst.
    split_and!.
    + intros self. by apply (pop_tail_drop self w s b c).
    + by apply (inv_drop s _ w b).
    + destruct Hst as (Hq & Hn & _). rewrite !chunks_eq, Hq, Hn, Hb.
      simpl. lia.
    + destruct Hst as (_ & _ & _ & ->). rewrite map_size_delete_Some by eauto.
      assert (size (heap s) ≠ 0%nat); [|lia].
      apply map_size_ne_0_lookup_2 with b. eauto.
  - left. exists (true, x), (store b (Adaptor (Stack l) (lockword c)) s).
    split_and!.
    + intros self. by apply (pop_tail_item self w s b c x l).
    + apply (inv_store s _ (InCurr w) b (Adaptor (Stack l) (lockword c)) w
               (rec w s)); try done.
    + done.
Qed.

(** One call of [pop], whole. *)
Lemma pop_call_inv w s :
  inv s →
  (∃ r s', (∀ fuel, pop_rec (S fuel) w s = Ok r s') ∧ inv s'
           ∧ (chunks w s = 0%nat ∨ size (heap s) = 0%nat →
              r = (false, T_init)))
  ∨ (∃ s1, (∀ fuel, pop_rec (S fuel) w s = pop_rec fuel w s1) ∧ inv s1
           ∧ (chunks w s1 < chunks w s)%nat
           ∧ (size (heap s1) < size (heap s))%nat).
Proof.
  intros Hinv.
  assert (Hlive : ∀ s0 b, inv s0 → curr (rec w s0) = Some b →
                          (0 < chunks w s0 ∧ 0 < size (heap s0))%nat).
  { intros s0 b Hinv0 Hb0. rewrite chunks_eq, Hb0. split; [lia|].
    destruct (inv_live _ Hinv0 (InCurr w) b Hb0) as [c Hc].
    assert (size (heap s0) ≠ 0%nat); [|lia].
    apply map_size_ne_0_lookup_2 with b. eauto. }
  destruct (curr (rec w s)) as [b|] eqn:Hb.
  - destruct (pop_tail_inv w s Hinv)
      as [(r & s' & Hr & Hinv' & Hz)|(s1 & Hr & Hinv1 & Hlt1 & Hlt2)].
    + left. exists r, s'. split_and!; [|done|].
      * intros fuel. by rewrite pop_rec_unfold, Hb.
      * destruct (Hlive s b Hinv Hb). lia.
    + right. exists s1. split_and!; [|done..].
      intros fuel. by rewrite pop_rec_unfold, Hb.
  - destruct (fill_curr_inv w s Hinv Hb) as (s0 & Hf & Hinv0 & Hle & Hh0).
    destruct (pop_tail_inv w s0 Hinv0)
      as [(r & s' & Hr & Hinv' & Hz)|(s1 & Hr & Hinv1 & Hlt1 & Hlt2)].
    + left. exists r, s'. split_and!; [|done|].
      * intros fuel. rewrite pop_rec_unfold, Hb. unfold bind. by rewrite Hf.
      * intros H0. apply Hz.
        destruct (curr (rec w s0)) as [b|] eqn:Hb0; [|done].
        destruct (Hlive s0 b Hinv0 Hb0). rewrite Hh0 in *. lia.
    + right. exists s1. split_and!; [|done|lia|by rewrite <- Hh0].
      intros fuel. rewrite pop_rec_unfold, Hb. unfold bind. by rewrite Hf.
Qed.

(** [pop] returns, with the same result for every fuel above the number
    of chunk pointers the worker can draw on or above the number of live
    chunks, and keeps the invariant. *)
Lemma pop_rec_inv w fuel : ∀ s,
  inv s → (chunks w s < fuel ∨ size (heap s) < fuel)%nat →
  ∃ r s', (∀ fuel', (chunks w s < fuel' ∨ size (heap s) < fuel')%nat →
                    pop_rec fuel' w s = Ok r s')
    ∧ inv s'
    ∧ (chunks w s = 0%nat ∨ size (heap s) = 0%nat → r = (false, T_init)).
Proof.
  induction fuel as [|fuel IH]; intros s Hinv Hlt; [lia|].
  destruct (pop_call_inv w s Hinv)
    as [(r & s' & Hr & Hinv' & Hz)|(s1 & Hr & Hinv1 & Hlt1 & Hlt2)].
  - exists r, s'. split_and!; [|done..].
    intros [|fuel'] Hf; [lia | apply Hr].
  - destruct (IH s1 Hinv1) as (r & s' & Hr' & Hinv' & _); [lia|].
    exists r, s'. split_and!; [|done|lia].
    intros [|fuel'] Hf; [lia|]. rewrite Hr. apply Hr'. lia.
Qed.

Lemma pop_inv w s :
  inv s → ∃ r s', pop w s = Ok r s' ∧ inv s'.
Proof.
  intros Hinv.
  destruct (pop_rec_inv w (S (chunks w s)) s Hinv) as (r & s' & Hr & Hinv' & _);
    [lia|].
  exists r, s'. split; [|done]. apply Hr. lia.
Qed.

Lemma fill_initial_loop_inv w ii : ∀ s,
  inv s → ∃ s', fill_initial_loop w ii s = Ok () s' ∧ inv s'.
Proof.
  induction ii as [|x ii IH]; intros s Hinv; simpl; [by eauto|].
  destruct (push_next_inv w x s Hinv) as (s1 & Hr & Hinv1 & _).
  unfold bind. rewrite Hr. by apply IH.
Qed.

(** The last statements of [fill_initial]: [Items.push(n.next)] and
    [n.next = 0]. *)
Lemma fill_initial_publish w s :
  ∃ s', (let! n := get_n w in
         on_Items (λ q, ((), STL.push true (next n) q));;
         set_next w None) s = Ok () s'
    ∧ is_state s' (items s ++ [next (rec w s)]) w
        {| next := None; nextSize := nextSize (rec w s);
           curr := curr (rec w s) |} s (heap s).
Proof. exec. eexists. split; [done|]. state. Qed.

(** [fill_initial] keeps the invariant that allows for partial chunks and
    null pointers in the global FIFO. *)
Lemma fill_initial_inv w ii s :
  strict = false → inv s → ∃ s', fill_initial w ii s = Ok () s' ∧ inv s'.
Proof.
  intros Hs Hinv. unfold fill_initial.
  destruct (fill_initial_loop_inv w ii s Hinv) as (s1 & Hr & Hinv1).
  unfold bind at 1. rewrite Hr.
  destruct (fill_initial_publish w s1) as (s' & Hr' & Hst).
  exists s'. split; [done|].
  apply (inv_publish s1 s' w (nextSize (rec w s1))); try done.
  intros. congruence.
Qed.

Definition is_fill (o : op) : bool :=
  match o with FillInitial _ _ => true | _ => false end.

Lemma step_inv o s :
  (strict = true → is_fill o = false) → inv s →
  ∃ s', step o s = Ok () s' ∧ inv s'.
Proof.
  intros Hs Hinv. destruct o as [w val|w val|w|w ii]; simpl.
  - by apply push_inv.
  - destruct (push_next_inv w val s Hinv) as (s' & Hr & Hinv' & _). eauto.
  - destruct (pop_inv w s Hinv) as (r & s' & Hr & Hinv').
    unfold bind. rewrite Hr. eauto.
  - apply fill_initial_inv; [|done]. destruct strict; [|done].
    by discriminate Hs.
Qed.

Lemma run_inv ops : ∀ s,
  (strict = true → forallb (λ o, negb (is_fill o)) ops = true) → inv s →
  ∃ s', run ops s = Ok () s' ∧ inv s'.
Proof.
  induction ops as [|o ops IH]; intros s Hs Hinv; simpl; [by eauto|].
  destruct (step_inv o s) as (s1 & Hr & Hinv1); [|done|].
  { intros H. specialize (Hs H). simpl in Hs.
    apply andb_true_iff in Hs as [Ho _]. by apply negb_true_iff. }
  unfold bind. rewrite Hr. apply IH; [|done].
  intros H. specialize (Hs H). simpl in Hs.
  by apply andb_true_iff in Hs as [_ ?].
Qed.

(** *** What a call does to the items held and to the other workers *)

(** The items of the live chunks. *)
Definition held_of (h : gmap nat (STLAdaptor (stack T))) : list T :=
  mjoin ((λ ac, stack_elems (wl ac.2)) <$> map_to_list h).

Definition held (s : ChunkedFIFO) : list T := held_of (heap s).

(** The chunks the worker [w] can lay hands on: its [next], its [curr] and
    those in the global FIFO. *)
Definition touched (w : nat) (s : ChunkedFIFO) (a : nat) : Prop :=
  next (rec w s) = Some a ∨ curr (rec w s) = Some a ∨ Some a ∈ items s.

(** [effect w ins outs s s']: from [s] to [s'] no record of a worker other
    than [w] changes, no chunk changes that [w] could not lay hands on,
    [w] gets hold of no chunk it could not lay hands on before unless the
    chunk is new, and the items held are those held before, with [ins]
    more and [outs] less. *)
Record effect (w : nat) (ins outs : list T) (s s' : ChunkedFIFO) : Prop := {
  eff_rec w' : w' ≠ w → rec w' s' = rec w' s;
  eff_touched a : touched w s' a → touched w s a ∨ heap s !! a = None;
  eff_heap a c : heap s !! a = Some c → ¬ touched w s a → heap s' !! a = Some c;
  eff_held : outs ++ held s' ≡ₚ ins ++ held s;
}.

(** The items a [pop] that returned [r] has handed out. *)
Definition popped (r : bool * T) : list T := if r.1 then [r.2] else [].

Lemma held_of_insert_fresh h a c :
  h !! a = None → held_of (<[a := c]> h) ≡ₚ stack_elems (wl c) ++ held_of h.
Proof. intros Ha. unfold held_of. by rewrite map_to_list_insert. Qed.

Lemma held_of_delete h a c :
  h !! a = Some c → held_of h ≡ₚ stack_elems (wl c) ++ held_of (delete a h).
Proof.
  intros Ha. unfold held_of. by rewrite <- (map_to_list_delete h a c Ha).
Qed.

Lemma held_of_update h a c' :
  held_of (<[a := c']> h) ≡ₚ stack_elems (wl c') ++ held_of (delete a h).
Proof.
  rewrite <- insert_delete_eq. apply held_of_insert_fresh, lookup_delete_eq.
Qed.

Lemma effect_refl w s : effect w [] [] s s.
Proof. split; [done | by left | done | done]. Qed.

Lemma effect_trans w i1 o1 i2 o2 s s1 s2 :
  effect w i1 o1 s s1 → effect w i2 o2 s1 s2 →
  effect w (i1 ++ i2) (o1 ++ o2) s s2.
Proof.
  intros [R1 T1 H1 P1] [R2 T2 H2 P2]. split.
  - intros w' Hw'. by rewrite R2, R1.
  - intros a Ha. destruct (T2 a Ha) as [Ht|Hn]; [by apply T1|].
    destruct (heap s !! a) as [c|] eqn:Hc; [|by right].
    assert (Hdec : Decision (touched w s a)) by (unfold touched; apply _).
    destruct Hdec as [?|Hnt]; [by left|].
    rewrite (H1 a c Hc Hnt) in Hn. done.
  - intros a c Hc Hnt. apply H2; [by apply H1|].
    intros Ht. destruct (T1 a Ht); [done | congruence].
  - rewrite <- (assoc_L (++)), P2, (Permutation_app_swap_app o1), P1.
    by rewrite (Permutation_app_swap_app i2), (assoc_L (++)).
Qed.

Lemma effect_intro w s s' q n h ins outs :
  is_state s' q w n s h →
  (∀ a, next n = Some a ∨ curr n = Some a ∨ Some a ∈ q →
        touched w s a ∨ heap s !! a = None) →
  (∀ a c, heap s !! a = Some c → ¬ touched w s a → h !! a = Some c) →
  outs ++ held_of h ≡ₚ ins ++ held s →
  effect w ins outs s s'.
Proof.
  intros (Hq & Hn & Ho & Hh) Ht Hf Hp. split.
  - done.
  - intros a Ha. apply Ht. unfold touched in Ha. by rewrite Hn, Hq in Ha.
  - intros a c. rewrite Hh. apply Hf.
  - unfold held at 1. by rewrite Hh.
Qed.

(** A fresh chunk holding [vs] becomes the [next] of [w], which had none
    or has had it queued. *)
Lemma effect_alloc w s s' q z c vs :
  is_state s' q w
    {| next := Some (fresh (dom (heap s))); nextSize := z;
       curr := curr (rec w s) |} s
    (<[fresh (dom (heap s)) := c]> (heap s)) →
  (∀ a, Some a ∈ q → touched w s a) →
  stack_elems (wl c) = vs →
  effect w vs [] s s'.
Proof.
  intros Hst Hq Hc.
  assert (Hfresh : heap s !! fresh (dom (heap s)) = None)
    by apply not_elem_of_dom, is_fresh.
  apply (effect_intro _ _ _ _ _ _ _ _ Hst); simpl.
  - intros a [[= <-]|[Ha|Ha]]; [by right | left; right; by left | left; by apply Hq].
  - intros a ca Ha _. rewrite lookup_insert_ne; [done | congruence].
  - rewrite held_of_insert_fresh by done. by rewrite Hc.
Qed.

(** The chunk at [a], which [w] can lay hands on, goes from [c] to [c']. *)
Lemma effect_store w s s' n a c c' ins outs :
  is_state s' (items s) w n s (<[a := c']> (heap s)) →
  next n = next (rec w s) → curr n = curr (rec w s) →
  touched w s a → heap s !! a = Some c →
  outs ++ stack_elems (wl c') ≡ₚ ins ++ stack_elems (wl c) →
  effect w ins outs s s'.
Proof.
  intros Hst Hn Hc Ht Ha Hp.
  apply (effect_intro _ _ _ _ _ _ _ _ Hst).
  - intros x Hx. left. unfold touched. by rewrite <- Hn, <- Hc.
  - intros x cx Hx Hnt. rewrite lookup_insert_ne; [done | congruence].
  - unfold held. rewrite held_of_update, (held_of_delete (heap s) a c Ha).
    by rewrite !(assoc_L (++)), Hp.
Qed.

Lemma push_next_effect w val s s' :
  inv s → push_next w val s = Ok () s' → effect w [val] [] s s'.
Proof.
  intros Hinv Hr. destruct (next (rec w s)) as [a|] eqn:Hn.
  - destruct (inv_next _ Hinv _ _ Hn) as (c & Hc & Hsz & Hlen).
    destruct (decide (nextSize (rec w s) = ChunkSize)) as [Hfull|Hpart].
    + destruct (push_next_publish w val s a Hn Hfull) as (s'' & Hr' & Hst).
      assert (s'' = s') as -> by congruence.
      apply (effect_alloc _ _ _ _ _ _ _ Hst); [|done].
      intros x [Hx|[= ->]%list_elem_of_singleton]%elem_of_app.
      * right. by right.
      * by left.
    + assert (Hmax : nextSize (rec w s) ≠ INT_MAX) by lia.
      destruct (push_next_append w val s a c Hn Hc Hpart Hmax) as (s'' & Hr' & Hst).
      assert (s'' = s') as -> by congruence.
      apply (effect_store _ _ _ _ a c _ _ _ Hst); try done.
      by left.
  - destruct (push_next_alloc w val s Hn) as (s'' & Hr' & Hst); [lia|].
    assert (s'' = s') as -> by congruence.
    apply (effect_alloc _ _ _ _ _ _ _ Hst); [|done].
    intros x Hx. right. by right.
Qed.

Lemma fill_curr_effect w s s' :
  fill_curr w s = Ok () s' → effect w [] [] s s'.
Proof.
  intros Hr. destruct (items s) as [|p l] eqn:Hq.
  - destruct (fill_curr_adopt w s Hq) as (s'' & Hr' & Hst).
    assert (s'' = s') as -> by congruence.
    apply (effect_intro _ _ _ _ _ _ _ _ Hst); simpl; [|done..].
    intros a [?|[Ha|Ha%elem_of_nil]]; [done | left; by left | done].
  - destruct (fill_curr_take w s p l Hq) as (s'' & Hr' & Hst).
    assert (s'' = s') as -> by congruence.
    apply (effect_intro _ _ _ _ _ _ _ _ Hst); simpl; [|done..].
    intros a [Ha|[->|Ha]]; left.
    + by left.
    + right. right. rewrite Hq. by left.
    + right. right. rewrite Hq. by right.
Qed.

Lemma push_local_tail_effect w val s s' :
  inv s → push_local_tail w val s = Ok () s' → effect w [val] [] s s'.
Proof.
  intros Hinv. unfold push_local_tail, bind, get_n. fold (rec w s).
  destruct (curr (rec w s)) as [b|] eqn:Hb; [|by apply push_next_effect].
  destruct (inv_live _ Hinv (InCurr w) b Hb) as [c Hc].
  destruct (on_curr_inv w s b c (λ c, ((), STL.push false val c))
              Hinv Hb Hc) as (s'' & Hr' & _ & Hst).
  intros Hr. assert (s'' = s') as -> by congruence.
  apply (effect_store _ _ _ _ b c _ _ _ Hst); try done.
  right. by left.
Qed.

Lemma push_effect w val s s' :
  inv s → push w val s = Ok () s' → effect w [val] [] s s'.
Proof.
  intros Hinv. unfold push. destruct pushToLocal; [|by apply push_next_effect].
  rewrite push_local_unfold. destruct (curr (rec w s)) as [b|] eqn:Hb.
  - by apply push_local_tail_effect.
  - destruct (fill_curr_inv w s Hinv Hb) as (s0 & Hf & Hinv0 & _).
    unfold bind. rewrite Hf. intros Hr.
    apply (effect_trans w [] [] [val] [] s s0 s'); [by apply fill_curr_effect|].
    by apply push_local_tail_effect.
Qed.

Lemma pop_tail_effect (self : M (bool * T)) w s r s' :
  inv s →
  (∀ s1, inv s1 → self s1 = Ok r s' →
         effect w [] (popped r) s1 s' ∧ (r.1 = false → r.2 = T_init)) →
  pop_tail self w s = Ok r s' →
  effect w [] (popped r) s s' ∧ (r.1 = false → r.2 = T_init).
Proof.
  intros Hinv Hself Hr. destruct (curr (rec w s)) as [b|] eqn:Hb.
  - destruct (inv_live _ Hinv (InCurr w) b Hb) as [c Hc].
    destruct (stack_elems (wl c)) as [|x l] eqn:Hl.
    + rewrite (pop_tail_drop self w s b c Hb Hc Hl) in Hr.
      pose proof (is_state_drop_curr w b s) as Hst.
      destruct (Hself (drop_curr w b s)) as [He Hz];
        [by apply (inv_drop s _ w b) | done |].
      split; [|done].
      apply (effect_trans w [] [] [] (popped r) s (drop_curr w b s) s');
        [|done].
      apply (effect_intro _ _ _ _ _ _ _ _ Hst); simpl.
      * intros a [Ha|[?|Ha]]; [left; by left | done | left; right; by right].
      * intros a ca Ha Hnt. rewrite lookup_delete_ne; [done|].
        intros <-. apply Hnt. right. by left.
      * unfold held. by rewrite (held_of_delete (heap s) b c Hc), Hl.
    + rewrite (pop_tail_item self w s b c x l Hb Hc Hl) in Hr.
      injection Hr as <- <-. split; [|done].
      apply (effect_store w s _ (rec w s) b c
               (Adaptor (Stack l) (lockword c)) [] [x]); try done.
      * right. by left.
      * by rewrite Hl.
  - rewrite pop_tail_none in Hr by done. injection Hr as <- <-.
    split; [apply effect_refl | done].
Qed.

Lemma pop_rec_effect w fuel : ∀ s r s',
  inv s → pop_rec fuel w s = Ok r s' →
  effect w [] (popped r) s s' ∧ (r.1 = false → r.2 = T_init).
Proof.
  induction fuel as [|fuel IH]; intros s r s' Hinv Hr; [done|].
  rewrite pop_rec_unfold in Hr. destruct (curr (rec w s)) as [b|] eqn:Hb.
  - apply (pop_tail_effect (pop_rec fuel w)); [done | | done].
    intros s1 Hinv1 Hr1. by apply IH.
  - destruct (fill_curr_inv w s Hinv Hb) as (s0 & Hf & Hinv0 & _).
    unfold bind in Hr. rewrite Hf in Hr.
    destruct (pop_tail_effect (pop_rec fuel w) w s0 r s') as [He Hz];
      [done | | done |].
    { intros s1 Hinv1 Hr1. by apply IH. }
    split; [|done].
    apply (effect_trans w [] [] [] (popped r) s s0 s'); [|done].
    by apply fill_curr_effect.
Qed.

Lemma fill_initial_loop_effect w ii : ∀ s s',
  inv s → fill_initial_loop w ii s = Ok () s' → effect w ii [] s s'.
Proof.
  induction ii as [|x ii IH]; intros s s' Hinv Hr; simpl in Hr.
  - injection Hr as <-. apply effect_refl.
  - destruct (push_next_inv w x s Hinv) as (s1 & Hr1 & Hinv1 & _).
    unfold bind in Hr. rewrite Hr1 in Hr.
    apply (effect_trans w [x] [] ii [] s s1 s').
    + by apply push_next_effect.
    + by apply IH.
Qed.

Lemma fill_initial_effect w ii s s' :
  inv s → fill_initial w ii s = Ok () s' → effect w ii [] s s'.
Proof.
  intros Hinv. unfold fill_initial.
  destruct (fill_initial_loop_inv w ii s Hinv) as (s1 & Hr1 & Hinv1).
  unfold bind at 1. rewrite Hr1.
  destruct (fill_initial_publish w s1) as (s'' & Hr' & Hst).
  intros Hr. assert (s'' = s') as -> by congruence.
  rewrite <- (app_nil_r ii).
  apply (effect_trans w ii [] [] [] s s1 s');
    [by apply fill_initial_loop_effect|].
  apply (effect_intro _ _ _ _ _ _ _ _ Hst); simpl; [|done..].
  intros a [?|[Ha|Ha]]; [done | left; right; by left |].
  left. apply elem_of_app in Ha as [Ha|Ha%list_elem_of_singleton].
  - right. by right.
  - by left.
Qed.

(** The worker that makes a call. *)
Definition caller (o : op) : nat :=
  match o with
  | Push w _ | Aborted w _ | Pop w | FillInitial w _ => w
  end.

Lemma step_effect o s s' :
  (strict = true → is_fill o = false) → inv s → step o s = Ok () s' →
  ∃ ins outs, effect (caller o) ins outs s s'.
Proof.
  intros Hs Hinv. destruct o as [w val|w val|w|w ii]; simpl.
  - intros Hr. exists [val], []. by apply push_effect.
  - intros Hr. exists [val], []. by apply push_next_effect.
  - unfold bind, pop.
    destruct (pop_rec (S (chunks w s)) w s) as [r s1| |] eqn:Hr; [|done..].
    intros [= <-]. exists [], (popped r). by eapply pop_rec_effect.
  - intros Hr. exists ii, []. by apply fill_initial_effect.
Qed.

(** A call of [w] leaves the chunks of another worker as they are. *)
Lemma effect_private w w' ins outs s s' :
  inv s → effect w ins outs s s' → w' ≠ w →
  rec w' s' = rec w' s
  ∧ chunk_items s' (next (rec w' s)) = chunk_items s (next (rec w' s))
  ∧ chunk_items s' (curr (rec w' s)) = chunk_items s (curr (rec w' s)).
Proof.
  intros Hinv [Hrec _ Hheap _] Hw.
  assert (Hslot : ∀ sl, (sl = InNext w' ∨ sl = InCurr w') →
            chunk_items s' (at_slot s sl) = chunk_items s (at_slot s sl)).
  { intros sl Hsl. destruct (at_slot s sl) as [a|] eqn:Ha; [|done].
    destruct (inv_live _ Hinv sl a Ha) as [c Hc].
    unfold chunk_items. simpl. rewrite Hc, (Hheap a c Hc); [done|].
    intros [Hn|[Hb|Hq]].
    - pose proof (inv_own _ Hinv (InNext w) sl a Hn Ha) as <-.
      destruct Hsl as [[= ->]|?]; done.
    - pose proof (inv_own _ Hinv (InCurr w) sl a Hb Ha) as <-.
      destruct Hsl as [?|[= ->]]; done.
    - apply list_elem_of_lookup in Hq as [i Hi].
      assert (Hi' : at_slot s (InItems i) = Some a) by (simpl; by rewrite Hi).
      pose proof (inv_own _ Hinv (InItems i) sl a Hi' Ha) as <-.
      by destruct Hsl. }
  split_and!;
    [by apply Hrec | apply (Hslot (InNext w')); by left
    | apply (Hslot (InCurr w')); by right].
Qed.

(** *** No chunk is lost sight of *)

(** Every live chunk is referenced from some place. *)
Definition no_leak (s : ChunkedFIFO) : Prop :=
  ∀ a, is_Some (heap s !! a) → ∃ sl, at_slot s sl = Some a.

(** A live chunk of [s'] is a live chunk of [s] or is referenced, and the
    pointer at the place [sl] of [s] is at the place [ψ sl] of [s']. *)
Lemma no_leak_move s s' (ψ : slot → slot) :
  no_leak s →
  (∀ a, is_Some (heap s' !! a) →
        is_Some (heap s !! a) ∨ ∃ sl, at_slot s' sl = Some a) →
  (∀ sl a, at_slot s sl = Some a → is_Some (heap s' !! a) →
           at_slot s' (ψ sl) = Some a) →
  no_leak s'.
Proof.
  intros L H1 H2 a Ha. destruct (H1 a Ha) as [Hs|?]; [|done].
  destruct (L a Hs) as [sl Hsl]. exists (ψ sl). by apply H2.
Qed.

(** The [next] chunk of [w], if it has one, goes to the back of the global
    FIFO, and a fresh chunk becomes its [next]. *)
Lemma no_leak_alloc s s' w z c :
  no_leak s →
  is_state s' (items s ++ option_list (Some <$> next (rec w s))) w
    {| next := Some (fresh (dom (heap s))); nextSize := z;
       curr := curr (rec w s) |} s
    (<[fresh (dom (heap s)) := c]> (heap s)) →
  no_leak s'.
Proof.
  intros L Hst.
  apply (no_leak_move s s'
           (λ sl, if decide (sl = InNext w) then InItems (length (items s))
                  else sl) L).
  - intros a Ha. destruct Hst as (_ & Hn & _ & Hh). rewrite Hh in Ha.
    destruct (decide (a = fresh (dom (heap s)))) as [->|Hne].
    + right. exists (InNext w). simpl. by rewrite Hn.
    + left. by rewrite lookup_insert_ne in Ha.
  - intros sl a Hsl _. rewrite (at_slot_is_state _ _ _ _ _ _ _ Hst).
    destruct (decide (sl = InNext w)) as [->|Hne].
    + simpl in Hsl. rewrite Hsl. simpl.
      by rewrite lookup_app_r, Nat.sub_diag.
    + destruct sl as [i|w'|w']; simpl in *.
      * destruct (items s !! i) as [p|] eqn:Hi; [|done].
        by rewrite (lookup_app_l_Some _ _ _ _ Hi).
      * rewrite decide_False; [done | congruence].
      * by destruct (decide (w' = w)) as [->|].
Qed.

(** A chunk that is referenced changes. *)
Lemma no_leak_store s s' w n a c c' :
  no_leak s → heap s !! a = Some c →
  is_state s' (items s) w n s (<[a := c']> (heap s)) →
  next n = next (rec w s) → curr n = curr (rec w s) →
  no_leak s'.
Proof.
  intros L Ha Hst Hn Hc. apply (no_leak_move s s' id L).
  - intros x Hx. left. destruct Hst as (_ & _ & _ & Hh). rewrite Hh in Hx.
    destruct (decide (x = a)) as [->|Hne]; [by eauto|].
    by rewrite lookup_insert_ne in Hx.
  - intros sl x Hsl _. rewrite (at_slot_is_state _ _ _ _ _ _ _ Hst).
    destruct sl as [i|w'|w']; simpl in *; [done|..];
      destruct (decide (w' = w)) as [->|]; congruence.
Qed.

Lemma no_leak_take s s' w p l :
  no_leak s → items s = p :: l → curr (rec w s) = None →
  is_state s' l w
    {| next := next (rec w s); nextSize := nextSize (rec w s); curr := p |}
    s (heap s) →
  no_leak s'.
Proof.
  intros L Hq Hc Hst.
  apply (no_leak_move s s'
           (λ sl, match sl with
                  | InItems O => InCurr w
                  | InItems (S i) => InItems i
                  | _ => sl
                  end) L).
  - intros a Ha. left. destruct Hst as (_ & _ & _ & Hh). by rewrite Hh in Ha.
  - intros sl a Hsl _.
    destruct sl as [[|i]|w'|w']; rewrite (at_slot_is_state _ _ _ _ _ _ _ Hst);
      simpl in *.
    + rewrite decide_True by done. by rewrite Hq in Hsl.
    + by rewrite Hq in Hsl.
    + by destruct (decide (w' = w)) as [->|].
    + destruct (decide (w' = w)) as [->|]; congruence.
Qed.

Lemma no_leak_adopt s s' w z :
  no_leak s → curr (rec w s) = None →
  is_state s' (items s) w
    {| next := None; nextSize := z; curr := next (rec w s) |} s (heap s) →
  no_leak s'.
Proof.
  intros L Hc Hst.
  apply (no_leak_move s s'
           (λ sl, if decide (sl = InNext w) then InCurr w else sl) L).
  - intros a Ha. left. destruct Hst as (_ & _ & _ & Hh). by rewrite Hh in Ha.
  - intros sl a Hsl _. rewrite (at_slot_is_state _ _ _ _ _ _ _ Hst).
    destruct (decide (sl = InNext w)) as [->|Hne].
    + simpl in *. by rewrite decide_True.
    + destruct sl as [i|w'|w']; simpl in *; [done|..].
      * rewrite decide_False; [done | congruence].
      * destruct (decide (w' = w)) as [->|]; congruence.
Qed.

Lemma no_leak_drop s s' w b :
  inv s → no_leak s → curr (rec w s) = Some b →
  is_state s' (items s) w
    {| next := next (rec w s); nextSize := nextSize (rec w s); curr := None |}
    s (delete b (heap s)) →
  no_leak s'.
Proof.
  intros Hinv L Hb Hst. apply (no_leak_move s s' id L).
  - intros a Ha. left. destruct Hst as (_ & _ & _ & Hh). rewrite Hh in Ha.
    destruct (decide (a = b)) as [->|Hne].
    + by rewrite lookup_delete_eq in Ha; destruct Ha.
    + by rewrite lookup_delete_ne in Ha.
  - intros sl a Hsl Ha. rewrite (at_slot_is_state _ _ _ _ _ _ _ Hst).
    destruct Hst as (_ & _ & _ & Hh). rewrite Hh in Ha.
    assert (a ≠ b).
    { intros ->. rewrite lookup_delete_eq in Ha. by destruct Ha. }
    destruct sl as [i|w'|w']; simpl in *; [done|..].
    + by destruct (decide (w' = w)) as [->|].
    + destruct (decide (w' = w)) as [->|]; [congruence | done].
Qed.

Lemma push_next_leak w val s s' :
  inv s → no_leak s → push_next w val s = Ok () s' → no_leak s'.
Proof.
  intros Hinv L Hr. destruct (next (rec w s)) as [a|] eqn:Hn.
  - destruct (inv_next _ Hinv _ _ Hn) as (c & Hc & Hsz & Hlen).
    destruct (decide (nextSize (rec w s) = ChunkSize)) as [Hfull|Hpart].
    + destruct (push_next_publish w val s a Hn Hfull) as (s'' & Hr' & Hst).
      assert (s'' = s') as -> by congruence.
      apply (no_leak_alloc s s' w 1 (STL.push false val STL.new) L).
      by rewrite Hn.
    + assert (Hmax : nextSize (rec w s) ≠ INT_MAX) by lia.
      destruct (push_next_append w val s a c Hn Hc Hpart Hmax)
        as (s'' & Hr' & Hst).
      assert (s'' = s') as -> by congruence.
      by apply (no_leak_store s s' w _ a c _ L Hc Hst).
  - destruct (push_next_alloc w val s Hn) as (s'' & Hr' & Hst); [lia|].
    assert (s'' = s') as -> by congruence.
    apply (no_leak_alloc s s' w 1 (STL.push false val STL.new) L).
    rewrite Hn. simpl. by rewrite app_nil_r.
Qed.

Lemma fill_curr_leak w s s' :
  no_leak s → curr (rec w s) = None → fill_curr w s = Ok () s' → no_leak s'.
Proof.
  intros L Hc Hr. destruct (items s) as [|p l] eqn:Hq.
  - destruct (fill_curr_adopt w s Hq) as (s'' & Hr' & Hst).
    assert (s'' = s') as -> by congruence.
    apply (no_leak_adopt s s' w (nextSize (rec w s)) L Hc). by rewrite Hq.
  - destruct (fill_curr_take w s p l Hq) as (s'' & Hr' & Hst).
    assert (s'' = s') as -> by congruence.
    by apply (no_leak_take s s' w p l).
Qed.

Lemma push_local_tail_leak w val s s' :
  inv s → no_leak s → push_local_tail w val s = Ok () s' → no_leak s'.
Proof.
  intros Hinv L. unfold push_local_tail, bind, get_n. fold (rec w s).
  destruct (curr (rec w s)) as [b|] eqn:Hb; [|by apply push_next_leak].
  destruct (inv_live _ Hinv (InCurr w) b Hb) as [c Hc].
  destruct (on_curr_inv w s b c (λ c, ((), STL.push false val c))
              Hinv Hb Hc) as (s'' & Hr' & _ & Hst).
  intros Hr. assert (s'' = s') as -> by congruence.
  by apply (no_leak_store s s' w _ b c _ L Hc Hst).
Qed.

Lemma push_leak w val s s' :
  inv s → no_leak s → push w val s = Ok () s' → no_leak s'.
Proof.
  intros Hinv L. unfold push. destruct pushToLocal; [|by apply push_next_leak].
  rewrite push_local_unfold. destruct (curr (rec w s)) as [b|] eqn:Hb.
  - by apply push_local_tail_leak.
  - destruct (fill_curr_inv w s Hinv Hb) as (s0 & Hf & Hinv0 & _).
    unfold bind. rewrite Hf. apply push_local_tail_leak; [done|].
    by apply (fill_curr_leak w s).
Qed.

Lemma pop_tail_leak (self : M (bool * T)) w s r s' :
  inv s → no_leak s →
  (∀ s1, inv s1 → no_leak s1 → self s1 = Ok r s' → no_leak s') →
  pop_tail self w s = Ok r s' → no_leak s'.
Proof.
  intros Hinv L Hself Hr. destruct (curr (rec w s)) as [b|] eqn:Hb.
  - destruct (inv_live _ Hinv (InCurr w) b Hb) as [c Hc].
    destruct (stack_elems (wl c)) as [|x l] eqn:Hl.
    + rewrite (pop_tail_drop self w s b c Hb Hc Hl) in Hr.
      pose proof (is_state_drop_curr w b s) as Hst.
      apply (Hself (drop_curr w b s)); [by apply (inv_drop s _ w b) | | done].
      by apply (no_leak_drop s _ w b).
    + rewrite (pop_tail_item self w s b c x l Hb Hc Hl) in Hr.
      injection Hr as <- <-.
      by apply (no_leak_store s _ w (rec w s) b c
                  (Adaptor (Stack l) (lockword c)) L Hc).
  - rewrite pop_tail_none in Hr by done. by injection Hr as <- <-.
Qed.

Lemma pop_rec_leak w fuel : ∀ s r s',
  inv s → no_leak s → pop_rec fuel w s = Ok r s' → no_leak s'.
Proof.
  induction fuel as [|fuel IH]; intros s r s' Hinv L Hr; [done|].
  rewrite pop_rec_unfold in Hr. destruct (curr (rec w s)) as [b|] eqn:Hb.
  - apply (pop_tail_leak (pop_rec fuel w) w s r); [done | done | | done].
    intros s1 Hinv1 L1 Hr1. by apply (IH s1 r).
  - destruct (fill_curr_inv w s Hinv Hb) as (s0 & Hf & Hinv0 & _).
    unfold bind in Hr. rewrite Hf in Hr.
    apply (pop_tail_leak (pop_rec fuel w) w s0 r); [done | | | done].
    + by apply (fill_curr_leak w s).
    + intros s1 Hinv1 L1 Hr1. by apply (IH s1 r).
Qed.

Lemma fill_initial_loop_leak w ii : ∀ s s',
  inv s → no_leak s → fill_initial_loop w ii s = Ok () s' → no_leak s'.
Proof.
  induction ii as [|x ii IH]; intros s s' Hinv L Hr; simpl in Hr.
  - by injection Hr as <-.
  - destruct (push_next_inv w x s Hinv) as (s1 & Hr1 & Hinv1 & _).
    unfold bind in Hr. rewrite Hr1 in Hr.
    apply (IH s1); [done | | done]. by apply (push_next_leak w x s).
Qed.

Lemma fill_initial_leak w ii s s' :
  inv s → no_leak s → fill_initial w ii s = Ok () s' → no_leak s'.
Proof.
  intros Hinv L. unfold fill_initial.
  destruct (fill_initial_loop_inv w ii s Hinv) as (s1 & Hr1 & Hinv1).
  unfold bind at 1. rewrite Hr1.
  destruct (fill_initial_publish w s1) as (s'' & Hr' & Hst).
  intros Hr. assert (s'' = s') as -> by congruence.
  assert (L1 : no_leak s1) by (by apply (fill_initial_loop_leak w ii s)).
  apply (no_leak_move s1 s'
           (λ sl, if decide (sl = InNext w) then InItems (length (items s1))
                  else sl) L1).
  - intros a Ha. left. destruct Hst as (_ & _ & _ & Hh). by rewrite Hh in Ha.
  - intros sl a Hsl _. rewrite (at_slot_is_state _ _ _ _ _ _ _ Hst).
    destruct (decide (sl = InNext w)) as [->|Hne].
    + simpl in Hsl. rewrite Hsl. simpl.
      by rewrite lookup_app_r, Nat.sub_diag.
    + destruct sl as [i|w'|w']; simpl in *.
      * destruct (items s1 !! i) as [p|] eqn:Hi; [|done].
        by rewrite (lookup_app_l_Some _ _ _ _ Hi).
      * rewrite decide_False; [done | congruence].
      * by destruct (decide (w' = w)) as [->|].
Qed.

Lemma run_leak ops : ∀ s s',
  strict = false → inv s → no_leak s → run ops s = Ok () s' → no_leak s'.
Proof.
  induction ops as [|o ops IH]; intros s s' Hs Hinv L Hr; simpl in Hr.
  { by injection Hr as <-. }
  destruct (step_inv o s) as (s1 & Hr1 & Hinv1); [congruence | done |].
  unfold bind in Hr. rewrite Hr1 in Hr. apply (IH s1); [done | done | | done].
  destruct o as [w val|w val|w|w ii]; simpl in Hr1.
  - by apply (push_leak w val s).
  - by apply (push_next_leak w val s).
  - unfold bind, pop in Hr1.
    destruct (pop_rec (S (chunks w s)) w s) as [r s2| |] eqn:Hp; [|done..].
    injection Hr1 as <-. by apply (pop_rec_leak w (S (chunks w s)) s r).
  - by apply (fill_initial_leak w ii s).
Qed.

End invariant.

(** *** A worker filling its [next] chunk *)

(** Pushing [vs] to a [next] chunk with room for them puts them on top of
    it, the last one pushed first, and leaves the global FIFO alone. *)
Lemma push_next_fill w vs : ∀ s a c,
  ChunkSize ≤ INT_MAX →
  next (rec w s) = Some a → heap s !! a = Some c →
  nextSize (rec w s) = len c → len c + Z.of_nat (length vs) ≤ ChunkSize →
  ∃ s', fill_initial_loop w vs s = Ok () s'
    ∧ is_state s' (items s) w
        {| next := Some a; nextSize := len c + Z.of_nat (length vs);
           curr := curr (rec w s) |} s
        (<[a := Adaptor (Stack (rev vs ++ stack_elems (wl c))) (lockword c)]>
           (heap s)).
Proof.
  induction vs as [|v vs IH]; intros s a c Hint Hn Ha Hsz Hlen.
  - exists s. split; [done|]. split_and!; try done.
    + destruct (rec w s). simpl in *. rewrite Z.add_0_r. congruence.
    + simpl. rewrite insert_id; [done|]. by destruct c as [[?] ?].
  - simpl in Hlen.
    destruct (push_next_append w v s a c) as (s1 & Hr & Hst); try done; [lia..|].
    destruct Hst as (Hq1 & Hn1 & Ho1 & Hh1).
    destruct (IH s1 a (STL.push false v c)) as (s' & Hr' & Hq & Hn' & Ho & Hh).
    + done.
    + by rewrite Hn1.
    + by rewrite Hh1, lookup_insert_eq.
    + rewrite Hn1. unfold len in *. cbn. lia.
    + unfold len in *. cbn. lia.
    + exists s'. split; [simpl; unfold bind; by rewrite Hr|].
      split_and!.
      * by rewrite Hq.
      * rewrite Hn', Hn1. unfold len. cbn. f_equal. lia.
      * intros w' Hw'. by rewrite Ho, Ho1.
      * rewrite Hh, Hh1, insert_insert_eq. cbn.
        by rewrite <- (assoc_L (++)).
Qed.

Lemma run_push_next w vs s :
  pushToLocal = false → run (Push w <$> vs) s = fill_initial_loop w vs s.
Proof.
  intros Hp. revert s. induction vs as [|v vs IH]; intros s; [done|].
  simpl. unfold push. rewrite Hp. unfold bind.
  destruct (push_next w v s); [apply IH | done..].
Qed.

(** *** [pop] right after the worker has filled its [next] chunk *)

(** With nothing in the global FIFO and no item in [curr], [pop] adopts
    the [next] chunk and hands out the item on top of it. *)
Lemma pop_adopts_next w s a c x l :
  items s = [] → next (rec w s) = Some a → heap s !! a = Some c →
  stack_elems (wl c) = x :: l →
  (curr (rec w s) = None
   ∨ ∃ b cb, curr (rec w s) = Some b ∧ b ≠ a ∧ heap s !! b = Some cb
             ∧ stack_elems (wl cb) = []) →
  ∃ s', pop w s = Ok (true, x) s'.
Proof.
  intros Hq Hn Ha Hl Hcurr.
  assert (Hadopt : ∀ fuel s0,
    items s0 = [] → curr (rec w s0) = None → next (rec w s0) = Some a →
    heap s0 !! a = Some c → ∃ s', pop_rec (S fuel) w s0 = Ok (true, x) s').
  { intros fuel s0 Hq0 Hc0 Hn0 Ha0. rewrite pop_rec_unfold, Hc0.
    destruct (fill_curr_adopt w s0 Hq0) as (s1 & Hr & _ & Hn1 & _ & Hh1).
    unfold bind. rewrite Hr.
    rewrite (pop_tail_item _ w s1 a c x l); [by eauto | | |done].
    - by rewrite Hn1, Hn0.
    - by rewrite Hh1. }
  unfold pop. rewrite chunks_eq, Hq, Hn.
  destruct Hcurr as [Hc|(b & cb & Hc & Hne & Hb & Hlb)]; rewrite Hc.
  - by apply Hadopt.
  - cbn [length Nat.add]. rewrite pop_rec_unfold, Hc.
    rewrite (pop_tail_drop _ w s b cb Hc Hb Hlb).
    destruct (is_state_drop_curr w b s) as (Hqd & Hnd & _ & Hhd).
    apply Hadopt.
    + by rewrite Hqd.
    + by rewrite Hnd.
    + by rewrite Hnd.
    + by rewrite Hhd, lookup_delete_ne.
Qed.

(** [pop] with items in the [curr] chunk hands out the one on top. *)
Lemma pop_from_curr w s b c x l :
  curr (rec w s) = Some b → heap s !! b = Some c →
  stack_elems (wl c) = x :: l →
  pop w s = Ok (true, x) (store b (Adaptor (Stack l) (lockword c)) s).
Proof.
  intros Hb Hc Hl. unfold pop. rewrite pop_rec_unfold, Hb.
  by apply pop_tail_item.
Qed.

(** With no item in [curr] and a chunk with items at the head of the
    global FIFO, [pop] takes that chunk and hands out the item on top of
    it. *)
Lemma pop_takes_queued w s a q c x l :
  items s = Some a :: q → heap s !! a = Some c →
  stack_elems (wl c) = x :: l →
  (curr (rec w s) = None
   ∨ ∃ b cb, curr (rec w s) = Some b ∧ b ≠ a ∧ heap s !! b = Some cb
             ∧ stack_elems (wl cb) = []) →
  ∃ s', pop w s = Ok (true, x) s'.
Proof.
  intros Hq Ha Hl Hcurr.
  assert (Htake : ∀ fuel s0,
    items s0 = Some a :: q → curr (rec w s0) = None →
    heap s0 !! a = Some c → ∃ s', pop_rec (S fuel) w s0 = Ok (true, x) s').
  { intros fuel s0 Hq0 Hc0 Ha0. rewrite pop_rec_unfold, Hc0.
    destruct (fill_curr_take w s0 _ _ Hq0) as (s1 & Hr & _ & Hn1 & _ & Hh1).
    unfold bind. rewrite Hr.
    rewrite (pop_tail_item _ w s1 a c x l); [by eauto | | |done].
    - by rewrite Hn1.
    - by rewrite Hh1. }
  unfold pop. rewrite chunks_eq, Hq.
  destruct Hcurr as [Hc|(b & cb & Hc & Hne & Hb & Hlb)]; rewrite Hc.
  - by apply Htake.
  - cbn [length Nat.add]. rewrite pop_rec_unfold, Hc.
    rewrite (pop_tail_drop _ w s b cb Hc Hb Hlb).
    destruct (is_state_drop_curr w b s) as (Hqd & Hnd & _ & Hhd).
    apply Htake.
    + by rewrite Hqd.
    + by rewrite Hnd.
    + by rewrite Hhd, lookup_delete_ne.
Qed.

(** With no item in [curr], nothing in the global FIFO and no [next]
    chunk, [pop] returns [false] with [value_type()]. *)
Lemma pop_finds_nothing w s :
  items s = [] → next (rec w s) = None →
  (curr (rec w s) = None
   ∨ ∃ b cb, curr (rec w s) = Some b ∧ heap s !! b = Some cb
             ∧ stack_elems (wl cb) = []) →
  ∃ s', pop w s = Ok (false, T_init) s'.
Proof.
  intros Hq Hn Hcurr.
  assert (Hnone : ∀ fuel s0,
    items s0 = [] → curr (rec w s0) = None → next (rec w s0) = None →
    ∃ s', pop_rec (S fuel) w s0 = Ok (false, T_init) s').
  { intros fuel s0 Hq0 Hc0 Hn0. rewrite pop_rec_unfold, Hc0.
    destruct (fill_curr_adopt w s0 Hq0) as (s1 & Hr & _ & Hn1 & _).
    unfold bind. rewrite Hr. rewrite pop_tail_none; [by eauto|].
    by rewrite Hn1. }
  unfold pop. rewrite chunks_eq, Hq, Hn.
  destruct Hcurr as [Hc|(b & cb & Hc & Hb & Hlb)]; rewrite Hc.
  - by apply Hnone.
  - cbn [length Nat.add]. rewrite pop_rec_unfold, Hc.
    rewrite (pop_tail_drop _ w s b cb Hc Hb Hlb).
    destruct (is_state_drop_curr w b s) as (Hqd & Hnd & _ & Hhd).
    apply Hnone.
    + by rewrite Hqd.
    + by rewrite Hnd.
    + by rewrite Hnd.
Qed.

(** [p && !p->empty()], as [empty] evaluates it. *)
Definition has_items (p : option nat) : M bool :=
  if p is Some _ then
    let! e := on_chunk p (STL.empty false) in ret (negb e)
  else ret false.

Lemma empty_unfold w :
  empty w =
    (let! n := get_n w in
     let! c := has_items (curr n) in
     if (c : bool) then ret false else
     let! c := has_items (next n) in
     if (c : bool) then ret false else
     on_Items (STL.empty true)).
Proof. done. Qed.

Lemma has_items_answer p s :
  (∀ a, p = Some a → is_Some (heap s !! a)) →
  ∃ s', has_items p s
        = Ok (if chunk_items s p is Some (_ :: _) then true else false) s'
    ∧ Items s' = Items s ∧ data s' = data s ∧ heap s' = heap s.
Proof.
  intros Hp. destruct p as [a|]; [|by exists s].
  destruct (Hp a eq_refl) as [c Hc].
  unfold has_items, chunk_items, bind, on_chunk, ret. simpl. rewrite Hc.
  simpl.
  exists {| Items := Items s; data := data s; heap := <[a := c]> (heap s) |}.
  split_and!; [|done|done|].
  - f_equal. by destruct (stack_elems (wl c)).
  - simpl. by apply insert_id.
Qed.

(** What [empty] answers, where the chunks of the worker are live: [false]
    when its [curr] or its [next] chunk holds an item, and otherwise
    whether the global FIFO holds no pointer. *)
Lemma empty_answer w s :
  (∀ b, curr (rec w s) = Some b → is_Some (heap s !! b)) →
  (∀ a, next (rec w s) = Some a → is_Some (heap s !! a)) →
  ∃ s1, empty w s
        = Ok (if chunk_items s (curr (rec w s)) is Some (_ :: _) then false
              else if chunk_items s (next (rec w s)) is Some (_ :: _) then false
              else bool_decide (items s = [])) s1.
Proof.
  intros Hcurr Hnext. rewrite empty_unfold. unfold bind at 1, get_n.
  fold (rec w s).
  destruct (has_items_answer (curr (rec w s)) s Hcurr)
    as (s1 & Hr1 & HI1 & HD1 & HH1).
  unfold bind at 1. rewrite Hr1.
  destruct (chunk_items s (curr (rec w s))) as [[|x l]|]; try by eauto.
  - destruct (has_items_answer (next (rec w s)) s1) as (s2 & Hr2 & HI2 & HD2 & HH2).
    { intros a Ha. rewrite HH1. by apply Hnext. }
    unfold bind at 1. rewrite Hr2.
    assert (Hci : chunk_items s1 (next (rec w s)) = chunk_items s (next (rec w s)))
      by (unfold chunk_items; by rewrite HH1).
    rewrite Hci.
    destruct (chunk_items s (next (rec w s))) as [[|x l]|]; try by eauto.
    + unfold on_Items, items. rewrite HI2, HI1. by eauto.
    + unfold on_Items, items. rewrite HI2, HI1. by eauto.
  - destruct (has_items_answer (next (rec w s)) s1) as (s2 & Hr2 & HI2 & HD2 & HH2).
    { intros a Ha. rewrite HH1. by apply Hnext. }
    unfold bind at 1. rewrite Hr2.
    assert (Hci : chunk_items s1 (next (rec w s)) = chunk_items s (next (rec w s)))
      by (unfold chunk_items; by rewrite HH1).
    rewrite Hci.
    destruct (chunk_items s (next (rec w s))) as [[|x l]|]; try by eauto.
    + unfold on_Items, items. rewrite HI2, HI1. by eauto.
    + unfold on_Items, items. rewrite HI2, HI1. by eauto.
Qed.

(** As long as [fill_initial] has not been called, [pop] returns an item
    exactly when [empty], called by the same worker in the same state,
    answers [false]. *)
Lemma empty_pop_agree w s :
  1 ≤ ChunkSize → inv true s →
  ∃ b s1 x s', empty w s = Ok b s1 ∧ pop w s = Ok (negb b, x) s'.
Proof.
  intros Hcs Hinv.
  destruct (empty_answer w s) as [s1 He].
  { intros b Hb. by apply (inv_live _ _ Hinv (InCurr w)). }
  { intros a Ha. by apply (inv_live _ _ Hinv (InNext w)). }
  assert (Hfull : ∀ c, 1 ≤ len c → ∃ x l, stack_elems (wl c) = x :: l).
  { intros c Hc. unfold len in Hc.
    destruct (stack_elems (wl c)) as [|x l]; [simpl in Hc; lia | eauto]. }
  assert (Hqueued : ∀ p q,
    items s = p :: q →
    (curr (rec w s) = None
     ∨ ∃ b cb, curr (rec w s) = Some b ∧ heap s !! b = Some cb
               ∧ stack_elems (wl cb) = []) →
    ∃ x s', pop w s = Ok (true, x) s').
  { intros p q Hq Hcurr.
    pose proof (inv_items _ _ Hinv 0%nat p) as Hp. rewrite Hq in Hp.
    specialize (Hp eq_refl). destruct p as [a|]; [|done].
    destruct Hp as (c & Hc & Hlen & _).
    destruct (Hfull c) as (x & l & Hl); [lia|].
    destruct (pop_takes_queued w s a q c x l Hq Hc Hl) as [s' Hr]; [|by eauto].
    destruct Hcurr as [?|(b & cb & Hb & Hcb & Hlb)]; [by left|].
    right. exists b, cb. split_and!; try done. intros ->.
    assert (Ha : at_slot s (InItems 0) = Some a) by (simpl; by rewrite Hq).
    by pose proof (inv_own _ _ Hinv (InCurr w) (InItems 0) a Hb Ha). }
  assert (Hlow :
    (curr (rec w s) = None
     ∨ ∃ b cb, curr (rec w s) = Some b ∧ heap s !! b = Some cb
               ∧ stack_elems (wl cb) = []) →
    ∃ x s',
      pop w s
      = Ok (negb (if chunk_items s (next (rec w s)) is Some (_ :: _)
                  then false else bool_decide (items s = [])), x) s').
  { intros Hcurr. destruct (next (rec w s)) as [a|] eqn:Hn.
    - destruct (inv_next _ _ Hinv w a Hn) as (c & Hc & _ & Hlen).
      destruct (Hfull c) as (x & l & Hl); [lia|].
      unfold chunk_items. simpl. rewrite Hc. simpl. rewrite Hl. simpl.
      destruct (items s) as [|p q] eqn:Hq; [|by eapply Hqueued].
      destruct (pop_adopts_next w s a c x l Hq Hn Hc Hl) as [s' Hr];
        [|by eauto].
      destruct Hcurr as [?|(b & cb & Hb & Hcb & Hlb)]; [by left|].
      right. exists b, cb. split_and!; try done. intros ->.
      by pose proof (inv_own _ _ Hinv (InCurr w) (InNext w) a Hb Hn).
    - unfold chunk_items. simpl.
      destruct (items s) as [|p q] eqn:Hq.
      + destruct (pop_finds_nothing w s Hq Hn Hcurr) as [s' Hr].
        rewrite bool_decide_eq_true_2 by done. by eauto.
      + rewrite bool_decide_eq_false_2 by done. by eapply Hqueued. }
  destruct (curr (rec w s)) as [b|] eqn:Hb.
  - destruct (inv_live _ _ Hinv (InCurr w) b Hb) as [cb Hcb].
    unfold chunk_items at 1 in He. simpl in He. rewrite Hcb in He.
    simpl in He. destruct (stack_elems (wl cb)) as [|x l] eqn:Hl.
    + destruct Hlow as (x & s' & Hr); [right; by eauto|].
      by eauto 6.
    + exists false, s1, x. eexists. split; [done|].
      by apply (pop_from_curr w s b cb x l).
  - destruct Hlow as (x & s' & Hr); [by left|].
    by eauto 6.
Qed.

(** *** Draining chunks *)

(** [n] calls of [pop] by [w] in a row, and what they returned, the first
    call first. *)
Fixpoint pop_n (n : nat) (w : nat) : M (list (bool * T)) :=
  match n with
  | O => ret []
  | S n =>
      let! r := pop w in
      let! rs := pop_n n w in
      ret (r :: rs)
  end.

Lemma pop_n_cons n w s r s1 rs s' :
  pop w s = Ok r s1 → pop_n n w s1 = Ok rs s' →
  pop_n (S n) w s = Ok (r :: rs) s'.
Proof. intros Hr Hrs. simpl. unfold bind. by rewrite Hr, Hrs. Qed.

(** As many calls of [pop] as the [curr] chunk of the worker holds items
    hand these out from the top down and touch nothing else. *)
Lemma pop_n_drains_curr w l : ∀ s b c,
  curr (rec w s) = Some b → heap s !! b = Some c → stack_elems (wl c) = l →
  ∃ s' c',
    pop_n (length l) w s = Ok ((λ x, (true, x)) <$> l) s'
    ∧ items s' = items s ∧ (∀ w', rec w' s' = rec w' s)
    ∧ heap s' !! b = Some c' ∧ stack_elems (wl c') = []
    ∧ (∀ a, a ≠ b → heap s' !! a = heap s !! a).
Proof.
  induction l as [|x l IH]; intros s b c Hb Hc Hl.
  - exists s, c. by split_and!.
  - pose proof (pop_from_curr w s b c x l Hb Hc Hl) as Hr.
    set (s1 := store b (Adaptor (Stack l) (lockword c)) s) in *.
    destruct (IH s1 b (Adaptor (Stack l) (lockword c)))
      as (s' & c' & Hrs & Hq & Hn & Hc' & Hl' & Hoth); [done | | done |].
    { unfold s1. simpl. by rewrite lookup_insert_eq. }
    exists s', c'. split_and!; try done.
    + by apply (pop_n_cons _ _ _ _ s1).
    + intros a Ha. rewrite Hoth by done. unfold s1. simpl.
      by rewrite lookup_insert_ne.
Qed.

(** The first [pop] of a worker without item in [curr], when a chunk with
    items is at the head of the global FIFO. *)
Lemma pop_queued_first w s a q c x l :
  items s = Some a :: q → heap s !! a = Some c →
  stack_elems (wl c) = x :: l →
  (curr (rec w s) = None
   ∨ ∃ b cb, curr (rec w s) = Some b ∧ b ≠ a ∧ heap s !! b = Some cb
             ∧ stack_elems (wl cb) = []) →
  ∃ s',
    pop w s = Ok (true, x) s'
    ∧ items s' = q
    ∧ rec w s' = {| next := next (rec w s); nextSize := nextSize (rec w s);
                    curr := Some a |}
    ∧ (∀ w', w' ≠ w → rec w' s' = rec w' s)
    ∧ heap s' !! a = Some (Adaptor (Stack l) (lockword c))
    ∧ (∀ a', a' ≠ a → curr (rec w s) ≠ Some a' →
             heap s' !! a' = heap s !! a').
Proof.
  intros Hq Ha Hl Hcurr.
  assert (Htake : ∀ fuel s0,
    items s0 = Some a :: q → curr (rec w s0) = None →
    heap s0 !! a = Some c →
    ∃ s', pop_rec (S fuel) w s0 = Ok (true, x) s'
      ∧ items s' = q
      ∧ rec w s' = {| next := next (rec w s0); nextSize := nextSize (rec w s0);
                      curr := Some a |}
      ∧ (∀ w', w' ≠ w → rec w' s' = rec w' s0)
      ∧ heap s' !! a = Some (Adaptor (Stack l) (lockword c))
      ∧ (∀ a', a' ≠ a → heap s' !! a' = heap s0 !! a')).
  { intros fuel s0 Hq0 Hc0 Ha0. rewrite pop_rec_unfold, Hc0.
    destruct (fill_curr_take w s0 _ _ Hq0) as (s1 & Hr & Hq1 & Hn1 & Ho1 & Hh1).
    unfold bind. rewrite Hr.
    rewrite (pop_tail_item _ w s1 a c x l);
      [|by rewrite Hn1 | by rewrite Hh1 | done].
    eexists. split; [done|].
    destruct (is_state_store w a (Adaptor (Stack l) (lockword c)) s1)
      as (Hq2 & Hn2 & Ho2 & Hh2).
    split_and!.
    - by rewrite Hq2.
    - by rewrite Hn2, Hn1.
    - intros w' Hw'. by rewrite Ho2, Ho1.
    - by rewrite Hh2, lookup_insert_eq.
    - intros a' Ha'. by rewrite Hh2, lookup_insert_ne, Hh1. }
  unfold pop. rewrite chunks_eq, Hq.
  destruct Hcurr as [Hc|(b & cb & Hc & Hne & Hb & Hlb)]; rewrite Hc.
  - destruct (Htake (length (Some a :: q)
                     + (if next (rec w s) is Some _ then 1 else 0) + 0)%nat
                s Hq Hc Ha) as (s' & Hr & ? & ? & ? & ? & Hoth).
    exists s'. split_and!; try done. intros a' Ha' _. by apply Hoth.
  - cbn [length Nat.add]. rewrite pop_rec_unfold, Hc.
    rewrite (pop_tail_drop _ w s b cb Hc Hb Hlb).
    destruct (is_state_drop_curr w b s) as (Hqd & Hnd & Hod & Hhd).
    destruct (Htake (length q + (if next (rec w s) is Some _ then 1 else 0)
                     + 1)%nat (drop_curr w b s))
      as (s' & Hr & Hq' & Hn' & Ho' & Ha' & Hoth).
    { by rewrite Hqd. } { by rewrite Hnd. }
    { by rewrite Hhd, lookup_delete_ne. }
    exists s'. split_and!; try done.
    + by rewrite Hn', Hnd.
    + intros w' Hw'. by rewrite Ho', Hod.
    + intros a' Ha1 Ha2. rewrite Hoth, Hhd by done.
      rewrite lookup_delete_ne; [done | congruence].
Qed.

(** The first [pop] of a worker without item in [curr], when the global
    FIFO holds nothing and its [next] chunk holds items. *)
Lemma pop_adopt_first w s a c x l :
  items s = [] → next (rec w s) = Some a → heap s !! a = Some c →
  stack_elems (wl c) = x :: l →
  (curr (rec w s) = None
   ∨ ∃ b cb, curr (rec w s) = Some b ∧ b ≠ a ∧ heap s !! b = Some cb
             ∧ stack_elems (wl cb) = []) →
  ∃ s',
    pop w s = Ok (true, x) s'
    ∧ items s' = []
    ∧ rec w s' = {| next := None; nextSize := nextSize (rec w s);
                    curr := Some a |}
    ∧ heap s' !! a = Some (Adaptor (Stack l) (lockword c)).
Proof.
  intros Hq Hn Ha Hl Hcurr.
  assert (Hadopt : ∀ fuel s0,
    items s0 = [] → curr (rec w s0) = None → next (rec w s0) = Some a →
    heap s0 !! a = Some c →
    ∃ s', pop_rec (S fuel) w s0 = Ok (true, x) s'
      ∧ items s' = []
      ∧ rec w s' = {| next := None; nextSize := nextSize (rec w s0);
                      curr := Some a |}
      ∧ heap s' !! a = Some (Adaptor (Stack l) (lockword c))).
  { intros fuel s0 Hq0 Hc0 Hn0 Ha0. rewrite pop_rec_unfold, Hc0.
    destruct (fill_curr_adopt w s0 Hq0) as (s1 & Hr & Hq1 & Hn1 & Ho1 & Hh1).
    unfold bind. rewrite Hr.
    rewrite (pop_tail_item _ w s1 a c x l);
      [|by rewrite Hn1, Hn0 | by rewrite Hh1 | done].
    eexists. split; [done|].
    destruct (is_state_store w a (Adaptor (Stack l) (lockword c)) s1)
      as (Hq2 & Hn2 & Ho2 & Hh2).
    split_and!.
    - by rewrite Hq2.
    - by rewrite Hn2, Hn1, Hn0.
    - by rewrite Hh2, lookup_insert_eq. }
  unfold pop. rewrite chunks_eq, Hq, Hn.
  destruct Hcurr as [Hc|(b & cb & Hc & Hne & Hb & Hlb)]; rewrite Hc.
  - by apply Hadopt.
  - cbn [length Nat.add]. rewrite pop_rec_unfold, Hc.
    rewrite (pop_tail_drop _ w s b cb Hc Hb Hlb).
    destruct (is_state_drop_curr w b s) as (Hqd & Hnd & Hod & Hhd).
    destruct (Hadopt 1%nat (drop_curr w b s)) as (s' & Hr & Hq' & Hn' & Ha');
      [by rewrite Hqd | by rewrite Hnd | by rewrite Hnd
      | by rewrite Hhd, lookup_delete_ne |].
    exists s'. split_and!; try done. by rewrite Hn', Hnd.
Qed.

(** With [pushToLocal], a worker that has a [curr] chunk pushes to it,
    whatever the chunk holds already. *)
Lemma run_push_curr w vs : ∀ s b c,
  pushToLocal = true → curr (rec w s) = Some b → heap s !! b = Some c →
  ∃ s' c',
    run (Push w <$> vs) s = Ok () s'
    ∧ items s' = items s ∧ (∀ w', rec w' s' = rec w' s)
    ∧ heap s' !! b = Some c'
    ∧ stack_elems (wl c') = rev vs ++ stack_elems (wl c)
    ∧ (∀ a, a ≠ b → heap s' !! a = heap s !! a).
Proof.
  induction vs as [|v vs IH]; intros s b c Hp Hb Hc.
  - exists s, c. by split_and!.
  - set (s1 := store b (STL.push false v c) s).
    assert (Hr : push w v s = Ok () s1).
    { unfold push. rewrite Hp, push_local_unfold, Hb.
      unfold push_local_tail, bind, get_n. fold (rec w s). rewrite Hb.
      unfold on_chunk. by rewrite Hc. }
    destruct (IH s1 b (STL.push false v c) Hp)
      as (s' & c' & Hrs & Hq & Hn & Hc' & Hl' & Hoth); [done | |].
    { unfold s1. simpl. by rewrite lookup_insert_eq. }
    exists s', c'. split_and!; try done.
    + simpl. unfold bind. by rewrite Hr.
    + rewrite Hl'. simpl. by rewrite <- (assoc_L (++)).
    + intros a Ha. rewrite Hoth by done. unfold s1. simpl.
      by rewrite lookup_insert_ne.
Qed.

(** With [pushToLocal], the first [push] of a worker that has no chunk and
    finds the global FIFO empty starts a [next] chunk, and its second
    [push] takes that chunk over as [curr]. *)
Lemma push_local_first w v s :
  pushToLocal = true → ChunkSize ≠ 0 →
  items s = [] → curr (rec w s) = None → next (rec w s) = None →
  ∃ s', push w v s = Ok () s'
    ∧ items s' = [] ∧ curr (rec w s') = None
    ∧ next (rec w s') = Some (fresh (dom (heap s)))
    ∧ heap s' = <[fresh (dom (heap s)) := STL.push false v STL.new]> (heap s).
Proof.
  intros Hp Hcs Hq Hc Hn. unfold push. rewrite Hp, push_local_unfold, Hc.
  destruct (fill_curr_adopt w s Hq) as (s0 & Hr0 & Hq0 & Hn0 & _ & Hh0).
  unfold bind. rewrite Hr0. unfold push_local_tail, bind, get_n.
  fold (rec w s0). rewrite Hn0. cbn [curr]. rewrite Hn.
  destruct (push_next_alloc w v s0) as (s' & Hr & Hq' & Hn' & _ & Hh');
    [by rewrite Hn0 | done |].
  exists s'. rewrite Hh0 in *. split_and!; try done.
  - by rewrite Hq'.
  - rewrite Hn'. cbn [curr]. by rewrite Hn0.
  - by rewrite Hn'.
Qed.

Lemma push_local_second w v s a c :
  pushToLocal = true →
  items s = [] → curr (rec w s) = None → next (rec w s) = Some a →
  heap s !! a = Some c →
  ∃ s', push w v s = Ok () s'
    ∧ items s' = [] ∧ curr (rec w s') = Some a ∧ next (rec w s') = None
    ∧ heap s' = <[a := STL.push false v c]> (heap s).
Proof.
  intros Hp Hq Hc Hn Ha. unfold push. rewrite Hp, push_local_unfold, Hc.
  destruct (fill_curr_adopt w s Hq) as (s0 & Hr0 & Hq0 & Hn0 & Ho0 & Hh0).
  unfold bind. rewrite Hr0. unfold push_local_tail, bind, get_n.
  fold (rec w s0). rewrite Hn0. cbn [curr]. rewrite Hn.
  unfold on_chunk. rewrite Hh0, Ha. eexists. split; [done|].
  split_and!; try done.
  - unfold rec. cbn [data]. fold (rec w s0). by rewrite Hn0.
  - unfold rec. cbn [data]. fold (rec w s0). by rewrite Hn0.
Qed.

(** With [pushToLocal], what one worker pushes to a fresh worklist comes
    back to it last in, first out: from the second [push] on everything
    goes to its [curr] chunk, however many items that makes. *)
Lemma local_pushes_lifo w vs :
  pushToLocal = true → ChunkSize ≠ 0 →
  ∃ s s',
    run (Push w <$> vs) create = Ok () s
    ∧ items s = []
    ∧ ((2 ≤ length vs)%nat →
       next (rec w s) = None
       ∧ chunk_items s (curr (rec w s)) = Some (rev vs))
    ∧ pop_n (length vs) w s = Ok ((λ x, (true, x)) <$> rev vs) s'.
Proof.
  intros Hp Hcs. destruct vs as [|v1 vs].
  { exists create, create. split_and!; try done. simpl. lia. }
  destruct (push_local_first w v1 create Hp Hcs)
    as (s1 & Hr1 & Hq1 & Hc1 & Hn1 & Hh1); [done..|].
  set (a := fresh (dom (heap create))) in *.
  assert (Ha1 : heap s1 !! a = Some (STL.push false v1 STL.new))
    by (by rewrite Hh1, lookup_insert_eq).
  destruct vs as [|v2 vs].
  { destruct (pop_adopt_first w s1 a _ v1 [] Hq1 Hn1 Ha1)
      as (s' & Hr' & _); [done | by left |].
    exists s1, s'. split_and!.
    - simpl. unfold bind. by rewrite Hr1.
    - done.
    - simpl. lia.
    - by apply (pop_n_cons _ _ _ _ s'). }
  destruct (push_local_second w v2 s1 a _ Hp Hq1 Hc1 Hn1 Ha1)
    as (s2 & Hr2 & Hq2 & Hc2 & Hn2 & Hh2).
  assert (Ha2 : heap s2 !! a
                = Some (STL.push false v2 (STL.push false v1 STL.new)))
    by (by rewrite Hh2, lookup_insert_eq).
  destruct (run_push_curr w vs s2 a _ Hp Hc2 Ha2)
    as (s & c & Hr & Hq & Hn & Hc & Hl & _).
  assert (Hl' : stack_elems (wl c) = rev (v1 :: v2 :: vs)).
  { rewrite Hl. simpl. by rewrite <- !(assoc_L (++)). }
  destruct (pop_n_drains_curr w (rev (v1 :: v2 :: vs)) s a c)
    as (s' & _ & Hpop & _); [by rewrite Hn | done | done |].
  exists s, s'. split_and!.
  - simpl. unfold bind. by rewrite Hr1, Hr2.
  - by rewrite Hq.
  - intros _. rewrite !Hn, Hn2, Hc2. split; [done|].
    unfold chunk_items. cbn [mbind option_bind]. rewrite Hc.
    cbn [mbind option_bind]. by rewrite Hl'.
  - by rewrite length_rev in Hpop.
Qed.

(** [fill_initial] by one worker of at most [ChunkSize] items, then [pop]
    by any worker: the items come back, the last one of the range first,
    and then the worklist is empty. *)
Lemma seed_then_drain w w' x ii :
  Z.of_nat (length (x :: ii)) ≤ ChunkSize → ChunkSize ≤ INT_MAX →
  ∃ s1 s2 s3,
    fill_initial w (x :: ii) create = Ok () s1
    ∧ length (items s1) = 1%nat
    ∧ pop_n (length (x :: ii)) w' s1
      = Ok ((λ x, (true, x)) <$> rev (x :: ii)) s2
    ∧ pop w' s2 = Ok (false, T_init) s3.
Proof.
  intros Hlen Hint. simpl in Hlen.
  destruct (push_next_alloc w x create) as (s0 & Hr0 & Hq0 & Hn0 & Ho0 & Hh0);
    [done | lia |].
  set (a := fresh (dom (heap create))) in *.
  destruct (push_next_fill w ii s0 a (STL.push false x STL.new))
    as (sl & Hrl & Hql & Hnl & Hol & Hhl);
    [done | by rewrite Hn0 | by rewrite Hh0, lookup_insert_eq
    | by rewrite Hn0 | unfold len; simpl; lia |].
  destruct (fill_initial_publish w sl) as (s1 & Hr1 & Hq1 & Hn1 & Ho1 & Hh1).
  assert (Hfill : fill_initial w (x :: ii) create = Ok () s1).
  { unfold fill_initial. simpl. unfold bind at 1 2. by rewrite Hr0, Hrl. }
  assert (Hitems : items s1 = [Some a]).
  { rewrite Hq1, Hql, Hq0, Hnl. done. }
  assert (Hrec : curr (rec w' s1) = None ∧ next (rec w' s1) = None).
  { destruct (decide (w' = w)) as [->|Hw].
    - rewrite Hn1, Hnl, Hn0. done.
    - rewrite Ho1, Hol, Ho0 by done. done. }
  destruct Hrec as [Hc1 Hnx1].
  assert (Ha1 : heap s1 !! a
                = Some (Adaptor (Stack (rev (x :: ii))) false)).
  { rewrite Hh1, Hhl, lookup_insert_eq. done. }
  destruct (rev (x :: ii)) as [|x' l'] eqn:Hrev.
  { apply (f_equal length) in Hrev. rewrite length_rev in Hrev. done. }
  destruct (pop_queued_first w' s1 a [] _ x' l' Hitems Ha1)
    as (s1' & Hp1 & Hq1' & Hn1' & _ & Ha1' & _); [done | by left |].
  destruct (pop_n_drains_curr w' l' s1' a _ (ltac:(by rewrite Hn1')) Ha1')
    as (s2 & c2 & Hp2 & Hq2 & Hn2 & Hc2 & Hl2 & _); [done|].
  destruct (pop_finds_nothing w' s2) as (s3 & Hp3).
  { by rewrite Hq2. } { by rewrite Hn2, Hn1'. }
  { right. exists a, c2. by rewrite Hn2, Hn1'. }
  exists s1, s2, s3. split_and!; try done.
  - by rewrite Hitems.
  - replace (length (x :: ii)) with (S (length l')).
    + by apply (pop_n_cons _ _ _ _ s1').
    + apply (f_equal length) in Hrev. rewrite length_rev in Hrev.
      simpl in *. lia.
Qed.

(** *** Chunks in FIFO order, items of a chunk in LIFO order *)

(** The chunk at [a] is live and holds [l], the item on top first. *)
Definition holds (s : ChunkedFIFO) (a : nat) (l : list T) : Prop :=
  ∃ c, heap s !! a = Some c ∧ stack_elems (wl c) = l.

(** [filled w s bs l]: the global FIFO holds, in order, chunks with the
    blocks of items [bs], the [next] chunk of [w] holds the block [l], each
    chunk has the last item of its block on top, and the [curr] chunk of
    [w], if it has one, is another chunk and holds nothing. *)
Definition filled (w : nat) (s : ChunkedFIFO) (bs : list (list T))
    (l : list T) : Prop :=
  ∃ (q : list nat) (a : nat),
    items s = Some <$> q
    ∧ length q = length bs
    ∧ (∀ i ai bi, q !! i = Some ai → bs !! i = Some bi → holds s ai (rev bi))
    ∧ NoDup (a :: q)
    ∧ next (rec w s) = Some a
    ∧ holds s a (rev l)
    ∧ nextSize (rec w s) = Z.of_nat (length l)
    ∧ (curr (rec w s) = None
       ∨ ∃ b, curr (rec w s) = Some b ∧ (b ∉ a :: q) ∧ holds s b []).

Lemma fill_initial_loop_app w xs ys s :
  fill_initial_loop w (xs ++ ys) s
  = bind (fill_initial_loop w xs) (λ _, fill_initial_loop w ys) s.
Proof.
  revert s. induction xs as [|x xs IH]; intros s; [done|].
  simpl. unfold bind. destruct (push_next w x s); [|done..].
  apply IH.
Qed.

Lemma pop_n_app n m w s rs s1 rs' s2 :
  pop_n n w s = Ok rs s1 → pop_n m w s1 = Ok rs' s2 →
  pop_n (n + m) w s = Ok (rs ++ rs') s2.
Proof.
  revert s rs. induction n as [|n IH]; intros s rs Hr Hr'.
  - by injection Hr as <- <-.
  - simpl in Hr. unfold bind in Hr.
    destruct (pop w s) as [r s0| |] eqn:Hp; [|done..].
    destruct (pop_n n w s0) as [rs0 s0'| |] eqn:Hn; [|done..].
    injection Hr as <- <-. simpl. unfold bind. rewrite Hp.
    by rewrite (IH s0 rs0 Hn Hr').
Qed.

(** The first block pushed to a fresh worklist. *)
Lemma filled_first w v b :
  1 + Z.of_nat (length b) ≤ ChunkSize → ChunkSize ≤ INT_MAX →
  ∃ s, fill_initial_loop w (v :: b) create = Ok () s
       ∧ filled w s [] (v :: b).
Proof.
  intros Hlen Hint.
  destruct (push_next_alloc w v create) as (s0 & Hr0 & Hq0 & Hn0 & Ho0 & Hh0);
    [done | lia |].
  set (a := fresh (dom (heap create))) in *.
  destruct (push_next_fill w b s0 a (STL.push false v STL.new))
    as (s & Hr & Hq & Hn & Ho & Hh);
    [done | by rewrite Hn0 | by rewrite Hh0, lookup_insert_eq
    | by rewrite Hn0 | unfold len; simpl; lia |].
  exists s. split; [simpl; unfold bind; by rewrite Hr0|].
  exists [], a. split_and!.
  - by rewrite Hq, Hq0.
  - done.
  - intros i ai bi Hi. by rewrite lookup_nil in Hi.
  - apply NoDup_singleton.
  - by rewrite Hn.
  - eexists. split; [by rewrite Hh, lookup_insert_eq | done].
  - rewrite Hn. unfold len. simpl. lia.
  - left. by rewrite Hn, Hn0.
Qed.

(** One more block pushed when the [next] chunk is full: that chunk goes
    to the back of the global FIFO and the block to a new [next] chunk. *)
Lemma filled_block w s bs l v b :
  filled w s bs l → Z.of_nat (length l) = ChunkSize →
  1 + Z.of_nat (length b) ≤ ChunkSize → ChunkSize ≤ INT_MAX →
  ∃ s', fill_initial_loop w (v :: b) s = Ok () s'
        ∧ filled w s' (bs ++ [l]) (v :: b).
Proof.
  intros (q & a & Hq & Hlq & Hbs & Hnd & Hn & Ha & Hsz & Hcurr) Hfull Hlen Hint.
  destruct (push_next_publish w v s a Hn) as (s0 & Hr0 & Hq0 & Hn0 & Ho0 & Hh0);
    [lia|].
  set (f := fresh (dom (heap s))) in *.
  destruct (push_next_fill w b s0 f (STL.push false v STL.new))
    as (s' & Hr & Hq' & Hn' & Ho' & Hh');
    [done | by rewrite Hn0 | by rewrite Hh0, lookup_insert_eq
    | by rewrite Hn0 | unfold len; simpl; lia |].
  assert (Hframe : ∀ x k, holds s x k → x ≠ f ∧ holds s' x k).
  { intros x k (c & Hc & Hk).
    assert (x ≠ f).
    { intros ->. apply (is_fresh (dom (heap s))). apply elem_of_dom. eauto. }
    split; [done|]. exists c. split; [|done].
    by rewrite Hh', lookup_insert_ne, Hh0, lookup_insert_ne. }
  apply NoDup_cons in Hnd as [Haq Hndq].
  exists s'. split; [simpl; unfold bind; by rewrite Hr0|].
  exists (q ++ [a]), f. split_and!.
  - by rewrite Hq', Hq0, Hq, fmap_app.
  - rewrite !length_app. simpl. lia.
  - intros i ai bi Hi Hb.
    destruct (decide (i < length q)%nat) as [Hlt|Hge].
    + rewrite lookup_app_l in Hi by done.
      rewrite lookup_app_l in Hb by lia. by apply (Hframe ai), (Hbs i).
    + rewrite lookup_app_r in Hi by lia. rewrite lookup_app_r in Hb by lia.
      rewrite Hlq in Hi.
      destruct (i - length bs)%nat as [|?]; [|done].
      injection Hi as <-. injection Hb as <-. by apply Hframe.
  - apply NoDup_cons. split.
    + intros [Hx|Hx%list_elem_of_singleton]%elem_of_app.
      * apply list_elem_of_lookup in Hx as [i Hi].
        destruct (lookup_lt_is_Some_2 bs i) as [bi Hbi];
          [apply lookup_lt_Some in Hi; lia|].
        by destruct (Hframe f _ (Hbs i f bi Hi Hbi)).
      * subst f. by destruct (Hframe a _ Ha).
    + apply NoDup_app. split_and!; [done | | apply NoDup_singleton].
      intros x Hx ->%list_elem_of_singleton. done.
  - by rewrite Hn'.
  - eexists. split; [by rewrite Hh', lookup_insert_eq | done].
  - rewrite Hn'. unfold len. simpl. lia.
  - rewrite Hn', Hn0. cbn [curr].
    destruct Hcurr as [?|(x & Hx & Hnx & Hhx)]; [by left|].
    right. exists x. destruct (Hframe x _ Hhx) as [Hne Hx'].
    split_and!; [done | | done].
    intros [->|[Hin| ->%list_elem_of_singleton]%elem_of_app]%elem_of_cons.
    + done.
    + apply Hnx. by right.
    + apply Hnx. by left.
Qed.

Lemma filled_blocks w bs' : ∀ s bs l l',
  1 ≤ ChunkSize → ChunkSize ≤ INT_MAX →
  filled w s bs l → Z.of_nat (length l) = ChunkSize →
  Forall (λ b, Z.of_nat (length b) = ChunkSize) bs' →
  l' ≠ [] → Z.of_nat (length l') ≤ ChunkSize →
  ∃ s', fill_initial_loop w (concat bs' ++ l') s = Ok () s'
        ∧ filled w s' (bs ++ l :: bs') l'.
Proof.
  induction bs' as [|b bs' IH];
    intros s bs l l' Hpos Hint Hs Hfull Hbs Hl' Hlen.
  - destruct l' as [|v l']; [done|]. simpl in Hlen.
    apply (filled_block w s bs l v l'); [done | done | lia | done].
  - apply Forall_cons in Hbs as [Hb Hbs].
    destruct b as [|v b]; [simpl in *; lia|]. simpl in Hb.
    destruct (filled_block w s bs l v b) as (s1 & Hr1 & Hs1);
      [done | done | lia | done |].
    destruct (IH s1 (bs ++ [l]) (v :: b) l') as (s' & Hr' & Hs');
      [done | done | done | simpl; lia | done..|].
    exists s'. split.
    + rewrite concat_cons, <- (assoc_L (++) (v :: b)).
      rewrite fill_initial_loop_app. unfold bind. by rewrite Hr1.
    + by rewrite <- (assoc_L (++)) in Hs'.
Qed.

(** Pushing blocks of [ChunkSize] items and a last block, not empty and
    no longer, to a fresh worklist. *)
Lemma filled_from_create w bs l :
  1 ≤ ChunkSize → ChunkSize ≤ INT_MAX →
  Forall (λ b, Z.of_nat (length b) = ChunkSize) bs →
  l ≠ [] → Z.of_nat (length l) ≤ ChunkSize →
  ∃ s, fill_initial_loop w (concat bs ++ l) create = Ok () s
       ∧ filled w s bs l.
Proof.
  intros Hpos Hint Hbs Hl Hlen. destruct bs as [|b bs].
  - destruct l as [|v l]; [done|]. simpl in Hlen.
    apply filled_first; [lia | done].
  - apply Forall_cons in Hbs as [Hb Hbs].
    destruct b as [|v b]; [simpl in *; lia|]. simpl in Hb.
    destruct (filled_first w v b) as (s1 & Hr1 & Hs1); [lia | done |].
    destruct (filled_blocks w bs s1 [] (v :: b) l) as (s & Hr & Hs);
      [done | done | done | simpl; lia | done..|].
    exists s. split; [|done].
    rewrite concat_cons, <- (assoc_L (++) (v :: b)).
    rewrite fill_initial_loop_app. unfold bind. by rewrite Hr1.
Qed.

(** The worker pops the chunks in the order of the global FIFO, its
    [next] chunk last, and the items of each from the top down. *)
Lemma filled_drain w bs : ∀ s l,
  filled w s bs l → Forall (λ b, b ≠ []) bs → l ≠ [] →
  ∃ s', pop_n (length (concat bs ++ l)) w s
        = Ok ((λ x, (true, x)) <$> (concat (@rev T <$> bs) ++ rev l)) s'.
Proof.
  induction bs as [|b bs IH]; intros s l Hs Hbs Hl.
  - destruct Hs as (q & a & Hq & Hlq & _ & Hnd & Hn & (c & Hc & Hcl) & _ & Hcurr).
    destruct q; [|done]. simpl in Hq.
    destruct (rev l) as [|x l1] eqn:Hrev.
    { apply (f_equal length) in Hrev. rewrite length_rev in Hrev.
      by destruct l. }
    destruct (pop_adopt_first w s a c x l1 Hq Hn Hc Hcl)
      as (s1 & Hp1 & Hq1 & Hn1 & Ha1).
    { destruct Hcurr as [?|(y & Hy & Hny & cy & Hcy & Hly)]; [by left|].
      right. exists y, cy. split_and!; try done. intros ->. apply Hny. by left. }
    destruct (pop_n_drains_curr w l1 s1 a _ (ltac:(by rewrite Hn1)) Ha1)
      as (s2 & _ & Hp2 & _); [done|].
    exists s2. simpl.
    replace (length l) with (S (length l1)).
    + by apply (pop_n_cons _ _ _ _ s1).
    + apply (f_equal length) in Hrev. rewrite length_rev in Hrev.
      simpl in Hrev. lia.
  - destruct Hs as (q & a & Hq & Hlq & Hheld & Hnd & Hn & Ha & Hsz & Hcurr).
    apply Forall_cons in Hbs as [Hb Hbs].
    destruct q as [|a1 q]; [done|]. simpl in Hq, Hlq.
    destruct (Hheld 0%nat a1 b eq_refl eq_refl) as (c1 & Hc1 & Hl1).
    destruct (rev b) as [|x l1] eqn:Hrev.
    { apply (f_equal length) in Hrev. rewrite length_rev in Hrev.
      by destruct b. }
    apply NoDup_cons in Hnd as [Haq Hndq].
    apply NoDup_cons in Hndq as [Ha1q Hndq].
    destruct (pop_queued_first w s a1 (Some <$> q) c1 x l1 Hq Hc1 Hl1)
      as (s1 & Hp1 & Hq1 & Hn1 & _ & Ha1 & Hoth1).
    { destruct Hcurr as [?|(y & Hy & Hny & cy & Hcy & Hly)]; [by left|].
      right. exists y, cy. split_and!; try done. intros ->. apply Hny.
      right. by left. }
    destruct (pop_n_drains_curr w l1 s1 a1 _ (ltac:(by rewrite Hn1)) Ha1)
      as (s2 & c2 & Hp2 & Hq2 & Hn2 & Hc2 & Hl2 & Hoth2); [done|].
    assert (Hframe : ∀ y k, holds s y k → y ≠ a1 →
                            curr (rec w s) ≠ Some y → holds s2 y k).
    { intros y k (cy & Hcy & Hk) Hy1 Hy2. exists cy. split; [|done].
      rewrite Hoth2 by done. by rewrite Hoth1. }
    assert (Hnc : ∀ y, y ∈ a :: a1 :: q → curr (rec w s) ≠ Some y).
    { intros y Hy Hcy.
      destruct Hcurr as [?|(z & Hz & Hnz & _)]; [congruence|].
      apply Hnz. congruence. }
    destruct (IH s2 l) as (s' & Hp'); [|done|done|].
    { exists q, a. split_and!.
      - by rewrite Hq2.
      - lia.
      - intros i ai bi Hi Hbi.
        apply (Hframe ai); [by apply (Hheld (S i)) | |].
        + intros ->. apply Ha1q. by eapply list_elem_of_lookup_2.
        + apply Hnc. right. right. by eapply list_elem_of_lookup_2.
      - apply NoDup_cons. split; [|done]. intros Hin. apply Haq. by right.
      - by rewrite Hn2, Hn1.
      - apply (Hframe a); [done | |].
        + intros ->. apply Haq. by left.
        + apply Hnc. by left.
      - by rewrite Hn2, Hn1.
      - right. exists a1. rewrite Hn2, Hn1. split_and!; [done | | by exists c2].
        intros [->|Hin]%elem_of_cons; [|done]. apply Haq. by left. }
    exists s'.
    change (concat (b :: bs) ++ l) with ((b ++ concat bs) ++ l).
    rewrite <- (assoc_L (++)), (length_app b).
    replace (length b) with (S (length l1)); last first.
    { apply (f_equal length) in Hrev. rewrite length_rev in Hrev.
      simpl in Hrev. lia. }
    change (concat (@rev T <$> b :: bs) ++ rev l)
      with ((rev b ++ concat (@rev T <$> bs)) ++ rev l).
    rewrite Hrev, <- (assoc_L (++)), fmap_app.
    apply (pop_n_app _ _ _ _ _ s2); [|done].
    by apply (pop_n_cons _ _ _ _ s1).
Qed.

(** What one worker pushes reaches another worker only with the chunk
    it is in: nothing of a first chunk that is not yet queued, and the
    item on top of the first chunk once a further [push] has queued it. *)
Lemma pushes_visible w w' :
  1 ≤ ChunkSize → ChunkSize ≤ INT_MAX → pushToLocal = false → w' ≠ w →
  (∀ l, l ≠ [] → Z.of_nat (length l) ≤ ChunkSize →
     ∃ s s', run (Push w <$> l) create = Ok () s
             ∧ pop w' s = Ok (false, T_init) s')
  ∧ (∀ b x l,
       Z.of_nat (length (b ++ [x])) = ChunkSize →
       l ≠ [] → Z.of_nat (length l) ≤ ChunkSize →
       ∃ s s', run (Push w <$> ((b ++ [x]) ++ l)) create = Ok () s
               ∧ pop w' s = Ok (true, x) s').
Proof.
  intros Hpos Hint Hp Hw.
  assert (Hother : ∀ vs s,
    fill_initial_loop w vs create = Ok () s →
    curr (rec w' s) = None ∧ next (rec w' s) = None).
  { intros vs s Hr.
    pose proof (fill_initial_loop_effect Hpos Hint false w vs create s
                  (inv_create false) Hr) as He.
    by rewrite (eff_rec _ _ _ _ _ He w' Hw). }
  split.
  - intros l Hl Hlen.
    destruct (filled_from_create w [] l Hpos Hint) as (s & Hr & Hs);
      [done..|].
    simpl in Hr. destruct (Hother l s Hr) as [Hc Hn].
    destruct Hs as (q & a & Hq & Hlq & _). destruct q; [|done].
    destruct (pop_finds_nothing w' s Hq Hn) as [s' Hpop]; [by left|].
    exists s, s'. split; [|done]. by rewrite run_push_next.
  - intros b x l Hb Hl Hlen.
    destruct (filled_from_create w [b ++ [x]] l Hpos Hint) as (s & Hr & Hs);
      [by constructor | done..|].
    simpl in Hr. rewrite app_nil_r in Hr. destruct (Hother _ s Hr) as [Hc Hn].
    destruct Hs as (q & a & Hq & Hlq & Hheld & _).
    destruct q as [|a1 [|? ?]]; [done | | done].
    destruct (Hheld 0%nat a1 (b ++ [x]) eq_refl eq_refl) as (c & Hc1 & Hl1).
    rewrite rev_unit in Hl1.
    destruct (pop_takes_queued w' s a1 [] c x (rev b) Hq Hc1 Hl1) as [s' Hpop];
      [by left|].
    exists s, s'. split; [|done]. by rewrite run_push_next.
Qed.

(** A worker without [curr] chunk that finds the null pointer at the head
    of the global FIFO takes it, and returns [false]: its [next] chunk and
    the chunks queued behind the null pointer are not looked at. *)
Lemma pop_null_queued w s q :
  items s = None :: q → curr (rec w s) = None →
  ∃ s', pop w s = Ok (false, T_init) s'
    ∧ items s' = q ∧ heap s' = heap s ∧ (∀ w', rec w' s' = rec w' s).
Proof.
  intros Hq Hc. unfold pop. rewrite pop_rec_unfold, Hc.
  destruct (fill_curr_take w s None q Hq) as (s1 & Hr & Hq1 & Hn1 & Ho1 & Hh1).
  unfold bind. rewrite Hr. rewrite pop_tail_none by (by rewrite Hn1).
  exists s1. split_and!; try done.
  intros w'. destruct (decide (w' = w)) as [->|Hw]; [|by apply Ho1].
  rewrite Hn1. destruct (rec w s). simpl in *. by subst.
Qed.

(** *** [pop] never runs out of fuel *)

Lemma pop_tail_dangling self w s b :
  curr (rec w s) = Some b → heap s !! b = None →
  pop_tail self w s = Undefined.
Proof.
  unfold rec. intros Hb Hc. unfold pop_tail. exec. by rewrite Hb, Hc.
Qed.

(** In any state whatever, fuel for one call more than there are live
    chunks is enough: every call [pop] makes of itself comes after the
    [delete] of a live chunk. *)
Lemma pop_rec_enough_fuel w fuel : ∀ s,
  (size (heap s) < fuel)%nat → pop_rec fuel w s ≠ OutOfFuel.
Proof.
  induction fuel as [|fuel IH]; intros s Hf; [lia|].
  assert (Htail : ∀ s0, heap s0 = heap s →
                        pop_tail (pop_rec fuel w) w s0 ≠ OutOfFuel).
  { intros s0 Hs0. destruct (curr (rec w s0)) as [b|] eqn:Hb.
    - destruct (heap s0 !! b) as [c|] eqn:Hc.
      + destruct (stack_elems (wl c)) as [|x l] eqn:Hl.
        * rewrite (pop_tail_drop _ w s0 b c Hb Hc Hl). apply IH.
          destruct (is_state_drop_curr w b s0) as (_ & _ & _ & ->).
          rewrite map_size_delete_Some by eauto.
          assert (size (heap s0) ≠ 0%nat)
            by (apply map_size_ne_0_lookup_2 with b; eauto).
          rewrite Hs0 in *. lia.
        * by rewrite (pop_tail_item _ w s0 b c x l Hb Hc Hl).
      + by rewrite (pop_tail_dangling _ w s0 b Hb Hc).
    - by rewrite pop_tail_none. }
  rewrite pop_rec_unfold. destruct (curr (rec w s)) as [b|] eqn:Hb.
  - by apply Htail.
  - unfold bind. destruct (items s) as [|p l] eqn:Hq.
    + destruct (fill_curr_adopt w s Hq) as (s0 & -> & _ & _ & _ & Hh).
      by apply Htail.
    + destruct (fill_curr_take w s p l Hq) as (s0 & -> & _ & _ & _ & Hh).
      by apply Htail.
Qed.

(** Every state a run of calls reaches from the constructor. *)
Lemma reachable_inv ops s :
  1 ≤ ChunkSize → ChunkSize ≤ INT_MAX →
  run ops create = Ok () s → inv false s.
Proof.
  intros H1 H2 Hr.
  destruct (run_inv H1 H2 false ops create) as (s' & Hr' & Hinv);
    [done | apply inv_create|].
  congruence.
Qed.

End ChunkedFIFO.

Arguments ChunkedFIFO T : clear implicits.
Arguments M T A : clear implicits.

(** *** The properties of the specification *)

(** The batching scenario: a worker pushes four items and the global FIFO
    holds no chunk; it pushes a fifth and the global FIFO holds exactly
    one chunk, with the first four items, while the [next] chunk of the
    worker holds the fifth alone. *)
Definition batching {T} (T_init : T) (pushToLocal : bool) (w : nat)
    (v1 v2 v3 v4 v5 : T) : Prop :=
  ∃ s4 s5 a a',
    run T_init 4 pushToLocal [Push w v1; Push w v2; Push w v3; Push w v4]
      create = Ok () s4
    ∧ items s4 = []
    ∧ step T_init 4 pushToLocal (Push w v5) s4 = Ok () s5
    ∧ items s5 = [Some a]
    ∧ chunk_items s5 (Some a) = Some [v4; v3; v2; v1]
    ∧ next (rec w s5) = Some a'
    ∧ chunk_items s5 (Some a') = Some [v5].

(** C2, as amended: with [ChunkSize = 4] and [pushToLocal = false] the
    batching scenario holds, for every worker and every five items. *)
Theorem chunked_batching {T} (T_init : T) (w : nat) (v1 v2 v3 v4 v5 : T) :
  batching T_init false w v1 v2 v3 v4 v5.
Proof.
  unfold batching.
  destruct (push_next_alloc T_init 4 w v1 create) as (s1 & Hr1 & Hst1);
    [done..|].
  destruct Hst1 as (Hq1 & Hn1 & Ho1 & Hh1).
  set (a := fresh (dom (heap (create (T := T))))) in *.
  destruct (push_next_fill T_init 4 w [v2; v3; v4] s1 a
              (STL.push (H := chunk_container T_init) false v1
                 (STL.new (H := chunk_container T_init))))
    as (s4 & Hr4 & Hq4 & Hn4 & Ho4 & Hh4); [done | by rewrite Hn1 | | | done |].
  { by rewrite Hh1, lookup_insert_eq. }
  { by rewrite Hn1. }
  destruct (push_next_publish T_init 4 w v5 s4 a)
    as (s5 & Hr5 & Hq5 & Hn5 & Ho5 & Hh5); [by rewrite Hn4 | by rewrite Hn4 |].
  exists s4, s5, a, (fresh (dom (heap s4))). split_and!.
  - change (run T_init 4 false (Push w <$> [v1; v2; v3; v4]) create = Ok () s4).
    rewrite run_push_next by done. simpl. unfold bind at 1. by rewrite Hr1.
  - by rewrite Hq4, Hq1.
  - done.
  - by rewrite Hq5, Hq4, Hq1.
  - unfold chunk_items. simpl. rewrite Hh5.
    rewrite lookup_insert_ne.
    + by rewrite Hh4, lookup_insert_eq.
    + intros Heq. apply (is_fresh (dom (heap s4))). rewrite Heq, Hh4.
      apply elem_of_dom. by rewrite lookup_insert_eq.
  - by rewrite Hn5.
  - unfold chunk_items. simpl. by rewrite Hh5, lookup_insert_eq.
Qed.

(** C2 as stated fails with the default [pushToLocal = true]: the second
    push adopts the [next] chunk as [curr], the following pushes go to
    [curr], and after the fifth the global FIFO still holds no chunk. *)
Lemma chunked_batching_default_fails :
  ¬ batching 0%nat true 0%nat 1%nat 2%nat 3%nat 4%nat 5%nat.
Proof.
  intros (s4 & s5 & a & a' & H4 & _ & H5 & Hq5 & _).
  vm_compute in H4. injection H4 as <-.
  vm_compute in H5. injection H5 as <-.
  vm_compute in Hq5. discriminate Hq5.
Qed.

(** Every chunk in the global FIFO holds exactly [ChunkSize] items. *)
Definition chunk_full {T} (ChunkSize : Z) (s : ChunkedFIFO T) : Prop :=
  ∀ a, Some a ∈ items s →
       ∃ c, heap s !! a = Some c ∧ len c = ChunkSize.

(** Every chunk in the global FIFO holds at least 1 and at most
    [ChunkSize] items. *)
Definition chunk_bounded {T} (ChunkSize : Z) (s : ChunkedFIFO T) : Prop :=
  ∀ a, Some a ∈ items s →
       ∃ c, heap s !! a = Some c ∧ 1 ≤ len c ≤ ChunkSize.

(** Chunk fullness over the runs made of the calls [allowed]. *)
Definition fullness {T} (T_init : T) (ChunkSize : Z) (pushToLocal : bool)
    (allowed : op → bool) : Prop :=
  ∀ ops s,
    forallb allowed ops = true →
    run T_init ChunkSize pushToLocal ops create = Ok () s →
    chunk_full ChunkSize s.

Definition is_pop {T} (o : op (T := T)) : bool :=
  match o with Pop _ => true | _ => false end.

(** C1 as stated fails: [fill_initial] publishes the [next] chunk of the
    caller whatever it holds; seeding one item with [ChunkSize = 4] leaves
    a chunk of one item in the global FIFO. *)
Lemma chunk_fullness_fill_initial_fails :
  ¬ fullness 0%nat 4 true (λ o, negb (is_pop o)).
Proof.
  intros H.
  pose (ops := [FillInitial 0%nat [7%nat]]).
  destruct (run 0%nat 4 true ops create) as [[] s| |] eqn:Hr;
    [|by vm_compute in Hr..].
  destruct (H ops s eq_refl Hr 0%nat) as (c & Hc & Hlen).
  - vm_compute in Hr. injection Hr as <-. vm_compute. by left.
  - vm_compute in Hr. injection Hr as <-. vm_compute in Hc.
    injection Hc as <-. by vm_compute in Hlen.
Qed.

(** C1, as amended: for [1 ≤ ChunkSize], every run of [push], [aborted],
    [pop] and [fill_initial] calls from the constructor returns, and
    leaves in the global FIFO only chunks of at least 1 and at most
    [ChunkSize] items, and of exactly [ChunkSize] items when the run has no
    call of [fill_initial]. *)
Theorem chunk_fullness {T} (T_init : T) (ChunkSize : Z) (pushToLocal : bool)
    (ops : list op) :
  1 ≤ ChunkSize → ChunkSize ≤ INT_MAX →
  ∃ s, run T_init ChunkSize pushToLocal ops create = Ok () s
    ∧ chunk_bounded ChunkSize s
    ∧ (forallb (λ o, negb (is_fill o)) ops = true → chunk_full ChunkSize s).
Proof.
  intros H1 H2.
  destruct (run_inv T_init ChunkSize pushToLocal H1 H2 false ops create)
    as (s & Hr & Hinv); [done | apply inv_create|].
  exists s. split_and!; [done | |].
  - intros a [i Hi]%list_elem_of_lookup.
    destruct (inv_items _ _ _ Hinv i (Some a) Hi) as (c & Hc & Hlen & _).
    eauto.
  - intros Hnf.
    destruct (run_inv T_init ChunkSize pushToLocal H1 H2 true ops create)
      as (s' & Hr' & Hinv'); [done | apply inv_create|].
    assert (s' = s) as -> by congruence.
    intros a [i Hi]%list_elem_of_lookup.
    destruct (inv_items _ _ _ Hinv' i (Some a) Hi) as (c & Hc & _ & Hfull).
    eauto.
Qed.

Lemma chunk_fullness_witness :
  let ops := [Push 0%nat 1%nat; Aborted 1%nat 6%nat; Push 0%nat 2%nat;
              Push 0%nat 3%nat; Push 0%nat 4%nat; Pop 1%nat;
              Push 0%nat 5%nat] in
  1 ≤ 4 ∧ 4 ≤ INT_MAX
  ∧ ∃ s, run 0%nat 4 false ops create = Ok () s
      ∧ chunk_bounded 4 s
      ∧ (forallb (λ o, negb (is_fill o)) ops = true → chunk_full 4 s).
Proof.
  intros ops.
  assert (H1 : 1 ≤ 4) by lia.
  assert (H2 : 4 ≤ INT_MAX) by (unfold INT_MAX; lia).
  split; [exact H1|]. split; [exact H2|].
  exact (chunk_fullness 0%nat 4 false ops H1 H2).
Defined.

(** C9: every call of [pop] terminates.  In any state, fuel for one call
    more than there are live chunks is never used up, since [pop] calls
    itself only after it has deleted a chunk.  In every state a run of
    calls reaches from the constructor [pop] returns: that much fuel is
    enough, and so is fuel for one call more than the worker has chunk
    pointers to draw on (those in the global FIFO, its [next] and its
    [curr]); more fuel changes nothing; and with no chunk it returns
    [false]. *)
Theorem chunked_pop_terminates {T} (T_init : T) (ChunkSize : Z)
    (pushToLocal : bool) (ops : list op) (s : ChunkedFIFO T) (w : nat) :
  1 ≤ ChunkSize → ChunkSize ≤ INT_MAX →
  run T_init ChunkSize pushToLocal ops create = Ok () s →
  (∀ s0 fuel, (size (heap s0) < fuel)%nat →
              pop_rec T_init fuel w s0 ≠ OutOfFuel)
  ∧ ∃ r s',
      pop T_init w s = Ok r s'
      ∧ (∀ fuel, (size (heap s) < fuel ∨ chunks w s < fuel)%nat →
                 pop_rec T_init fuel w s = Ok r s')
      ∧ (size (heap s) = 0%nat ∨ chunks w s = 0%nat → r = (false, T_init)).
Proof.
  intros H1 H2 Hr. split.
  { intros s0 fuel. apply pop_rec_enough_fuel. }
  pose proof (reachable_inv T_init ChunkSize pushToLocal ops s H1 H2 Hr) as Hinv.
  destruct (pop_rec_inv T_init ChunkSize false w (S (chunks w s)) s Hinv)
    as (r & s' & Hpop & _ & Hz); [lia|].
  exists r, s'. split_and!.
  - apply Hpop. lia.
  - intros fuel Hf. apply Hpop. lia.
  - intros H0. apply Hz. lia.
Qed.

Lemma chunked_pop_terminates_witness :
  let ops := [FillInitial 0%nat []; FillInitial 0%nat [1%nat]; Pop 1%nat;
              Pop 1%nat; Pop 1%nat] in
  1 ≤ 4 ∧ 4 ≤ INT_MAX
  ∧ ∃ s, run 0%nat 4 true ops create = Ok () s
      ∧ (∀ s0 fuel, (size (heap s0) < fuel)%nat →
                    pop_rec 0%nat fuel 1%nat s0 ≠ OutOfFuel)
      ∧ ∃ r s',
          pop 0%nat 1%nat s = Ok r s'
          ∧ (∀ fuel, (size (heap s) < fuel ∨ chunks 1%nat s < fuel)%nat →
                     pop_rec 0%nat fuel 1%nat s = Ok r s')
          ∧ (size (heap s) = 0%nat ∨ chunks 1%nat s = 0%nat →
             r = (false, 0%nat)).
Proof.
  intros ops.
  assert (H1 : 1 ≤ 4) by lia.
  assert (H2 : 4 ≤ INT_MAX) by (unfold INT_MAX; lia).
  split; [exact H1|]. split; [exact H2|].
  destruct (run 0%nat 4 true ops create) as [[] s| |] eqn:Hr;
    [|by vm_compute in Hr..].
  exists s. split; [reflexivity|].
  exact (chunked_pop_terminates 0%nat 4 true ops s 1%nat H1 H2 Hr).
Defined.

(** C10: when the caller has no [next] chunk, [fill_initial] over an empty
    range queues the null pointer; if moreover the global FIFO held
    nothing and the caller has no [curr] chunk, then right afterwards
    [empty] answers [false], and yet [pop] returns [false] with the
    default-constructed item, taking the null pointer off the global FIFO
    and touching no chunk. *)
Theorem chunked_fill_initial_empty {T} (T_init : T) (ChunkSize : Z)
    (w : nat) (s : ChunkedFIFO T) :
  next (rec w s) = None → curr (rec w s) = None → items s = [] →
  ∃ s1 s2 s3,
    fill_initial T_init ChunkSize w [] s = Ok () s1
    ∧ items s1 = [None]
    ∧ empty T_init w s1 = Ok false s2
    ∧ pop T_init w s2 = Ok (false, T_init) s3
    ∧ items s3 = [] ∧ heap s3 = heap s.
Proof.
  intros Hn Hc Hq.
  destruct (fill_initial_publish w s) as (s1 & Hr1 & Hq1 & Hn1 & Ho1 & Hh1).
  rewrite Hq, Hn, Hc in *. simpl in Hq1.
  assert (He : ∃ s2, empty T_init w s1 = Ok false s2
                     ∧ is_state s2 [None] w (rec w s1) s1 (heap s1)).
  { unfold empty, bind, get_n, ret. fold (rec w s1). rewrite Hn1. cbn [curr next].
    unfold on_Items. eexists. split.
    - f_equal. change (bool_decide (items s1 = []) = false). by rewrite Hq1.
    - split_and!; try done. }
  destruct He as (s2 & Hr2 & Hq2 & Hn2 & Ho2 & Hh2).
  destruct (fill_curr_take w s2 None [] Hq2) as (s3 & Hr3 & Hq3 & Hn3 & Ho3 & Hh3).
  exists s1, s2, s3. split_and!; try done.
  - unfold pop. rewrite pop_rec_unfold, Hn2, Hn1. cbn [curr].
    unfold bind. rewrite Hr3. apply pop_tail_none. by rewrite Hn3.
  - by rewrite Hh3, Hh2, Hh1.
Qed.

Lemma chunked_fill_initial_empty_witness :
  let s := create (T := nat) in
  next (rec 0%nat s) = None ∧ curr (rec 0%nat s) = None ∧ items s = []
  ∧ ∃ s1 s2 s3,
      fill_initial 0%nat 64 0%nat [] s = Ok () s1
      ∧ items s1 = [None]
      ∧ empty 0%nat 0%nat s1 = Ok false s2
      ∧ pop 0%nat 0%nat s2 = Ok (false, 0%nat) s3
      ∧ items s3 = [] ∧ heap s3 = heap s.
Proof.
  intros s. split; [reflexivity|]. split; [reflexivity|]. split; [reflexivity|].
  exact (chunked_fill_initial_empty 0%nat 64 0%nat s eq_refl eq_refl eq_refl).
Defined.

(** Abort locality for the state [s]: after [aborted(v)] by [w], the next
    [pop] by [w] returns [v]. *)
Definition abort_locality {T} (T_init : T) (ChunkSize : Z) (w : nat) (v : T)
    (s : ChunkedFIFO T) : Prop :=
  ∃ s1 s2,
    aborted T_init ChunkSize w v s = Ok () s1
    ∧ pop T_init w s1 = Ok (true, v) s2.

(** C6 as stated fails, with one worker only: after [push(1)], [push(2)]
    (which, with [pushToLocal], go to what becomes the [curr] chunk) and
    [aborted(3)], [pop] returns 2 from [curr], not 3. *)
Lemma abort_locality_single_worker_fails :
  ∃ s, run 0%nat 4 true [Push 0%nat 1%nat; Push 0%nat 2%nat] create = Ok () s
    ∧ ¬ abort_locality 0%nat 4 0%nat 3%nat s.
Proof.
  destruct (run 0%nat 4 true [Push 0%nat 1%nat; Push 0%nat 2%nat] create)
    as [[] s| |] eqn:Hr; [|by vm_compute in Hr..].
  exists s. split; [done|]. intros (s1 & s2 & Ha & Hp).
  vm_compute in Hr. injection Hr as <-.
  vm_compute in Ha. injection Ha as <-.
  vm_compute in Hp. discriminate Hp.
Qed.

(** C6, as amended: in a state a run of calls reaches from the
    constructor, if the global FIFO holds nothing, the [curr] chunk of [w]
    is absent or holds no item, and the [next] chunk of [w] is absent or
    not full (so that [aborted] does not queue it), then after
    [aborted(v)] by [w] the next [pop] by [w] returns [v]. *)
Theorem chunked_abort_then_pop {T} (T_init : T) (ChunkSize : Z)
    (pushToLocal : bool) (ops : list op) (s : ChunkedFIFO T) (w : nat)
    (v : T) :
  1 ≤ ChunkSize → ChunkSize ≤ INT_MAX →
  run T_init ChunkSize pushToLocal ops create = Ok () s →
  items s = [] →
  (curr (rec w s) = None ∨ chunk_items s (curr (rec w s)) = Some []) →
  (next (rec w s) = None ∨ nextSize (rec w s) ≠ ChunkSize) →
  abort_locality T_init ChunkSize w v s.
Proof.
  intros H1 H2 Hr Hq Hcurr Hnext.
  pose proof (reachable_inv T_init ChunkSize pushToLocal ops s H1 H2 Hr) as Hinv.
  assert (Hpush : ∃ s1 a c l,
    aborted T_init ChunkSize w v s = Ok () s1
    ∧ items s1 = [] ∧ next (rec w s1) = Some a
    ∧ curr (rec w s1) = curr (rec w s)
    ∧ heap s1 = <[a := c]> (heap s) ∧ stack_elems (wl c) = v :: l
    ∧ curr (rec w s) ≠ Some a).
  { unfold aborted. destruct (next (rec w s)) as [a|] eqn:Hn.
    - destruct Hnext as [?|Hpart]; [done|].
      destruct (inv_next _ _ _ Hinv _ _ Hn) as (c & Hc & Hsz & Hlen).
      destruct (push_next_append T_init ChunkSize w v s a c Hn Hc Hpart)
        as (s1 & Hr1 & Hq1 & Hn1 & _ & Hh1); [lia|].
      exists s1, a, (STL.push (H := chunk_container T_init) false v c),
        (stack_elems (wl c)).
      rewrite Hn1, Hq1. split_and!; try done.
      intros Hb. by pose proof (inv_own _ _ _ Hinv (InNext w) (InCurr w) a Hn Hb).
    - destruct (push_next_alloc T_init ChunkSize w v s Hn)
        as (s1 & Hr1 & Hq1 & Hn1 & _ & Hh1); [lia|].
      exists s1, (fresh (dom (heap s))),
        (STL.push (H := chunk_container T_init) false v
           (STL.new (H := chunk_container T_init))), [].
      rewrite Hn1, Hq1. split_and!; try done.
      intros Hb. destruct (inv_live _ _ _ Hinv (InCurr w) _ Hb) as [cb Hcb].
      apply (is_fresh (dom (heap s))). apply elem_of_dom. eauto. }
  destruct Hpush as (s1 & a & c & l & Hr1 & Hq1 & Hn1 & Hc1 & Hh1 & Hl & Hne).
  destruct (pop_adopts_next T_init w s1 a c v l) as (s2 & Hr2); try done.
  - by rewrite Hh1, lookup_insert_eq.
  - rewrite Hc1. destruct Hcurr as [?|Hemp]; [by left|].
    destruct (curr (rec w s)) as [b|] eqn:Hb; [|by left]. right.
    unfold chunk_items in Hemp. simpl in Hemp.
    destruct (heap s !! b) as [cb|] eqn:Hcb; [|done]. simpl in Hemp.
    exists b, cb. split_and!; [done | congruence | | congruence].
    rewrite Hh1, lookup_insert_ne; [done | congruence].
  - by exists s1, s2.
Qed.

Lemma chunked_abort_then_pop_witness :
  let ops := [Push 0%nat 1%nat; Push 0%nat 2%nat; Pop 0%nat; Pop 0%nat;
              Aborted 0%nat 7%nat] in
  1 ≤ 4 ∧ 4 ≤ INT_MAX
  ∧ ∃ s, run 0%nat 4 true ops create = Ok () s
      ∧ items s = []
      ∧ (curr (rec 0%nat s) = None
         ∨ chunk_items s (curr (rec 0%nat s)) = Some [])
      ∧ (next (rec 0%nat s) = None ∨ nextSize (rec 0%nat s) ≠ 4)
      ∧ abort_locality 0%nat 4 0%nat 3%nat s.
Proof.
  intros ops.
  assert (H1 : 1 ≤ 4) by lia.
  assert (H2 : 4 ≤ INT_MAX) by (unfold INT_MAX; lia).
  split; [exact H1|]. split; [exact H2|].
  destruct (run 0%nat 4 true ops create) as [[] s| |] eqn:Hr;
    [|by vm_compute in Hr..].
  assert (Hq : items s = [])
    by (vm_compute in Hr; injection Hr as <-; reflexivity).
  assert (Hc : curr (rec 0%nat s) = None
               ∨ chunk_items s (curr (rec 0%nat s)) = Some [])
    by (vm_compute in Hr; injection Hr as <-; right; reflexivity).
  assert (Hn : next (rec 0%nat s) = None ∨ nextSize (rec 0%nat s) ≠ 4)
    by (vm_compute in Hr; injection Hr as <-; right; by vm_compute).
  exists s. split; [reflexivity|]. split; [exact Hq|]. split; [exact Hc|].
  split; [exact Hn|].
  exact (chunked_abort_then_pop 0%nat 4 true ops s 0%nat 3%nat H1 H2 Hr Hq Hc Hn).
Defined.

(** *** Conservation, isolation and order of service *)

(** No call loses an item or makes one up.  In every state a run of calls
    reaches from the constructor, [push], [aborted] and [fill_initial]
    return and the live chunks then hold the items they held and the
    items given, and [pop] returns and the live chunks held the items they
    hold afterwards and the item handed out, if one was; a [pop] that
    hands out none returns [value_type()]. *)
Theorem chunked_conserves_items {T} (T_init : T) (ChunkSize : Z)
    (pushToLocal : bool) (ops : list op) (s : ChunkedFIFO T) (w : nat) :
  1 ≤ ChunkSize → ChunkSize ≤ INT_MAX →
  run T_init ChunkSize pushToLocal ops create = Ok () s →
  (∀ v, ∃ s', push T_init ChunkSize pushToLocal w v s = Ok () s'
              ∧ held s' ≡ₚ v :: held s)
  ∧ (∀ v, ∃ s', aborted T_init ChunkSize w v s = Ok () s'
                ∧ held s' ≡ₚ v :: held s)
  ∧ (∀ ii, ∃ s', fill_initial T_init ChunkSize w ii s = Ok () s'
                 ∧ held s' ≡ₚ ii ++ held s)
  ∧ (∃ r s', pop T_init w s = Ok r s'
             ∧ popped r ++ held s' ≡ₚ held s
             ∧ (r.1 = false → r.2 = T_init)).
Proof.
  intros H1 H2 Hr.
  pose proof (reachable_inv T_init ChunkSize pushToLocal ops s H1 H2 Hr) as Hinv.
  split_and!.
  - intros v.
    destruct (push_inv T_init ChunkSize pushToLocal H1 H2 false w v s Hinv)
      as (s' & Hp & _).
    exists s'. split; [done|].
    apply (eff_held _ _ _ _ _
             (push_effect T_init ChunkSize pushToLocal H1 H2 false w v s s'
                Hinv Hp)).
  - intros v.
    destruct (push_next_inv T_init ChunkSize H1 H2 false w v s Hinv)
      as (s' & Hp & _).
    exists s'. split; [done|].
    apply (eff_held _ _ _ _ _
             (push_next_effect T_init ChunkSize H1 H2 false w v s s' Hinv Hp)).
  - intros ii.
    destruct (fill_initial_inv T_init ChunkSize H1 H2 false w ii s eq_refl Hinv)
      as (s' & Hp & _).
    exists s'. split; [done|].
    apply (eff_held _ _ _ _ _
             (fill_initial_effect T_init ChunkSize H1 H2 false w ii s s'
                Hinv Hp)).
  - destruct (pop_inv T_init ChunkSize false w s Hinv) as (r & s' & Hp & _).
    exists r, s'. split; [done|].
    destruct (pop_rec_effect T_init ChunkSize false w _ s r s' Hinv Hp)
      as [He Hz].
    split; [|done]. apply (eff_held _ _ _ _ _ He).
Qed.

Lemma chunked_conserves_items_witness :
  let ops := [Push 0%nat 1%nat; Push 0%nat 2%nat; FillInitial 1%nat [3%nat];
              Pop 1%nat] in
  1 ≤ 2 ∧ 2 ≤ INT_MAX
  ∧ ∃ s, run 0%nat 2 true ops create = Ok () s
      ∧ (∀ v, ∃ s', push 0%nat 2 true 0%nat v s = Ok () s'
                    ∧ held s' ≡ₚ v :: held s)
      ∧ (∀ v, ∃ s', aborted 0%nat 2 0%nat v s = Ok () s'
                    ∧ held s' ≡ₚ v :: held s)
      ∧ (∀ ii, ∃ s', fill_initial 0%nat 2 0%nat ii s = Ok () s'
                     ∧ held s' ≡ₚ ii ++ held s)
      ∧ (∃ r s', pop 0%nat 0%nat s = Ok r s'
                 ∧ popped r ++ held s' ≡ₚ held s
                 ∧ (r.1 = false → r.2 = 0%nat)).
Proof.
  intros ops.
  assert (H1 : 1 ≤ 2) by lia.
  assert (H2 : 2 ≤ INT_MAX) by (unfold INT_MAX; lia).
  split; [exact H1|]. split; [exact H2|].
  destruct (run 0%nat 2 true ops create) as [[] s| |] eqn:Hr;
    [|by vm_compute in Hr..].
  exists s. split; [reflexivity|].
  exact (chunked_conserves_items 0%nat 2 true ops s 0%nat H1 H2 Hr).
Defined.

(** There is no stealing: a call of one worker leaves the record of every
    other worker, and what the [next] and [curr] chunks of that worker
    hold, as they are.  This holds for [push], [aborted], [pop] and
    [fill_initial] in every state a run of calls reaches from the
    constructor. *)
Theorem chunked_private_chunks_untouched {T} (T_init : T) (ChunkSize : Z)
    (pushToLocal : bool) (ops : list op) (s : ChunkedFIFO T) (o : op)
    (w' : nat) :
  1 ≤ ChunkSize → ChunkSize ≤ INT_MAX →
  run T_init ChunkSize pushToLocal ops create = Ok () s →
  w' ≠ caller o →
  ∃ s', step T_init ChunkSize pushToLocal o s = Ok () s'
    ∧ rec w' s' = rec w' s
    ∧ chunk_items s' (next (rec w' s)) = chunk_items s (next (rec w' s))
    ∧ chunk_items s' (curr (rec w' s)) = chunk_items s (curr (rec w' s)).
Proof.
  intros H1 H2 Hr Hw.
  pose proof (reachable_inv T_init ChunkSize pushToLocal ops s H1 H2 Hr) as Hinv.
  destruct (step_inv T_init ChunkSize pushToLocal H1 H2 false o s)
    as (s' & Hs & _); [done..|].
  exists s'. split; [done|].
  destruct (step_effect T_init ChunkSize pushToLocal H1 H2 false o s s')
    as (ins & outs & He); [done..|].
  by apply (effect_private ChunkSize false (caller o) w' ins outs).
Qed.

Lemma chunked_private_chunks_untouched_witness :
  let ops := [Push 0%nat 1%nat; Push 0%nat 2%nat; Push 1%nat 3%nat;
              Aborted 0%nat 4%nat] in
  1 ≤ 2 ∧ 2 ≤ INT_MAX ∧ 0%nat ≠ caller (Pop (T := nat) 1%nat)
  ∧ ∃ s, run 0%nat 2 true ops create = Ok () s
      ∧ ∃ s', step 0%nat 2 true (Pop 1%nat) s = Ok () s'
          ∧ rec 0%nat s' = rec 0%nat s
          ∧ chunk_items s' (next (rec 0%nat s))
            = chunk_items s (next (rec 0%nat s))
          ∧ chunk_items s' (curr (rec 0%nat s))
            = chunk_items s (curr (rec 0%nat s)).
Proof.
  intros ops.
  assert (H1 : 1 ≤ 2) by lia.
  assert (H2 : 2 ≤ INT_MAX) by (unfold INT_MAX; lia).
  assert (Hw : 0%nat ≠ caller (Pop (T := nat) 1%nat)) by done.
  split; [exact H1|]. split; [exact H2|]. split; [exact Hw|].
  destruct (run 0%nat 2 true ops create) as [[] s| |] eqn:Hr;
    [|by vm_compute in Hr..].
  exists s. split; [reflexivity|].
  exact (chunked_private_chunks_untouched 0%nat 2 true ops s (Pop 1%nat)
           0%nat H1 H2 Hr Hw).
Defined.

(** As long as [fill_initial] has not been called, [pop] and [empty]
    agree: in every state that a run of [push], [aborted] and [pop] calls
    reaches from the constructor, [empty] returns, and [pop], called by
    the same worker in that state, returns an item exactly when [empty]
    answers [false]. *)
Theorem chunked_pop_iff_not_empty {T} (T_init : T) (ChunkSize : Z)
    (pushToLocal : bool) (ops : list op) (s : ChunkedFIFO T) (w : nat) :
  1 ≤ ChunkSize → ChunkSize ≤ INT_MAX →
  forallb (λ o, negb (is_fill o)) ops = true →
  run T_init ChunkSize pushToLocal ops create = Ok () s →
  ∃ b s1 x s',
    empty T_init w s = Ok b s1 ∧ pop T_init w s = Ok (negb b, x) s'.
Proof.
  intros H1 H2 Hnf Hr.
  destruct (run_inv T_init ChunkSize pushToLocal H1 H2 true ops create)
    as (s0 & Hr0 & Hinv); [done | apply inv_create|].
  assert (s0 = s) as -> by congruence.
  by apply (empty_pop_agree T_init ChunkSize).
Qed.

Lemma chunked_pop_iff_not_empty_witness :
  let ops := [Push 0%nat 1%nat; Push 0%nat 2%nat; Push 0%nat 3%nat;
              Pop 1%nat; Pop 1%nat] in
  1 ≤ 2 ∧ 2 ≤ INT_MAX ∧ forallb (λ o, negb (is_fill o)) ops = true
  ∧ ∃ s, run 0%nat 2 false ops create = Ok () s
      ∧ ∃ b s1 x s',
          empty 0%nat 1%nat s = Ok b s1
          ∧ pop 0%nat 1%nat s = Ok (negb b, x) s'.
Proof.
  intros ops.
  assert (H1 : 1 ≤ 2) by lia.
  assert (H2 : 2 ≤ INT_MAX) by (unfold INT_MAX; lia).
  assert (Hnf : forallb (λ o, negb (is_fill o)) ops = true) by reflexivity.
  split; [exact H1|]. split; [exact H2|]. split; [exact Hnf|].
  destruct (run 0%nat 2 false ops create) as [[] s| |] eqn:Hr;
    [|by vm_compute in Hr..].
  exists s. split; [reflexivity|].
  exact (chunked_pop_iff_not_empty 0%nat 2 false ops s 1%nat H1 H2 Hnf Hr).
Defined.

(** [fill_initial] makes the items of the range available to every
    worker.  After a worker has seeded a fresh worklist with a range that
    is not empty and has at most [ChunkSize] items, the global FIFO holds
    one chunk; as many calls of [pop] as the range has items, by any one
    worker, return the items with [true], the last one of the range first;
    and the next [pop] of that worker returns [false] with
    [value_type()]. *)
Theorem chunked_seed_then_drain {T} (T_init : T) (ChunkSize : Z)
    (w w' : nat) (ii : list T) :
  ii ≠ [] → Z.of_nat (length ii) ≤ ChunkSize → ChunkSize ≤ INT_MAX →
  ∃ s1 s2 s3,
    fill_initial T_init ChunkSize w ii create = Ok () s1
    ∧ length (items s1) = 1%nat
    ∧ pop_n T_init (length ii) w' s1
      = Ok ((λ x, (true, x)) <$> rev ii) s2
    ∧ pop T_init w' s2 = Ok (false, T_init) s3.
Proof.
  intros Hne Hlen Hint. destruct ii as [|x ii]; [done|].
  by apply seed_then_drain.
Qed.

Lemma chunked_seed_then_drain_witness :
  [1; 2; 3]%nat ≠ [] ∧ Z.of_nat (length [1; 2; 3]%nat) ≤ 4 ∧ 4 ≤ INT_MAX
  ∧ ∃ s1 s2 s3,
      fill_initial 0%nat 4 0%nat [1; 2; 3]%nat create = Ok () s1
      ∧ length (items s1) = 1%nat
      ∧ pop_n 0%nat (length [1; 2; 3]%nat) 1%nat s1
        = Ok ((λ x, (true, x)) <$> rev [1; 2; 3]%nat) s2
      ∧ pop 0%nat 1%nat s2 = Ok (false, 0%nat) s3.
Proof.
  assert (H0 : [1; 2; 3]%nat ≠ []) by done.
  assert (H1 : Z.of_nat (length [1; 2; 3]%nat) ≤ 4) by (simpl; lia).
  assert (H2 : 4 ≤ INT_MAX) by (unfold INT_MAX; lia).
  split; [exact H0|]. split; [exact H1|]. split; [exact H2|].
  exact (chunked_seed_then_drain 0%nat 4 0%nat 1%nat [1; 2; 3]%nat H0 H1 H2).
Defined.

(** With [pushToLocal], which is the default, a single worker gets a
    stack: what it pushes to a fresh worklist it pops last in, first out.
    From its second [push] on every item goes to its [curr] chunk, which
    [ChunkSize] does not bound, and nothing reaches the global FIFO. *)
Theorem chunked_local_pushes_lifo {T} (T_init : T) (ChunkSize : Z)
    (w : nat) (vs : list T) :
  ChunkSize ≠ 0 →
  ∃ s s',
    run T_init ChunkSize true (Push w <$> vs) create = Ok () s
    ∧ items s = []
    ∧ ((2 ≤ length vs)%nat →
       next (rec w s) = None
       ∧ chunk_items s (curr (rec w s)) = Some (rev vs))
    ∧ pop_n T_init (length vs) w s = Ok ((λ x, (true, x)) <$> rev vs) s'.
Proof. intros Hcs. by apply local_pushes_lifo. Qed.

Lemma chunked_local_pushes_lifo_witness :
  let vs := [1; 2; 3; 4; 5]%nat in
  2 ≠ 0
  ∧ ∃ s s',
      run 0%nat 2 true (Push 0%nat <$> vs) create = Ok () s
      ∧ items s = []
      ∧ ((2 ≤ length vs)%nat →
         next (rec 0%nat s) = None
         ∧ chunk_items s (curr (rec 0%nat s)) = Some (rev vs))
      ∧ pop_n 0%nat (length vs) 0%nat s
        = Ok ((λ x, (true, x)) <$> rev vs) s'.
Proof.
  intros vs. assert (H : 2 ≠ 0) by lia. split; [exact H|].
  exact (chunked_local_pushes_lifo 0%nat 2 0%nat vs H).
Defined.

(** Without [pushToLocal], a single worker gets its items back chunk by
    chunk: the chunks in the order they were filled, the items of a chunk
    last in, first out.  When it pushes, to a fresh worklist, blocks of
    [ChunkSize] items each and then a last block that is not empty and no
    longer, the global FIFO holds one chunk for each of the former, and as
    many calls of [pop] as there are items return the blocks in order,
    each from its last item to its first. *)
Theorem chunked_chunks_fifo_items_lifo {T} (T_init : T) (ChunkSize : Z)
    (w : nat) (bs : list (list T)) (l : list T) :
  1 ≤ ChunkSize → ChunkSize ≤ INT_MAX →
  Forall (λ b, Z.of_nat (length b) = ChunkSize) bs →
  l ≠ [] → Z.of_nat (length l) ≤ ChunkSize →
  ∃ s s',
    run T_init ChunkSize false (Push w <$> (concat bs ++ l)) create = Ok () s
    ∧ length (items s) = length bs
    ∧ pop_n T_init (length (concat bs ++ l)) w s
      = Ok ((λ x, (true, x)) <$> (concat (@rev T <$> bs) ++ rev l)) s'.
Proof.
  intros H1 H2 Hbs Hl Hlen.
  destruct (filled_from_create T_init ChunkSize w bs l H1 H2 Hbs Hl Hlen)
    as (s & Hr & Hs).
  destruct (filled_drain T_init w bs s l Hs) as (s' & Hp); [|done|].
  { eapply Forall_impl; [exact Hbs|]. intros b Hb ->. simpl in Hb. lia. }
  exists s, s'. split_and!; [|  |done].
  - by rewrite run_push_next.
  - destruct Hs as (q & a & -> & <- & _). by rewrite length_fmap.
Qed.

Lemma chunked_chunks_fifo_items_lifo_witness :
  let bs := [[1; 2]; [3; 4]]%nat in
  let l := [5]%nat in
  1 ≤ 2 ∧ 2 ≤ INT_MAX
  ∧ Forall (λ b, Z.of_nat (length b) = 2) bs
  ∧ l ≠ [] ∧ Z.of_nat (length l) ≤ 2
  ∧ ∃ s s',
      run 0%nat 2 false (Push 0%nat <$> (concat bs ++ l)) create = Ok () s
      ∧ length (items s) = length bs
      ∧ pop_n 0%nat (length (concat bs ++ l)) 0%nat s
        = Ok ((λ x, (true, x)) <$> (concat (@rev nat <$> bs) ++ rev l)) s'.
Proof.
  intros bs l.
  assert (H1 : 1 ≤ 2) by lia.
  assert (H2 : 2 ≤ INT_MAX) by (unfold INT_MAX; lia).
  assert (H3 : Forall (λ b, Z.of_nat (length b) = 2) bs)
    by (repeat constructor).
  assert (H4 : l ≠ []) by done.
  assert (H5 : Z.of_nat (length l) ≤ 2) by (simpl; lia).
  split; [exact H1|]. split; [exact H2|]. split; [exact H3|].
  split; [exact H4|]. split; [exact H5|].
  exact (chunked_chunks_fifo_items_lifo 0%nat 2 0%nat bs l H1 H2 H3 H4 H5).
Defined.

(** Chunks are owned by one place at a time.  In every state a run of
    calls reaches from the constructor, no chunk is referenced from two
    places (a position of the global FIFO, the [next] or the [curr] of a
    worker), every chunk referenced is live, and [nextSize] of a worker
    that has a [next] chunk is the number of items of that chunk, which is
    at least 1 and at most [ChunkSize]. *)
Theorem chunked_chunk_ownership {T} (T_init : T) (ChunkSize : Z)
    (pushToLocal : bool) (ops : list op) (s : ChunkedFIFO T) :
  1 ≤ ChunkSize → ChunkSize ≤ INT_MAX →
  run T_init ChunkSize pushToLocal ops create = Ok () s →
  (∀ sl sl' a, at_slot s sl = Some a → at_slot s sl' = Some a → sl = sl')
  ∧ (∀ sl a, at_slot s sl = Some a → is_Some (heap s !! a))
  ∧ (∀ w a, next (rec w s) = Some a →
       ∃ c, heap s !! a = Some c ∧ nextSize (rec w s) = len c
            ∧ 1 ≤ len c ≤ ChunkSize).
Proof.
  intros H1 H2 Hr.
  pose proof (reachable_inv T_init ChunkSize pushToLocal ops s H1 H2 Hr)
    as [Hown Hlive Hnext _].
  by split_and!.
Qed.

Lemma chunked_chunk_ownership_witness :
  let ops := [Push 0%nat 1%nat; Push 0%nat 2%nat; Aborted 1%nat 3%nat;
              FillInitial 1%nat [4%nat]; Pop 0%nat; Push 1%nat 5%nat] in
  1 ≤ 2 ∧ 2 ≤ INT_MAX
  ∧ ∃ s, run 0%nat 2 true ops create = Ok () s
      ∧ (∀ sl sl' a, at_slot s sl = Some a → at_slot s sl' = Some a →
                     sl = sl')
      ∧ (∀ sl a, at_slot s sl = Some a → is_Some (heap s !! a))
      ∧ (∀ w a, next (rec w s) = Some a →
           ∃ c, heap s !! a = Some c ∧ nextSize (rec w s) = len c
                ∧ 1 ≤ len c ≤ 2).
Proof.
  intros ops.
  assert (H1 : 1 ≤ 2) by lia.
  assert (H2 : 2 ≤ INT_MAX) by (unfold INT_MAX; lia).
  split; [exact H1|]. split; [exact H2|].
  destruct (run 0%nat 2 true ops create) as [[] s| |] eqn:Hr;
    [|by vm_compute in Hr..].
  exists s. split; [reflexivity|].
  exact (chunked_chunk_ownership 0%nat 2 true ops s H1 H2 Hr).
Defined.

(** No chunk is leaked: in every state a run of calls reaches from the
    constructor, every live chunk is referenced from some place, a
    position of the global FIFO or the [next] or the [curr] of a worker. *)
Theorem chunked_no_chunk_leaks {T} (T_init : T) (ChunkSize : Z)
    (pushToLocal : bool) (ops : list op) (s : ChunkedFIFO T) :
  1 ≤ ChunkSize → ChunkSize ≤ INT_MAX →
  run T_init ChunkSize pushToLocal ops create = Ok () s →
  ∀ a, is_Some (heap s !! a) → ∃ sl, at_slot s sl = Some a.
Proof.
  intros H1 H2 Hr.
  apply (run_leak T_init ChunkSize pushToLocal H1 H2 false ops create s);
    [done | apply inv_create | | done].
  intros a Ha. simpl in Ha. rewrite lookup_empty in Ha. by destruct Ha.
Qed.

Lemma chunked_no_chunk_leaks_witness :
  let ops := [Push 0%nat 1%nat; Push 0%nat 2%nat; Aborted 1%nat 3%nat;
              FillInitial 1%nat [4%nat]; Pop 0%nat; Pop 0%nat; Pop 0%nat;
              Push 1%nat 5%nat] in
  1 ≤ 2 ∧ 2 ≤ INT_MAX
  ∧ ∃ s, run 0%nat 2 true ops create = Ok () s
      ∧ ∀ a, is_Some (heap s !! a) → ∃ sl, at_slot s sl = Some a.
Proof.
  intros ops.
  assert (H1 : 1 ≤ 2) by lia.
  assert (H2 : 2 ≤ INT_MAX) by (unfold INT_MAX; lia).
  split; [exact H1|]. split; [exact H2|].
  destruct (run 0%nat 2 true ops create) as [[] s| |] eqn:Hr;
    [|by vm_compute in Hr..].
  exists s. split; [reflexivity|].
  exact (chunked_no_chunk_leaks 0%nat 2 true ops s H1 H2 Hr).
Defined.

(** A null pointer in the global FIFO makes [pop] give up.  A worker
    without [curr] chunk that finds the null pointer at the head of the
    global FIFO returns [false] with [value_type()], having taken the
    null pointer off; it touches no chunk, and this whatever is queued
    behind the null pointer and whatever its own [next] chunk holds. *)
Theorem chunked_pop_stops_at_null {T} (T_init : T) (w : nat)
    (s : ChunkedFIFO T) (q : list (option nat)) :
  items s = None :: q → curr (rec w s) = None →
  ∃ s', pop T_init w s = Ok (false, T_init) s'
    ∧ items s' = q ∧ heap s' = heap s ∧ (∀ w', rec w' s' = rec w' s).
Proof. intros Hq Hc. by apply pop_null_queued. Qed.

Lemma chunked_pop_stops_at_null_witness :
  let ops := [FillInitial 0%nat []; FillInitial 0%nat [7%nat; 8%nat];
              Aborted 1%nat 9%nat] in
  ∃ s q, run 0%nat 4 true ops create = Ok () s
    ∧ items s = None :: q ∧ q ≠ [] ∧ curr (rec 1%nat s) = None
    ∧ is_Some (next (rec 1%nat s))
    ∧ ∃ s', pop 0%nat 1%nat s = Ok (false, 0%nat) s'
        ∧ items s' = q ∧ heap s' = heap s
        ∧ (∀ w', rec w' s' = rec w' s).
Proof.
  intros ops.
  destruct (run 0%nat 4 true ops create) as [[] s| |] eqn:Hr;
    [|by vm_compute in Hr..].
  assert (Hq : items s = None :: tail (items s))
    by (vm_compute in Hr; injection Hr as <-; reflexivity).
  assert (Hne : tail (items s) ≠ [])
    by (vm_compute in Hr; injection Hr as <-; by vm_compute).
  assert (Hc : curr (rec 1%nat s) = None)
    by (vm_compute in Hr; injection Hr as <-; reflexivity).
  assert (Hn : is_Some (next (rec 1%nat s)))
    by (vm_compute in Hr; injection Hr as <-; eexists; reflexivity).
  exists s, (tail (items s)). split; [reflexivity|]. split; [exact Hq|].
  split; [exact Hne|]. split; [exact Hc|]. split; [exact Hn|].
  exact (chunked_pop_stops_at_null 0%nat 1%nat s (tail (items s)) Hq Hc).
Defined.

(** Without [pushToLocal], what one worker pushes reaches the other
    workers chunk by chunk.  While a worker has pushed, to a fresh
    worklist, no more than [ChunkSize] items, the [pop] of another worker
    returns [false]; once it has pushed [ChunkSize] items and at least one
    more, the [pop] of another worker returns the last item of those first
    [ChunkSize]. *)
Theorem chunked_pushes_visible_by_chunk {T} (T_init : T) (ChunkSize : Z)
    (w w' : nat) :
  1 ≤ ChunkSize → ChunkSize ≤ INT_MAX → w' ≠ w →
  (∀ l, l ≠ [] → Z.of_nat (length l) ≤ ChunkSize →
     ∃ s s', run T_init ChunkSize false (Push w <$> l) create = Ok () s
             ∧ pop T_init w' s = Ok (false, T_init) s')
  ∧ (∀ b x l,
       Z.of_nat (length (b ++ [x])) = ChunkSize →
       l ≠ [] → Z.of_nat (length l) ≤ ChunkSize →
       ∃ s s',
         run T_init ChunkSize false (Push w <$> ((b ++ [x]) ++ l)) create
         = Ok () s
         ∧ pop T_init w' s = Ok (true, x) s').
Proof. intros H1 H2 Hw. by apply pushes_visible. Qed.

Lemma chunked_pushes_visible_by_chunk_witness :
  1 ≤ 2 ∧ 2 ≤ INT_MAX ∧ 1%nat ≠ 0%nat
  ∧ (∀ l : list nat, l ≠ [] → Z.of_nat (length l) ≤ 2 →
       ∃ s s', run 0%nat 2 false (Push 0%nat <$> l) create = Ok () s
               ∧ pop 0%nat 1%nat s = Ok (false, 0%nat) s')
  ∧ (∀ (b : list nat) x l,
       Z.of_nat (length (b ++ [x])) = 2 →
       l ≠ [] → Z.of_nat (length l) ≤ 2 →
       ∃ s s',
         run 0%nat 2 false (Push 0%nat <$> ((b ++ [x]) ++ l)) create
         = Ok () s
         ∧ pop 0%nat 1%nat s = Ok (true, x) s').
Proof.
  assert (H1 : 1 ≤ 2) by lia.
  assert (H2 : 2 ≤ INT_MAX) by (unfold INT_MAX; lia).
  assert (Hw : 1%nat ≠ 0%nat) by done.
  split; [exact H1|]. split; [exact H2|]. split; [exact Hw|].
  exact (chunked_pushes_visible_by_chunk 0%nat 2 0%nat 1%nat H1 H2 Hw).
Defined.

End Chunked.
